(** * Spoken: a shallow embedding of the transcription server and the
      extension's transcription cache

    The development follows [server/server.js] (video identifier
    extraction, the three transcription backends, the [/transcribe] and
    [/estimate-cost] handlers), [extension/utils.js] (the extension-side
    identifier extractor) and [extension/sidepanel.js]'s background part
    (the bounded transcription cache).

    Conventions.
    - A JavaScript string is modelled by [string], one [ascii] per code
      unit (code units 0..255).  A value that may be [undefined] or [null]
      is an [option]; JavaScript truthiness of such a value is [truthy].
    - Times reported by the speech API are exact rationals ([Q]); video
      durations are whole seconds ([Z]).
    - What an external process or a remote API answers is supplied by an
      environment record; the handler is a function of the request and of
      that environment. *)

From Stdlib Require Import ZArith QArith Qround Qabs Ascii String List Lia Bool.
From stdpp Require Import base decidable option list gmap strings pretty.
From Stdlib Require Import Sorted Lqa.


(* ===================================================================== *)
(** ** JavaScript strings *)
(* ===================================================================== *)

Module Js.

(** [s] used as a condition: the empty string is falsy. *)
Definition nonempty (s : string) : bool :=
  match s with
  | EmptyString => false
  | String _ _ => true
  end.

(** An optional string used as a condition: [undefined], [null] and the
    empty string are falsy. *)
Definition truthy (o : option string) : bool :=
  match o with
  | Some s => nonempty s
  | None => false
  end.

(** [a || b] on strings. *)
Definition or_else (a : option string) (b : string) : string :=
  match a with
  | Some s => if nonempty s then s else b
  | None => b
  end.

(** [lit] is read off the front of [s]; the rest of [s] is returned. *)
Fixpoint strip_prefix (lit s : string) : option string :=
  match lit with
  | EmptyString => Some s
  | String a lit' =>
      match s with
      | String b s' => if Ascii.eqb a b then strip_prefix lit' s' else None
      | EmptyString => None
      end
  end.

(** [s.includes(pat)] *)
Fixpoint includes (pat s : string) : bool :=
  match strip_prefix pat s with
  | Some _ => true
  | None =>
      match s with
      | EmptyString => false
      | String _ s' => includes pat s'
      end
  end.

(** [s.replace(pat, rep)] with a string pattern: the first occurrence
    only. *)
Fixpoint replace_first (pat rep s : string) : string :=
  match strip_prefix pat s with
  | Some rest => rep +:+ rest
  | None =>
      match s with
      | EmptyString => EmptyString
      | String c s' => String c (replace_first pat rep s')
      end
  end.

(** [xs.join(sep)] *)
Fixpoint join (sep : string) (xs : list string) : string :=
  match xs with
  | [] => ""
  | [x] => x
  | x :: rest => x +:+ sep +:+ join sep rest
  end.

Fixpoint all_chars (p : ascii -> bool) (s : string) : bool :=
  match s with
  | EmptyString => true
  | String c s' => p c && all_chars p s'
  end.

(** [s.substring(0, n)] *)
Fixpoint take (n : nat) (s : string) : string :=
  match n, s with
  | S n', String c s' => String c (take n' s')
  | _, _ => EmptyString
  end.

End Js.

(* ===================================================================== *)
(** ** Video identifier extraction
       ([extractVideoId] in server.js, [extractVideoIdFromUrl] in utils.js) *)
(* ===================================================================== *)

Module VideoId.

Import Js.

Definition in_range (lo hi : nat) (c : ascii) : bool :=
  let n := nat_of_ascii c in (lo <=? n)%nat && (n <=? hi)%nat.

(** The character class [[a-zA-Z0-9_-]]. *)
Definition is_id_char (c : ascii) : bool :=
  in_range 97 122 c || in_range 65 90 c || in_range 48 57 c
  || Ascii.eqb c "_" || Ascii.eqb c "-".

(** [.] matches every code unit but a line terminator. *)
Definition is_line_terminator (c : ascii) : bool :=
  Ascii.eqb c "010" || Ascii.eqb c "013".

(** [([a-zA-Z0-9_-]{n})]: exactly [n] characters of the class, captured. *)
Fixpoint take_id (n : nat) (s : string) : option string :=
  match n with
  | O => Some EmptyString
  | S n' =>
      match s with
      | String c s' =>
          if is_id_char c
          then option_map (String c) (take_id n' s')
          else None
      | EmptyString => None
      end
  end.

(** [.*] followed by the rest of the pattern [k]: greedy, the longest
    run is tried first and given back one character at a time. *)
Fixpoint dot_star {A} (k : string -> option A) (s : string) : option A :=
  match s with
  | EmptyString => k EmptyString
  | String c s' =>
      if is_line_terminator c then k s
      else match dot_star k s' with
           | Some r => Some r
           | None => k s
           end
  end.

(** [v=([a-zA-Z0-9_-]{11})] *)
Definition v_eq_id (s : string) : option string :=
  match strip_prefix "v=" s with
  | Some rest => take_id 11 rest
  | None => None
  end.

(** [youtube\.com\/watch\?.*v=(...)] *)
Definition alt_watch (s : string) : option string :=
  match strip_prefix "youtube.com/watch?" s with
  | Some rest => dot_star v_eq_id rest
  | None => None
  end.

(** [youtu\.be\/(...)], [youtube\.com\/embed\/(...)],
    [youtube\.com\/shorts\/(...)] *)
Definition alt_lit (lit s : string) : option string :=
  match strip_prefix lit s with
  | Some rest => take_id 11 rest
  | None => None
  end.

Definition literal_prefixes : list string :=
  ["youtu.be/"; "youtube.com/embed/"; "youtube.com/shorts/"].

Fixpoint first_some {A B} (fs : list (A -> option B)) (x : A) : option B :=
  match fs with
  | [] => None
  | f :: fs' =>
      match f x with
      | Some r => Some r
      | None => first_some fs' x
      end
  end.

(** The alternation, tried left to right at one start position. *)
Definition match_here (s : string) : option string :=
  first_some (alt_watch :: map alt_lit literal_prefixes) s.

(** [url.match(pattern)] for the un-anchored pattern: the leftmost start
    position that matches wins; the result is capture group 1. *)
Fixpoint regex_group1 (s : string) : option string :=
  match match_here s with
  | Some g => Some g
  | None =>
      match s with
      | EmptyString => None
      | String _ s' => regex_group1 s'
      end
  end.

Definition patterns : list (string -> option string) := [regex_group1].

(** [for (const pattern of patterns) { const match = url.match(pattern);
      if (match && match[1]) return match[1]; } return null;] *)
Fixpoint scan (ps : list (string -> option string)) (url : string)
  : option string :=
  match ps with
  | [] => None
  | p :: ps' =>
      match p url with
      | Some g => if nonempty g then Some g else scan ps' url
      | None => scan ps' url
      end
  end.

(** server.js *)
Definition extractVideoId (url : string) : option string :=
  scan patterns url.

(** utils.js: [if (!url) return null;] comes first. *)
Definition extractVideoIdFromUrl (url : string) : option string :=
  if nonempty url then scan patterns url else None.

(** The prefixes after which an identifier is read. *)
Definition recognized_prefixes : list string :=
  "youtube.com/watch?v=" :: literal_prefixes.

(** Every alternative starts with [y]: no match starts inside a [lead]
    without that letter, such as ["https://www."] or ["http://m."]. *)
Definition plain_lead (lead : string) : bool :=
  all_chars (fun c => negb (Ascii.eqb "y" c)) lead.

Definition valid_id (id : string) : Prop :=
  String.length id = 11%nat /\ all_chars is_id_char id = true.

End VideoId.

(* ===================================================================== *)
(** ** Transcription backends: what each one sends, and the segments the
       Deepgram backend builds from word timings *)
(* ===================================================================== *)

Module Backend.

Import Js.

(** A 5-second (or recognizer-provided) piece of transcript. *)
Record Segment := mkSegment {
  seg_start : Q;
  seg_end : Q;
  seg_text : string
}.

(** The normalized result every backend resolves with. *)
Record Transcription := mkTranscription {
  t_text : string;
  t_language : string;
  t_segments : list Segment
}.

(** [language && language !== 'auto']: the value that is passed on, if
    any. *)
Definition forwarded (language : option string) : option string :=
  match language with
  | Some l => if nonempty l && negb (String.eqb l "auto") then Some l else None
  | None => None
  end.

(** *** Local Whisper: the argument vector of the spawned process *)

Definition local_args (audioPath model outputDir : string)
    (language : option string) : list string :=
  [audioPath; "--model"; model; "--output_format"; "json";
   "--output_dir"; outputDir]
  ++ match forwarded language with
     | Some l => ["--language"; l]
     | None => []
     end.

(** *** OpenAI Whisper API: the multipart form *)

Inductive FormValue :=
| FileStream (path filename contentType : string)
| Text (value : string).

Definition api_form (audioPath audioBaseName : string)
    (language : option string) : list (string * FormValue) :=
  [("file", FileStream audioPath audioBaseName "audio/mpeg");
   ("model", Text "whisper-1");
   ("response_format", Text "verbose_json");
   ("temperature", Text "0")]
  ++ match forwarded language with
     | Some l => [("language", Text l)]
     | None => []
     end.

(** [form.has(name)] *)
Definition form_has (name : string) (form : list (string * FormValue)) : bool :=
  existsb (fun f => String.eqb (fst f) name) form.

(** *** Deepgram *)

Definition DEEPGRAM_API_URL : string := "https://api.deepgram.com/v1/listen".

Definition DEEPGRAM_NOVA2_LANGUAGES : gset string :=
  list_to_set
    ["en"; "en-US"; "en-GB"; "en-AU"; "en-NZ"; "en-IN";
     "es"; "es-419"; "es-ES";
     "fr"; "fr-CA";
     "de";
     "it";
     "pt"; "pt-BR"; "pt-PT";
     "nl";
     "hi";
     "ja";
     "zh"; "zh-CN"; "zh-TW";
     "ko";
     "pl";
     "ru";
     "tr";
     "uk";
     "sv";
     "da";
     "no";
     "fi";
     "id";
     "ms";
     "th";
     "vi";
     "ta";
     "te";
     "cs";
     "el";
     "ro";
     "bg";
     "hu";
     "sk";
     "hr";
     "ca";
     "taq"].

(** [language && language !== 'auto' &&
     !DEEPGRAM_NOVA2_LANGUAGES.has(language)] *)
Definition useWhisper (language : option string) : bool :=
  match language with
  | Some l =>
      nonempty l && negb (String.eqb l "auto")
      && negb (bool_decide (l ∈ DEEPGRAM_NOVA2_LANGUAGES))
  | None => false
  end.

Definition deepgram_model (language : option string) : string :=
  if useWhisper language then "whisper-large" else "nova-2".

Definition deepgram_url (language : option string) : string :=
  let url := DEEPGRAM_API_URL +:+ "?model=" +:+ deepgram_model language
             +:+ "&smart_format=true&diarize=false" in
  match forwarded language with
  | Some l => url +:+ "&language=" +:+ l
  | None => url
  end.

(** One entry of [alternative.words]. *)
Record Word := mkWord {
  w_start : Q;
  w_word : string;
  w_punctuated_word : option string
}.

(** [result.results?.channels[0]?.alternatives[0]] *)
Record Alternative := mkAlternative {
  alt_transcript : string;
  alt_words : option (list Word)
}.

Definition SEGMENT_DURATION : Q := 5%Q.

(** [word.punctuated_word || word.word] *)
Definition content (w : Word) : string :=
  or_else (w_punctuated_word w) (w_word w).

(** [currentSegment.text ? `${currentSegment.text} ${content}` : content] *)
Definition add_word (text c : string) : string :=
  if nonempty text then text +:+ " " +:+ c else c.

(** [if (currentSegment.text) segments.push(currentSegment)] *)
Definition push_if_text (segments : list Segment) (cur : Segment)
  : list Segment :=
  if nonempty (seg_text cur) then segments ++ [cur] else segments.

(** The body of [words.forEach]; the loop state is the list pushed so
    far and [currentSegment]. *)
Definition word_step (st : list Segment * Segment) (w : Word)
  : list Segment * Segment :=
  let '(segments, cur) := st in
  let wordStart := w_start w in
  let '(segments, cur) :=
    if Qle_bool (seg_end cur) wordStart then
      let slotIndex := Qfloor (wordStart / SEGMENT_DURATION)%Q in
      let newStart := (inject_Z slotIndex * SEGMENT_DURATION)%Q in
      (push_if_text segments cur,
       mkSegment newStart (newStart + SEGMENT_DURATION)%Q "")
    else (segments, cur) in
  (segments,
   mkSegment (seg_start cur) (seg_end cur) (add_word (seg_text cur) (content w))).

Definition synthesize (alternative : Alternative) : list Segment :=
  let words := default [] (alt_words alternative) in
  match words with
  | _ :: _ =>
      let '(segments, cur) :=
        fold_left word_step words ([], mkSegment 0%Q SEGMENT_DURATION "") in
      push_if_text segments cur
  | [] => [mkSegment 0%Q 0%Q (alt_transcript alternative)]
  end.

(** The word [w] reported at start time [t]. *)
Definition at_time (t : Q) (w : Word) : Word :=
  mkWord t (w_word w) (w_punctuated_word w).

(** The start times of the worked example. *)
Definition example_starts : list Q :=
  [0; 2; 49 # 10; 5; 7; 121 # 10]%Q.

(** What [transcribeDeepgram] resolves with, given the parsed response. *)
Definition deepgram_result (alternative : option Alternative) : Transcription :=
  match alternative with
  | None => mkTranscription "" "unknown" []
  | Some a => mkTranscription (alt_transcript a) "detected" (synthesize a)
  end.

End Backend.

(* ===================================================================== *)
(** ** The server: configuration, environment, response stream *)
(* ===================================================================== *)

Module Server.

Import Js Backend.

Definition MAX_DURATION_SECONDS : Z := 3 * 60 * 60.

(** Process-wide settings read at start-up. *)
Record Config := mkConfig {
  TRANSCRIPTION_MODE : string;
  LOCAL_WHISPER_MODEL : string;
  TEMP_DIR : string
}.

Record VideoInfo := mkVideoInfo {
  vi_id : string;
  vi_title : string;
  vi_duration : Z;
  vi_channel : string;
  vi_thumbnail : string;
  vi_isLive : bool
}.

(** The outcome of an awaited promise. *)
Inductive Result (A : Type) :=
| Resolved (a : A)
| Rejected (message : string).
Arguments Resolved {A} a.
Arguments Rejected {A} message.

(** How a spawned process ends: the [close] event with its exit code
    ([None] when a signal killed it) and what it wrote to stderr, or the
    [error] event when it could not be started. *)
Inductive ProcessEnd :=
| Close (code : option Z) (stderr : string)
| SpawnError (message : string).

(** What the outside world answers.  Processes also change the set of
    existing files. *)
Record Env := mkEnv {
  getVideoInfo : string -> Result VideoInfo;
  randomUUID : string;
  yt_dlp : list string -> gset string -> ProcessEnd * gset string;
  whisper : list string -> gset string -> Result Transcription * gset string;
  openai : option string -> list (string * FormValue) -> Result Transcription;
  deepgram : option string -> string -> Result (option Alternative)
}.

Record Request := mkRequest {
  body_url : option string;
  body_language : option string;
  header_x_api_key : option string;
  header_authorization : option string;
  header_x_provider : option string;
  header_x_mode : option string
}.

Record ResultData := mkResultData {
  rd_videoId : string;
  rd_title : string;
  rd_channel : string;
  rd_duration : Z;
  rd_text : string;
  rd_language : string;
  rd_segments : list Segment;
  rd_mode : string;
  rd_provider : string
}.

(** One [data: ...] block of the event stream. *)
Inductive Event :=
| EvInfo (message : string)
| EvError (error : string)
| EvComplete (data : ResultData).

Definition is_info (e : Event) : bool :=
  match e with EvInfo _ => true | _ => false end.

Definition is_terminal (e : Event) : bool :=
  match e with EvInfo _ => false | _ => true end.

(** [evs] extends [base] by progress messages only. *)
Definition quiet (base evs : list Event) : Prop :=
  exists infos, evs = base ++ infos /\ forallb is_info infos = true.

(** [evs] extends [base] by progress messages and then one terminal
    event, the last one. *)
Definition closed (base evs : list Event) : Prop :=
  exists infos t,
    evs = base ++ infos ++ [t]
    /\ forallb is_info infos = true /\ is_terminal t = true.

(** Everything one run of the handler reads and changes. *)
Record State := mkState {
  events : list Event;            (* blocks written so far, oldest first *)
  ended : bool;                   (* [res.end()] has been called *)
  files : gset string;            (* paths for which [existsSync] holds *)
  unlinks : list string;          (* [unlink] calls issued, still to run *)
  downloads : list (string * string); (* [downloadAudio] calls: url, path *)
  audioPath : option string       (* the handler's [let audioPath] *)
}.

Definition with_events (f : list Event -> list Event) (st : State) : State :=
  mkState (f (events st)) (ended st) (files st) (unlinks st)
          (downloads st) (audioPath st).
Definition with_ended (b : bool) (st : State) : State :=
  mkState (events st) b (files st) (unlinks st) (downloads st) (audioPath st).
Definition with_files (fs : gset string) (st : State) : State :=
  mkState (events st) (ended st) fs (unlinks st) (downloads st) (audioPath st).
Definition with_unlinks (f : list string -> list string) (st : State) : State :=
  mkState (events st) (ended st) (files st) (f (unlinks st))
          (downloads st) (audioPath st).
Definition with_downloads (f : list (string * string) -> list (string * string))
    (st : State) : State :=
  mkState (events st) (ended st) (files st) (unlinks st)
          (f (downloads st)) (audioPath st).
Definition with_audioPath (p : option string) (st : State) : State :=
  mkState (events st) (ended st) (files st) (unlinks st) (downloads st) p.

(** How a block of statements completes. *)
Inductive Completion (A : Type) :=
| Normal (a : A)
| Return
| Throw (message : string).
Arguments Normal {A} a.
Arguments Return {A}.
Arguments Throw {A} message.

Definition M (A : Type) : Type := State -> Completion A * State.

Definition ret {A} (a : A) : M A := fun st => (Normal a, st).
Definition return_ {A} : M A := fun st => (Return, st).
Definition throw {A} (message : string) : M A := fun st => (Throw message, st).

Definition bind {A B} (m : M A) (k : A -> M B) : M B :=
  fun st =>
    match m st with
    | (Normal a, st') => k a st'
    | (Return, st') => (Return, st')
    | (Throw e, st') => (Throw e, st')
    end.

Declare Scope handler_scope.
Delimit Scope handler_scope with handler.
Notation "x <- m ;; k" := (bind m (fun x => k))
  (at level 100, m at next level, right associativity) : handler_scope.
Notation "m ;; k" := (bind m (fun _ => k))
  (at level 100, right associativity) : handler_scope.
Local Open Scope handler_scope.

(** [await p] *)
Definition await {A} (r : Result A) : M A :=
  match r with
  | Resolved a => ret a
  | Rejected e => throw e
  end.

(** [res.write(`data: ${JSON.stringify(data)}\n\n`)] *)
Definition sendEvent (e : Event) : M unit :=
  fun st => (Normal tt, with_events (fun evs => evs ++ [e]) st).

Definition res_end : M unit :=
  fun st => (Normal tt, with_ended true st).

(** [join(dir, name)] for a normalized [dir] and a plain file name. *)
Definition path_join (dir name : string) : string := dir +:+ "/" +:+ name.

(** [basename(path)]: what follows the last separator. *)
Fixpoint basename (path : string) : string :=
  match path with
  | EmptyString => EmptyString
  | String c rest =>
      if includes "/" rest then basename rest
      else if Ascii.eqb c "/" then rest else path
  end.

Definition is_ext_char (c : ascii) : bool :=
  negb (Ascii.eqb c "/") && negb (Ascii.eqb c ".").

(** [path.replace(/\.[^/.]+$/, '.mp3')] *)
Fixpoint replace_ext (path : string) : string :=
  match path with
  | EmptyString => EmptyString
  | String c rest =>
      if Ascii.eqb c "." && nonempty rest && all_chars is_ext_char rest
      then ".mp3"
      else String c (replace_ext rest)
  end.

(** *** [downloadAudio] *)

Definition download_args (url outputPath : string) : list string :=
  ["-x"; "--audio-format"; "mp3"; "--audio-quality"; "128K";
   "--no-playlist"; "--no-warnings"; "--progress"; "-o"; outputPath; url].

Definition possiblePaths (outputPath : string) : list string :=
  [outputPath; outputPath +:+ ".mp3"; replace_ext outputPath].

Definition download_outcome (outputPath : string) (e : ProcessEnd)
    (fs : gset string) : Result string :=
  match e with
  | Close (Some 0%Z) _ =>
      match List.find (fun p => bool_decide (p ∈ fs)) (possiblePaths outputPath) with
      | Some p => Resolved p
      | None => Rejected "Audio file not found after download"
      end
  | Close _ stderr => Rejected (or_else (Some stderr) "Failed to download audio")
  | SpawnError m => Rejected ("yt-dlp not found: " +:+ m)
  end.

Definition downloadAudio (env : Env) (url outputPath : string) : M string :=
  fun st =>
    let st := with_downloads (fun ds => ds ++ [(url, outputPath)]) st in
    let '(e, fs) := yt_dlp env (download_args url outputPath) (files st) in
    await (download_outcome outputPath e fs) (with_files fs st).

(** *** The three backends, as the handler awaits them *)

(** The recognizer run, the reading of its JSON output and the removal
    of its by-products are the environment's [whisper]. *)
Definition transcribeLocal (cfg : Config) (env : Env) (audioPath : string)
    (language : option string) : M Transcription :=
  fun st =>
    let '(r, fs) :=
      whisper env
        (local_args audioPath (LOCAL_WHISPER_MODEL cfg) (TEMP_DIR cfg) language)
        (files st) in
    await r (with_files fs st).

Definition transcribeAPI (env : Env) (audioPath : string)
    (apiKey : option string) (language : option string) : M Transcription :=
  await (openai env apiKey (api_form audioPath (basename audioPath) language)).

Definition transcribeDeepgram (env : Env) (audioPath : string)
    (apiKey : option string) (language : option string) : M Transcription :=
  alternative <- await (deepgram env apiKey (deepgram_url language)) ;;
  ret (deepgram_result alternative).

(** *** [cleanup] and the handler of [POST /transcribe] *)

(** [unlink(filePath, cb)] only issues the removal; it is carried out
    later, see [run_unlinks]. *)
Definition cleanup (filePath : string) : M unit :=
  fun st =>
    if nonempty filePath && bool_decide (filePath ∈ files st)
    then (Normal tt, with_unlinks (fun us => us ++ [filePath]) st)
    else (Normal tt, st).

(** A value used as a condition and then as a string. *)
Definition truthy_value (o : option string) : option string :=
  match o with
  | Some s => if nonempty s then Some s else None
  | None => None
  end.

(** [req.headers['x-api-key'] ||
     req.headers['authorization']?.replace('Bearer ', '')] *)
Definition request_apiKey (req : Request) : option string :=
  match truthy_value (header_x_api_key req) with
  | Some k => Some k
  | None => option_map (replace_first "Bearer " "") (header_authorization req)
  end.

Definition request_provider (req : Request) : string :=
  or_else (header_x_provider req) "openai".

Definition request_mode (cfg : Config) (req : Request) : string :=
  or_else (header_x_mode req) (TRANSCRIPTION_MODE cfg).

(** [const { url, language = 'auto' } = req.body] *)
Definition request_language (req : Request) : string :=
  default "auto" (body_language req).

(** [mode === 'api' && !apiKey && provider !== 'local'] *)
Definition api_key_missing (cfg : Config) (req : Request) : bool :=
  String.eqb (request_mode cfg req) "api"
  && negb (truthy (request_apiKey req))
  && negb (String.eqb (request_provider req) "local").

Definition too_long_message : string :=
  "Video too long. Maximum duration is "
  +:+ pretty (MAX_DURATION_SECONDS / 3600)%Z +:+ " hours.".

Definition try_block (cfg : Config) (env : Env) (req : Request) : M unit :=
  let language := request_language req in
  let apiKey := request_apiKey req in
  let provider := request_provider req in
  let mode := request_mode cfg req in
  match truthy_value (body_url req) with
  | None =>
      sendEvent (EvError "URL is required") ;; res_end ;; return_
  | Some url =>
      if String.eqb mode "api" && negb (truthy apiKey)
         && negb (String.eqb provider "local")
      then
        sendEvent (EvError ("API key required for " +:+ provider +:+ " mode.")) ;;
        res_end ;; return_
      else
        match VideoId.extractVideoId url with
        | None =>
            sendEvent (EvError "Invalid YouTube URL") ;; res_end ;; return_
        | Some videoId =>
            sendEvent (EvInfo "Fetching video info...") ;;
            videoInfo <- await (getVideoInfo env url) ;;
            if (MAX_DURATION_SECONDS <? vi_duration videoInfo)%Z then
              sendEvent (EvError too_long_message) ;; res_end ;; return_
            else if vi_isLive videoInfo then
              sendEvent (EvError "Cannot transcribe live streams.") ;;
              res_end ;; return_
            else
              sendEvent (EvInfo "Downloading audio from YouTube...") ;;
              let tempId := randomUUID env in
              let path := path_join (TEMP_DIR cfg) tempId in
              (fun st => (Normal tt, with_audioPath (Some path) st)) ;;
              actualPath <- downloadAudio env url path ;;
              transcription <-
                (if String.eqb mode "local" then
                   sendEvent (EvInfo "Transcribing with local Whisper...") ;;
                   transcribeLocal cfg env actualPath (Some language)
                 else if String.eqb provider "deepgram" then
                   sendEvent (EvInfo "Transcribing with Deepgram API...") ;;
                   transcribeDeepgram env actualPath apiKey (Some language)
                 else
                   sendEvent (EvInfo "Transcribing with OpenAI Whisper...") ;;
                   transcribeAPI env actualPath apiKey (Some language)) ;;
              sendEvent (EvInfo "Finalizing...") ;;
              let resultData :=
                mkResultData videoId (vi_title videoInfo) (vi_channel videoInfo)
                  (vi_duration videoInfo) (t_text transcription)
                  (t_language transcription) (t_segments transcription)
                  mode provider in
              sendEvent (EvComplete resultData) ;;
              res_end
        end
  end.

Definition catch_block (message : string) : M unit :=
  let message :=
    if includes "API key" message || includes "quota" message
    then "API Authentication Failed: " +:+ message
    else message in
  sendEvent (EvError message) ;; res_end.

Definition finally_block : M unit :=
  fun st =>
    match truthy_value (audioPath st) with
    | Some p => (cleanup p ;; cleanup (p +:+ ".mp3")) st
    | None => (Normal tt, st)
    end.

(** [let audioPath = null; try { ... } catch (error) { ... }] *)
Definition try_catch (cfg : Config) (env : Env) (req : Request)
    (st : State) : State :=
  let st := with_audioPath None st in
  let '(c, st) := try_block cfg env req st in
  match c with
  | Throw message => snd (catch_block message st)
  | _ => st
  end.

(** [try { ... } catch (error) { ... } finally { ... }] *)
Definition transcribe_handler (cfg : Config) (env : Env) (req : Request)
    (st : State) : State :=
  snd (finally_block (try_catch cfg env req st)).

(** The removals issued by [unlink] are carried out after the handler
    is done.  [ok p] tells whether removing [p] succeeds; a failure is
    logged by the callback and changes nothing. *)
Definition run_unlinks (ok : string -> bool) (st : State) : State :=
  with_unlinks (fun _ => [])
    (with_files
       (fold_left (fun fs p => if ok p then fs ∖ {[p]} else fs)
                  (unlinks st) (files st))
       st).

(** A response on which nothing was written yet. *)
Definition fresh (fs : gset string) : State :=
  mkState [] false fs [] [] None.

(** *** [POST /estimate-cost] *)

Record CostData := mkCostData {
  cd_duration : Z;
  cd_minutes : Z;
  cd_cost : string;
  cd_formattedCost : string;
  cd_mode : string
}.

Inductive CostReply :=
| CostOk (data : CostData)                 (* [{ success: true, data }] *)
| CostFailed (status : Z) (error : string). (* [res.status(..).json({ error })] *)

Definition pad4 (n : Z) : string :=
  let d := pretty n in
  match String.length d with
  | 1%nat => "000" +:+ d
  | 2%nat => "00" +:+ d
  | 3%nat => "0" +:+ d
  | _ => d
  end.

(** [x.toFixed(4)] for a value below 10^21: the nearest multiple of
    1/10000, the larger one on a tie. *)
Definition toFixed4 (x : Q) : string :=
  let n := Qfloor (Qabs x * 10000 + (1 # 2))%Q in
  (if Qle_bool 0 x then "" else "-")
  +:+ pretty (n / 10000)%Z +:+ "." +:+ pad4 (n mod 10000)%Z.

Definition RATE_PER_MINUTE : Q := (6 # 1000)%Q.

(** [Math.ceil(info.duration / 60)] *)
Definition minutes_of (duration : Z) : Z :=
  Qceiling (inject_Z duration / 60)%Q.

Definition estimate (cfg : Config) (duration : Z) : CostData :=
  let minutes := minutes_of duration in
  if String.eqb (TRANSCRIPTION_MODE cfg) "local" then
    mkCostData duration minutes "0.00" "FREE (local mode)" "local"
  else
    let cost := (inject_Z minutes * RATE_PER_MINUTE)%Q in
    mkCostData duration minutes (toFixed4 cost) ("$" +:+ toFixed4 cost) "api".

Definition estimate_cost (cfg : Config) (env : Env) (url : option string)
  : CostReply :=
  match truthy_value url with
  | None => CostFailed 400 "URL is required"
  | Some u =>
      match getVideoInfo env u with
      | Resolved info => CostOk (estimate cfg (vi_duration info))
      | Rejected message => CostFailed 500 message
      end
  end.

End Server.
(* ===================================================================== *)
(** ** The extension's transcription cache
       ([handleSetCachedTranscription], [handleGetCachedTranscription]) *)
(* ===================================================================== *)

Module Cache.

Import Js.

Section WithPayload.

(** What [...transcription] spreads into an entry. *)
Context {T : Type}.

Record Entry := mkEntry {
  payload : T;
  timestamp : Z
}.

(** The stored object: its own properties in [Object.keys] order
    (insertion order for keys that are not array indices); a key
    occurs at most once. *)
Definition Obj : Type := list (string * Entry).

Definition CACHE_LIMIT : nat := 50.

(** [Object.keys(cache)] *)
Definition keys (cache : Obj) : list string := map fst cache.

(** [cache[key]] *)
Fixpoint get (cache : Obj) (key : string) : option Entry :=
  match cache with
  | [] => None
  | (k, e) :: rest => if String.eqb k key then Some e else get rest key
  end.

(** [delete cache[key]] *)
Fixpoint remove (key : string) (cache : Obj) : Obj :=
  match cache with
  | [] => []
  | (k, e) :: rest =>
      if String.eqb k key then rest else (k, e) :: remove key rest
  end.

(** [cache[key] = e]: an existing property keeps its place, a new one
    goes last. *)
Fixpoint set (key : string) (e : Entry) (cache : Obj) : Obj :=
  match cache with
  | [] => [(key, e)]
  | (k, e') :: rest =>
      if String.eqb k key then (k, e) :: rest else (k, e') :: set key e rest
  end.

(** The callback of [cacheKeys.reduce(..., null)]. *)
Definition older (cache : Obj) (oldest : option string) (key : string)
  : option string :=
  match oldest with
  | None => Some key
  | Some o =>
      if negb (nonempty o) then Some key
      else
        match get cache key, get cache o with
        | Some ek, Some eo =>
            if (timestamp ek <? timestamp eo)%Z then Some key else Some o
        | _, _ => Some o
        end
  end.

Definition oldestKey (cache : Obj) : option string :=
  fold_left (older cache) (keys cache) None.

(** The size check and the removal of the oldest entry. *)
Definition evict (cache : Obj) : Obj :=
  if (CACHE_LIMIT <=? length (keys cache))%nat then
    match oldestKey cache with
    | Some o => if nonempty o then remove o cache else cache
    | None => cache
    end
  else cache.

(** [handleSetCachedTranscription]: [stored] is what
    [chrome.storage.local.get] returned, [now] is [Date.now()]; the
    result is what is written back. *)
Definition handleSetCachedTranscription (stored : option Obj)
    (videoId : string) (transcription : T) (now : Z) : Obj :=
  let cache := default [] stored in
  set videoId (mkEntry transcription now) (evict cache).


(** [o] is a key of [cache] whose timestamp no key among [ks]
    undercuts. *)
Definition minimal_among (cache : Obj) (ks : list string) (o : string)
  : Prop :=
  exists eo, get cache o = Some eo
    /\ forall k e, In k ks -> get cache k = Some e ->
         (timestamp eo <= timestamp e)%Z.

(** The shape every stored cache has: distinct keys, none empty. *)
Definition well_formed (cache : Obj) : Prop :=
  NoDup (keys cache) /\ Forall (fun k => nonempty k = true) (keys cache).

End WithPayload.

Arguments Entry T : clear implicits.
Arguments Obj T : clear implicits.

End Cache.

(* ===================================================================== *)
(** ** Concrete requests, environments and caches used in examples *)
(* ===================================================================== *)

Module Sample.

Import Js Backend Server.

Definition cfg : Config := mkConfig "api" "base" "/tmp/yt-transcriber".

Definition url : string := "https://www.youtube.com/watch?v=dQw4w9WgXcQ".

Definition info (duration : Z) (live : bool) : VideoInfo :=
  mkVideoInfo "dQw4w9WgXcQ" "A title" duration "A channel"
              "https://i.ytimg.com/vi/dQw4w9WgXcQ/default.jpg" live.

Definition spoken : Transcription :=
  mkTranscription "hello there" "en" [mkSegment 0 (5 # 2) "hello there"].

(** Everything works: the downloader leaves [<path>.mp3] behind. *)
Definition env (duration : Z) (live : bool) : Env :=
  mkEnv (fun _ => Resolved (info duration live))
        "3f2b8c1e-uuid"
        (fun _ fs => (Close (Some 0%Z) "",
                      fs ∪ {["/tmp/yt-transcriber/3f2b8c1e-uuid.mp3"]}))
        (fun _ fs => (Resolved spoken, fs))
        (fun _ _ => Resolved spoken)
        (fun _ _ => Resolved None).

Definition req : Request :=
  mkRequest (Some url) None (Some "sk-test") None None None.

Definition audio : string := "/tmp/yt-transcriber/3f2b8c1e-uuid".

(** A cache of [n] entries whose oldest entry is not the first key. *)
Definition key (i : nat) : string := "video-" +:+ pretty i.

Definition stamp (i : nat) : Z := Z.of_nat ((i * 7 + 3) mod 50).

Definition cache (n : nat) : Cache.Obj nat :=
  map (fun i => (key i, Cache.mkEntry i (stamp i))) (seq 0 n).

End Sample.

(* ===================================================================== *)
(** ** The cache over several requests *)
(* ===================================================================== *)

Module CacheHistory.

Import Js Cache.

Section WithPayload.

Context {T : Type}.

(** One [SET_CACHED_TRANSCRIPTION] message and the clock reading when it
    is handled. *)
Record Write := mkWrite {
  wr_videoId : string;
  wr_transcription : T;
  wr_now : Z
}.

(** The messages handled one after the other: each run reads what the
    run before it wrote with [chrome.storage.local.set]. *)
Definition replay (stored : option (Obj T)) (ws : list Write) : option (Obj T) :=
  fold_left
    (fun s w =>
       Some (handleSetCachedTranscription s (wr_videoId w)
               (wr_transcription w) (wr_now w)))
    ws stored.


(** What is stored is absent or a cache of the usual shape with at most
    50 entries. *)
Definition bounded (stored : option (Obj T)) : Prop :=
  match stored with
  | None => True
  | Some cache => well_formed cache /\ (length cache <= 50)%nat
  end.

End WithPayload.

Arguments Write T : clear implicits.

End CacheHistory.

(* ===================================================================== *)
(** ** What the [/transcribe] handler reports for a failure *)
(* ===================================================================== *)

Module Failure.

Import Js Server.

(** The text the [catch] block sends for a thrown [message]. *)
Definition reported (message : string) : string :=
  if includes "API key" message || includes "quota" message
  then "API Authentication Failed: " +:+ message
  else message.

(** The request does not pass the checks made before the video is looked
    up: no URL, no key where one is needed, or a URL without a video
    identifier. *)
Definition fails_validation (cfg : Config) (req : Request) : Prop :=
  truthy_value (body_url req) = None
  \/ api_key_missing cfg req = true
  \/ exists url, truthy_value (body_url req) = Some url
                 /\ VideoId.extractVideoId url = None.

(** [env] with other cloud services. *)
Definition with_cloud (env : Env)
    (o : option string -> list (string * Backend.FormValue) -> Result Backend.Transcription)
    (d : option string -> string -> Result (option Backend.Alternative)) : Env :=
  mkEnv (getVideoInfo env) (randomUUID env) (yt_dlp env) (whisper env) o d.

(** [env] with another local recognizer. *)
Definition with_whisper (env : Env)
    (w : list string -> gset string -> Result Backend.Transcription * gset string)
  : Env :=
  mkEnv (getVideoInfo env) (randomUUID env) (yt_dlp env) w (openai env)
        (deepgram env).

End Failure.

(* ===================================================================== *)
(** ** Download candidates and 5-second slots *)
(* ===================================================================== *)

Module Slots.

Import Js Backend.


(** The 5-second slot a word starts in. *)
Definition slot_of (w : Word) : Z := Qfloor (w_start w / SEGMENT_DURATION)%Q.

(** The segment that covers slot [k]. *)
Definition slot_segment (k : Z) (text : string) : Segment :=
  let start := (inject_Z k * SEGMENT_DURATION)%Q in
  mkSegment start (start + SEGMENT_DURATION)%Q text.

(** [s] ends before [t] starts. *)
Definition before (s t : Segment) : Prop := (seg_end s <= seg_start t)%Q.

(** [s] covers one whole slot. *)
Definition covers_a_slot (s : Segment) : Prop :=
  exists k, (0 <= k)%Z
    /\ (seg_start s == inject_Z (5 * k))%Q
    /\ (seg_end s == inject_Z (5 * k + 5))%Q.

(** The values of [l] without repetition, in the order in which they
    first occur. *)
Fixpoint distinct (l : list Z) : list Z :=
  match l with
  | [] => []
  | k :: rest => k :: List.filter (fun j => negb (j =? k)%Z) (distinct rest)
  end.

(** The words that start in slot [k]. *)
Definition words_in (k : Z) (ws : list Word) : list Word :=
  List.filter (fun w => (slot_of w =? k)%Z) ws.

(** The segment of slot [k] read off the words directly: the words that
    start in the slot, joined by spaces. *)
Definition seg_for (ws : list Word) (k : Z) : Segment :=
  slot_segment k (join " " (map content (words_in k ws))).

(** One such segment per slot in which a word starts. *)
Definition by_slot (ws : list Word) : list Segment :=
  map (seg_for ws) (distinct (map slot_of ws)).

(** The loop state after the words [done], the last of which starts in
    slot [kl]: the pushed segments and [currentSegment] are the segments
    of the slots seen so far. *)
Definition grouped (done : list Word) (kl : Z) (st : list Segment * Segment)
  : Prop :=
  let '(segments, cur) := st in
  exists ks,
    distinct (map slot_of done) = ks ++ [kl]
    /\ Forall (fun k => (k < kl)%Z) ks
    /\ segments = map (seg_for done) ks
    /\ cur = seg_for done kl
    /\ Forall (fun w => nonempty (content w) = true) done.

(** The words come in the order of their start times, none before 0. *)
Definition in_time_order (ws : list Word) : Prop :=
  Forall (fun w => (0 <= w_start w)%Q) ws
  /\ Sorted (fun a b => (w_start a <= w_start b)%Q) ws.

(** [s] lies on slot [k], with the bounds as the code computes them. *)
Definition on_slot (k : Z) (s : Segment) : Prop :=
  seg_start s = (inject_Z k * SEGMENT_DURATION)%Q
  /\ seg_end s = (inject_Z k * SEGMENT_DURATION + SEGMENT_DURATION)%Q.

Definition on_some_slot (s : Segment) : Prop :=
  exists k, (0 <= k)%Z /\ on_slot k s.

(** What holds of the segments pushed so far and of [currentSegment]
    between two words. *)
Definition tidy (st : list Segment * Segment) : Prop :=
  let '(segments, cur) := st in
  on_some_slot cur
  /\ Forall on_some_slot segments
  /\ Forall (fun s => nonempty (seg_text s) = true) segments
  /\ StronglySorted before segments
  /\ Forall (fun s => before s cur) segments.

End Slots.

(* ===================================================================== *)
(** ** The extension's other identifier extractors
       ([utils.js], the background part of [sidepanel.js], [content.js]) *)
(* ===================================================================== *)

Module Urls.

Import Js VideoId.

(** utils.js: [`https://www.youtube.com/watch?v=${videoId}`] *)
Definition buildYouTubeUrl (videoId : string) : string :=
  "https://www.youtube.com/watch?v=" +:+ videoId.

(** utils.js: [extractVideoIdFromUrl(url) !== null] *)
Definition isValidYouTubeUrl (url : string) : bool :=
  match extractVideoIdFromUrl url with
  | Some _ => true
  | None => false
  end.

(** An optional literal [(?:lit)?] followed by the rest of the pattern
    [k]: taken when present, given back when the rest then fails. *)
Definition opt {A} (lit : string) (k : string -> option A) (s : string)
  : option A :=
  match strip_prefix lit s with
  | Some rest =>
      match k rest with
      | Some r => Some r
      | None => k s
      end
  | None => k s
  end.

(** An optional capturing group [(lit)?]: [k] also receives what the
    group captured. *)
Definition opt_group {A} (lit : string)
    (k : option string -> string -> option A) (s : string) : option A :=
  match strip_prefix lit s with
  | Some rest =>
      match k (Some lit) rest with
      | Some r => Some r
      | None => k None s
      end
  | None => k None s
  end.

(** What [url.match(pattern)] holds at indices 1 and 2. *)
Record Groups := mkGroups {
  group1 : option string;
  group2 : option string
}.

(** [^https?:\/\/] and then [k]; the patterns are anchored, so they are
    tried at the start of the string only. *)
Definition after_scheme {A} (k : string -> option A) (s : string) : option A :=
  match strip_prefix "http" s with
  | Some rest =>
      opt "s" (fun r =>
                 match strip_prefix "://" r with
                 | Some r' => k r'
                 | None => None
                 end) rest
  | None => None
  end.

(** [^https?:\/\/(www\.)?youtube\.com\/watch\?.*v=([a-zA-Z0-9_-]{11})] *)
Definition bg_watch : string -> option Groups :=
  after_scheme
    (opt_group "www."
       (fun g1 r =>
          match strip_prefix "youtube.com/watch?" r with
          | Some r' => option_map (fun id => mkGroups g1 (Some id))
                                  (dot_star v_eq_id r')
          | None => None
          end)).

(** [^https?:\/\/youtu\.be\/([a-zA-Z0-9_-]{11})] *)
Definition bg_short : string -> option Groups :=
  after_scheme
    (fun r =>
       match strip_prefix "youtu.be/" r with
       | Some r' => option_map (fun id => mkGroups (Some id) None) (take_id 11 r')
       | None => None
       end).

(** [^https?:\/\/(www\.)?youtube\.com\/embed\/([a-zA-Z0-9_-]{11})] and the
    same with [shorts]. *)
Definition bg_path (path : string) : string -> option Groups :=
  after_scheme
    (opt_group "www."
       (fun g1 r =>
          match strip_prefix path r with
          | Some r' => option_map (fun id => mkGroups g1 (Some id)) (take_id 11 r')
          | None => None
          end)).

Definition YOUTUBE_PATTERNS : list (string -> option Groups) :=
  [bg_watch; bg_short; bg_path "youtube.com/embed/";
   bg_path "youtube.com/shorts/"].

(** [for (const pattern of YOUTUBE_PATTERNS) { const match =
      url.match(pattern); if (match) return match[2] || match[1]; }
     return null;] *)
Fixpoint bg_scan (ps : list (string -> option Groups)) (url : string)
  : option string :=
  match ps with
  | [] => None
  | p :: ps' =>
      match p url with
      | Some m =>
          match truthy (group2 m), group2 m with
          | true, g => g
          | false, _ => group1 m
          end
      | None => bg_scan ps' url
      end
  end.

(** sidepanel.js, background part: [extractVideoId] *)
Definition bg_extractVideoId (url : string) : option string :=
  if nonempty url then bg_scan YOUTUBE_PATTERNS url else None.

(** sidepanel.js: [isYouTubeVideoUrl] *)
Definition isYouTubeVideoUrl (url : string) : bool :=
  match bg_extractVideoId url with
  | Some _ => true
  | None => false
  end.

(** An un-anchored pattern: the leftmost position at which [m] matches. *)
Fixpoint search {A} (m : string -> option A) (s : string) : option A :=
  match m s with
  | Some r => Some r
  | None =>
      match s with
      | EmptyString => None
      | String _ s' => search m s'
      end
  end.

(** [[?&]v=([a-zA-Z0-9_-]{11})] at one position *)
Definition query_v (s : string) : option string :=
  match s with
  | String c rest =>
      if Ascii.eqb c "?" || Ascii.eqb c "&" then v_eq_id rest else None
  | EmptyString => None
  end.

(** content.js: [VIDEO_ID_PATTERNS] *)
Definition VIDEO_ID_PATTERNS : list (string -> option string) :=
  [search query_v; search (alt_lit "/shorts/"); search (alt_lit "/embed/")].

(** content.js: [extractVideoId], as a function of [window.location.href] *)
Definition content_extractVideoId (href : string) : option string :=
  scan VIDEO_ID_PATTERNS href.

(** The URL shapes the server's pattern lists. *)
Definition url_shapes (videoId : string) : list string :=
  ["https://www.youtube.com/watch?v=" +:+ videoId;
   "https://youtu.be/" +:+ videoId;
   "https://www.youtube.com/embed/" +:+ videoId;
   "https://www.youtube.com/shorts/" +:+ videoId].

End Urls.

(* ===================================================================== *)
(** ** Text, file-name and time helpers of [utils.js] *)
(* ===================================================================== *)

Module TextUtils.

Import Js.

(** [text.substring(0, n)] for an integer [n]: a negative [n] counts
    as 0. *)
Definition substring0 (n : Z) (text : string) : string :=
  take (Z.to_nat n) text.

(** [truncateText] *)
Definition truncateText (text : string) (maxLength : Z) : string :=
  if negb (nonempty text) || (Z.of_nat (String.length text) <=? maxLength)%Z
  then text
  else substring0 (maxLength - 3) text +:+ "...".

Definition code (c : ascii) : N := N_of_ascii c.

(** The characters removed from a file name: less-than, greater-than,
    colon, double quote, slash, backslash, bar, question mark and star. *)
Definition is_forbidden (c : ascii) : bool :=
  existsb (N.eqb (code c)) [60; 62; 58; 34; 47; 92; 124; 63; 42]%N.

(** [\s] among the code units 0..255: tab, line feed, vertical tab, form
    feed, carriage return, space and no-break space. *)
Definition is_space (c : ascii) : bool :=
  existsb (N.eqb (code c)) [9; 10; 11; 12; 13; 32; 160]%N.

(** The first replacement of [sanitizeFilename]: every forbidden
    character is removed. *)
Fixpoint remove_forbidden (s : string) : string :=
  match s with
  | EmptyString => EmptyString
  | String c rest =>
      if is_forbidden c then remove_forbidden rest
      else String c (remove_forbidden rest)
  end.

(** [s.replace(/\s+/g, '_')]: [in_run] tells that the character before
    was white space, already replaced. *)
Fixpoint collapse_spaces (in_run : bool) (s : string) : string :=
  match s with
  | EmptyString => EmptyString
  | String c rest =>
      if is_space c then
        if in_run then collapse_spaces true rest
        else String "_" (collapse_spaces true rest)
      else String c (collapse_spaces false rest)
  end.

(** [sanitizeFilename] *)
Definition sanitizeFilename (filename : string) : string :=
  substring0 100 (collapse_spaces false (remove_forbidden filename)).

(** A character that may occur in a sanitized name. *)
Definition is_safe (c : ascii) : bool := negb (is_forbidden c) && negb (is_space c).

(** *** Times *)

(** [n.toString().padStart(2, '0')] applied to the digits [s] *)
Definition padStart2 (s : string) : string :=
  match String.length s with
  | 0%nat => "00"
  | 1%nat => "0" +:+ s
  | _ => s
  end.

(** [formatTime]; [None] stands for an argument that is not a number or
    is NaN.  Seconds are whole numbers, in the range where the numbers of
    JavaScript are exact. *)
Definition formatTime (seconds : option Z) : string :=
  match seconds with
  | None => "0:00"
  | Some seconds =>
      let hours := (seconds / 3600)%Z in
      let minutes := (Z.rem seconds 3600 / 60)%Z in
      let secs := Z.rem seconds 60 in
      if (0 <? hours)%Z then
        pretty hours +:+ ":" +:+ padStart2 (pretty minutes) +:+ ":"
        +:+ padStart2 (pretty secs)
      else
        pretty minutes +:+ ":" +:+ padStart2 (pretty secs)
  end.

(** [s.split(sep)] for a one-character separator *)
Fixpoint split_on (sep : ascii) (s : string) : list string :=
  match s with
  | EmptyString => [EmptyString]
  | String c rest =>
      if Ascii.eqb c sep then EmptyString :: split_on sep rest
      else
        match split_on sep rest with
        | p :: ps => String c p :: ps
        | [] => [String c EmptyString]
        end
  end.

Definition is_digit (c : ascii) : bool :=
  (48 <=? code c)%N && (code c <=? 57)%N.

Fixpoint digits_value (acc : N) (s : string) : option N :=
  match s with
  | EmptyString => Some acc
  | String c rest =>
      if is_digit c then digits_value (10 * acc + (code c - 48))%N rest
      else None
  end.

(** [Number(s)] where [s] is empty (the value is 0) or a run of decimal
    digits.  [None] stands for every other string: its value (NaN, a
    fraction, a negative number, ...) is not computed here. *)
Definition to_number (s : string) : option Z :=
  option_map Z.of_N (digits_value 0 s).

(** [parseTime]; the result is [None] when a part that is used is not a
    run of digits. *)
Definition parseTime (timeStr : string) : option Z :=
  if negb (nonempty timeStr) then Some 0%Z
  else
    match map to_number (split_on ":" timeStr) with
    | [h; m; s] =>
        match h, m, s with
        | Some h, Some m, Some s => Some (h * 3600 + m * 60 + s)%Z
        | _, _, _ => None
        end
    | [m; s] =>
        match m, s with
        | Some m, Some s => Some (m * 60 + s)%Z
        | _, _ => None
        end
    | _ => Some 0%Z
    end.

End TextUtils.

(* ===================================================================== *)
(** ** The Whisper client of the extension ([api.js]) *)
(* ===================================================================== *)

Module Api.

Import Js.

Definition MAX_FILE_SIZE : Z := 25 * 1024 * 1024.
Definition MAX_RETRIES : Z := 3.
Definition INITIAL_RETRY_DELAY : Z := 1000.

Definition SUPPORTED_FORMATS : list string :=
  ["mp3"; "mp4"; "mpeg"; "mpga"; "m4a"; "wav"; "webm"; "ogg"].

(** [WhisperAPIError]: the code and the retryable flag; the message and
    the details are not modelled. *)
Record WhisperAPIError := mkError {
  code : string;
  retryable : bool
}.

(** A [File] or [Blob]: a blob has no name. *)
Record File := mkFile {
  file_name : option string;
  file_type : string;
  file_size : Z
}.

(** [c.toLowerCase()] on one code unit below 256. *)
Definition to_lower (c : ascii) : ascii :=
  let n := N_of_ascii c in
  if ((65 <=? n) && (n <=? 90))%N
     || ((192 <=? n) && (n <=? 222) && negb (n =? 215))%N
  then ascii_of_N (n + 32)
  else c.

Fixpoint toLowerCase (s : string) : string :=
  match s with
  | EmptyString => EmptyString
  | String c rest => String (to_lower c) (toLowerCase rest)
  end.

Definition mimeToExt : list (string * string) :=
  [("audio/mpeg", "mp3"); ("audio/mp3", "mp3"); ("audio/mp4", "m4a");
   ("audio/m4a", "m4a"); ("audio/wav", "wav"); ("audio/webm", "webm");
   ("audio/ogg", "ogg"); ("video/mp4", "mp4"); ("video/webm", "webm")].

(** [table[key]] for the own properties of [table]. *)
Fixpoint property (key : string) (table : list (string * string)) : option string :=
  match table with
  | [] => None
  | (k, v) :: rest => if String.eqb k key then Some v else property key rest
  end.

(** [getFileExtension].  The MIME type is looked up among the nine
    entries of the table only. *)
Definition getFileExtension (file : File) : string :=
  let by_type := or_else (property (file_type file) mimeToExt) "mp3" in
  match file_name file with
  | Some name =>
      if nonempty name then
        let parts := TextUtils.split_on "." name in
        if (1 <? length parts)%nat then toLowerCase (List.last parts "")
        else by_type
      else by_type
  | None => by_type
  end.

Definition includes_format (extension : string) : bool :=
  existsb (String.eqb extension) SUPPORTED_FORMATS.

(** [validateAudioFile]: the error thrown, if any. *)
Definition validateAudioFile (file : File) : option WhisperAPIError :=
  if (MAX_FILE_SIZE <? file_size file)%Z then Some (mkError "FILE_TOO_LARGE" false)
  else if (file_size file =? 0)%Z then Some (mkError "EMPTY_FILE" false)
  else if negb (includes_format (getFileExtension file))
       then Some (mkError "UNSUPPORTED_FORMAT" false)
  else None.

(** An error that is not a [WhisperAPIError];
    [is_fetch_type_error] is
    [error.name === 'TypeError' && error.message.includes('fetch')]. *)
Record JsError := mkJsError {
  is_fetch_type_error : bool;
  description : string
}.

(** What [parseResponse] does with an answer. *)
Inductive Parsed :=
| ParsedOk (text : string)
| ParsedThrows (e : JsError).

(** An answer of the API.  [resp_retry_after] is [None] without a
    [Retry-After] header (or with an empty one); otherwise it holds
    [parseInt] of the header, [None] standing for NaN. *)
Record Response := mkResponse {
  resp_ok : bool;
  resp_status : Z;
  resp_retry_after : option (option Z);
  resp_parsed : Parsed
}.

Inductive FetchOutcome :=
| Responded (r : Response)
| FetchThrows (e : JsError).

(** What the caller can observe from outside: the requests, the pauses
    (in milliseconds, [None] for NaN) and the calls of [onProgress],
    which is taken to return normally. *)
Inductive Effect :=
| Fetch (attempt : Z)
| Sleep (ms : option Z)
| Progress (status : string).

Inductive Raised :=
| RWhisper (e : WhisperAPIError)
| RJs (e : JsError).

Inductive Outcome :=
| Returned (text : string)
| Thrown (x : Raised)
| OutOfFuel.

(** The end of the [try] block of one attempt. *)
Inductive TryEnd :=
| TReturn (text : string)
| TContinue
| TRaise (x : Raised).

(** The end of the [catch] block. *)
Inductive CatchEnd :=
| CThrow (x : Raised)
| CContinue
| CFallThrough.

(** [INITIAL_RETRY_DELAY * Math.pow(2, attempt - 1)] *)
Definition backoff (attempt : Z) : Z := (INITIAL_RETRY_DELAY * 2 ^ (attempt - 1))%Z.

(** [retryAfter ? parseInt(retryAfter) * 1000 : INITIAL_RETRY_DELAY * attempt] *)
Definition waitTime (r : Response) (attempt : Z) : option Z :=
  match resp_retry_after r with
  | Some parsed => option_map (fun n => n * 1000)%Z parsed
  | None => Some (INITIAL_RETRY_DELAY * attempt)%Z
  end.

Section Loop.

(** [fetch(WHISPER_API_URL, ...)] at each attempt. *)
Variable fetch : Z -> FetchOutcome.

(** The [try] block of the loop body. *)
Definition request (attempt : Z) (log : list Effect) : TryEnd * list Effect :=
  let log := log ++ [Fetch attempt] in
  match fetch attempt with
  | FetchThrows e => (TRaise (RJs e), log)
  | Responded r =>
      if resp_ok r then
        let log := log ++ [Progress "processing"] in
        match resp_parsed r with
        | ParsedOk text => (TReturn text, log ++ [Progress "complete"])
        | ParsedThrows e => (TRaise (RJs e), log)
        end
      else if (resp_status r =? 401)%Z then
        (TRaise (RWhisper (mkError "INVALID_API_KEY" false)), log)
      else if (resp_status r =? 429)%Z then
        if (attempt <? MAX_RETRIES)%Z then
          (TContinue, log ++ [Progress "retrying"; Sleep (waitTime r attempt)])
        else (TRaise (RWhisper (mkError "RATE_LIMITED" true)), log)
      else if (resp_status r =? 413)%Z then
        (TRaise (RWhisper (mkError "FILE_TOO_LARGE" false)), log)
      else if (500 <=? resp_status r)%Z then
        if (attempt <? MAX_RETRIES)%Z then
          (TContinue, log ++ [Progress "retrying"; Sleep (Some (backoff attempt))])
        else (TRaise (RWhisper (mkError "SERVER_ERROR" true)), log)
      else (TRaise (RWhisper (mkError "API_ERROR" false)), log)
  end.

(** The [catch] block; the second component is [lastError]. *)
Definition recover (attempt : Z) (x : Raised) (lastError : option WhisperAPIError)
    (log : list Effect) : CatchEnd * option WhisperAPIError * list Effect :=
  match x with
  | RWhisper e =>
      if negb (retryable e) then (CThrow (RWhisper e), Some e, log)
      else (CFallThrough, Some e, log)
  | RJs e =>
      if is_fetch_type_error e then
        if (attempt <? MAX_RETRIES)%Z then
          (CContinue, Some (mkError "NETWORK_ERROR" true),
           log ++ [Progress "retrying"; Sleep (Some (backoff attempt))])
        else (CThrow (RWhisper (mkError "NETWORK_ERROR" true)), lastError, log)
      else (CThrow (RJs e), lastError, log)
  end.

(** [for (let attempt = 1; attempt <= MAX_RETRIES; attempt++) { ... }]
    and the [throw] after it. *)
Fixpoint attempts (fuel : nat) (attempt : Z) (lastError : option WhisperAPIError)
    (log : list Effect) : Outcome * list Effect :=
  match fuel with
  | O => (OutOfFuel, log)
  | S fuel =>
      if (attempt <=? MAX_RETRIES)%Z then
        match request attempt log with
        | (TReturn text, log) => (Returned text, log)
        | (TContinue, log) => attempts fuel (attempt + 1)%Z lastError log
        | (TRaise x, log) =>
            match recover attempt x lastError log with
            | (CThrow y, _, log) => (Thrown y, log)
            | (CContinue, lastError, log)
            | (CFallThrough, lastError, log) =>
                attempts fuel (attempt + 1)%Z lastError log
            end
        end
      else
        (Thrown (RWhisper (default (mkError "MAX_RETRIES_EXCEEDED" true) lastError)),
         log)
  end.

(** [transcribeAudio].  The form that is sent and the language are not
    modelled. *)
Definition transcribeAudio (audioFile : option File) (apiKey : option string)
    : Outcome * list Effect :=
  match audioFile with
  | None => (Thrown (RWhisper (mkError "NO_FILE" false)), [])
  | Some file =>
      if negb (truthy apiKey) then
        (Thrown (RWhisper (mkError "NO_API_KEY" false)), [])
      else
        match validateAudioFile file with
        | Some e => (Thrown (RWhisper e), [])
        | None =>
            attempts 4 1%Z None [Progress "preparing"; Progress "uploading"]
        end
  end.

End Loop.

(** The requests and pauses of a run, in order. *)
Definition traffic (log : list Effect) : list Effect :=
  List.filter (fun e => match e with Progress _ => false | _ => true end) log.

(** What an outcome reached at [attempt] tells: a result is the parsed
    body of an ok answer to that attempt; a retryable error is thrown
    at the last attempt only, and is never the one kept for a loop that
    ends without an error; a foreign error is not a failed fetch. *)
Definition conclusive (fetch : Z -> FetchOutcome) (attempt : Z) (out : Outcome) : Prop :=
  match out with
  | Returned text =>
      exists r, fetch attempt = Responded r /\ resp_ok r = true
                /\ resp_parsed r = ParsedOk text
  | Thrown (RWhisper e) =>
      code e <> "MAX_RETRIES_EXCEEDED"
      /\ (retryable e = true -> (MAX_RETRIES <= attempt)%Z)
  | Thrown (RJs e) => is_fetch_type_error e = false
  | OutOfFuel => False
  end.

(** The input passes every check made before the first request. *)
Definition sendable (audioFile : option File) (apiKey : option string) : Prop :=
  exists file,
    audioFile = Some file
    /\ truthy apiKey = true
    /\ (file_size file <= MAX_FILE_SIZE)%Z
    /\ file_size file <> 0%Z
    /\ In (getFileExtension file) SUPPORTED_FORMATS.

(** No answer carries a usable [Retry-After] header. *)
Definition no_retry_after (fetch : Z -> FetchOutcome) : Prop :=
  forall k r, fetch k = Responded r -> resp_retry_after r = None.

End Api.

(** A run of the Whisper client: the API is busy twice, then answers. *)
Module ApiSample.

Import Api.

Definition file : File := mkFile (Some "talk.MP3") "audio/mpeg" 1024.

Definition key : option string := Some "sk-test".

Definition fetch (attempt : Z) : FetchOutcome :=
  if (attempt <? 3)%Z then Responded (mkResponse false 503 None (ParsedOk ""))
  else Responded (mkResponse true 200 None (ParsedOk "hello there")).

End ApiSample.

(** More samples: requests that fail or run locally, and a Deepgram
    answer with word timings. *)
Module MoreSamples.

Import Backend Server.

Definition req_without_url : Request :=
  mkRequest None None (Some "sk-test") None None None.

Definition req_local : Request :=
  mkRequest (Some Sample.url) None None None None (Some "local").

Definition result : ResultData :=
  mkResultData "dQw4w9WgXcQ" "A title" "A channel" 600
    "hello there" "en" [mkSegment 0 (5 # 2) "hello there"] "api" "openai".

Definition progress : list Event :=
  [EvInfo "Fetching video info...";
   EvInfo "Downloading audio from YouTube...";
   EvInfo "Transcribing with OpenAI Whisper...";
   EvInfo "Finalizing..."].

Definition alternative : Alternative :=
  mkAlternative "So, here we go. Again and again."
    (Some [mkWord 0 "so" (Some "So,"); mkWord 2 "here" None;
           mkWord (49 # 10) "we" None; mkWord 5 "go" (Some "go.");
           mkWord 7 "again" (Some "Again"); mkWord (121 # 10) "and" None]).

End MoreSamples.

(* ===================================================================== *)
(** ** The reader of the event stream ([sidepanel.js]) *)
(* ===================================================================== *)

Module Sse.

Import Js.

Definition is_lf (c : ascii) : bool := Ascii.eqb c "010".

(** [c] is put in front of the first part. *)
Definition cons_head (c : ascii) (parts : list string) : list string :=
  match parts with
  | p :: ps => String c p :: ps
  | [] => [String c EmptyString]
  end.

(** [s.split('\n\n')]: the separators are found from the left and do not
    overlap; the result is never empty. *)
Fixpoint split_blank (s : string) : list string :=
  match s with
  | EmptyString => [EmptyString]
  | String c rest =>
      match rest with
      | String c2 rest2 =>
          if is_lf c && is_lf c2 then EmptyString :: split_blank rest2
          else cons_head c (split_blank rest)
      | EmptyString => cons_head c (split_blank rest)
      end
  end.

(** What the client reads in a parsed message: its [status] and the field
    that goes with it.  [MNull] is the JSON value [null], [MOther] any
    other value. *)
Inductive Message (D : Type) :=
| MInfo (message : string)
| MComplete (data : option D)
| MError (error : string)
| MOther
| MNull.

Arguments MInfo {D} message.
Arguments MComplete {D} data.
Arguments MError {D} error.
Arguments MOther {D}.
Arguments MNull {D}.

Inductive Failure :=
| ErrorMessage (message : string)
| TypeError.

(** The statuses shown so far and [finalResult]; a falsy [data.data] is
    [None]. *)
Record Client (D : Type) := mkClient {
  shown : list string;
  finalResult : option D
}.

Arguments mkClient {D} shown finalResult.
Arguments shown {D} c.
Arguments finalResult {D} c.

Inductive Outcome (D : Type) :=
| Success (statuses : list string) (result : D)
| Failed (statuses : list string) (e : Failure).

Arguments Success {D} statuses result.
Arguments Failed {D} statuses e.

Section Reader.

Context {D : Type}.

(** [JSON.parse] followed by the reads of [status], [message], [data] and
    [error]; [None] is a [SyntaxError]. *)
Variable parse : string -> option (Message D).

(** The body of [for (const line of lines)]: the client after the line,
    or the error that leaves the loop. *)
Definition handle_line (line : string) (c : Client D) : Client D + Outcome D :=
  match strip_prefix "data: " line with
  | Some payload =>
      match parse payload with
      | None => inl c
      | Some (MInfo message) => inl (mkClient (shown c ++ [message]) (finalResult c))
      | Some (MComplete data) => inl (mkClient (shown c) data)
      | Some (MError error) => inr (Failed (shown c) (ErrorMessage error))
      | Some MOther => inl c
      | Some MNull => inr (Failed (shown c) TypeError)
      end
  | None => inl c
  end.

Fixpoint handle_lines (lines : list string) (c : Client D) : Client D + Outcome D :=
  match lines with
  | [] => inl c
  | line :: rest =>
      match handle_line line c with
      | inl c => handle_lines rest c
      | inr failed => inr failed
      end
  end.

(** After the stream has ended. *)
Definition finish (c : Client D) : Outcome D :=
  match finalResult c with
  | Some result => Success (shown c) result
  | None =>
      Failed (shown c) (ErrorMessage "Stream ended without completion data")
  end.

(** The [while (true)] loop over the chunks that [reader.read()] gives,
    already decoded, until the stream is done. *)
Fixpoint read_chunks (chunks : list string) (buffer : string) (c : Client D)
    : Outcome D :=
  match chunks with
  | [] => finish c
  | value :: chunks =>
      let buffer := buffer +:+ value in
      let lines := split_blank buffer in
      let buffer := List.last lines EmptyString in
      match handle_lines (removelast lines) c with
      | inl c => read_chunks chunks buffer c
      | inr failed => failed
      end
  end.

(** The stream part of [transcribeViaBackend], after the status
    [Connecting to transcription server...] and an ok response. *)
Definition read_stream (chunks : list string) : Outcome D :=
  read_chunks chunks EmptyString
              (mkClient ["Connecting to transcription server..."] None).

End Reader.

(** The whole text of a stream. *)
Definition stream_text (chunks : list string) : string :=
  fold_right String.append EmptyString chunks.

End Sse.

(* ===================================================================== *)
(** ** The event stream from the server to the extension *)
(* ===================================================================== *)

Module Wire.

Import Js Server Sse.

(** What the client reads in the event [e] once parsed. *)
Definition message_of (e : Event) : Message ResultData :=
  match e with
  | EvInfo message => MInfo message
  | EvError error => MError error
  | EvComplete data => MComplete (Some data)
  end.

Definition blank_line : string := String "010" (String "010" EmptyString).

Section Codec.

(** [JSON.stringify] on the server, and [JSON.parse] with the reads of
    the client on the extension side. *)
Variable json : Event -> string.
Variable parse : string -> option (Message ResultData).

(** [`data: ${JSON.stringify(data)}\n\n`] *)
Definition block (e : Event) : string := "data: " +:+ json e +:+ blank_line.

(** Everything [sendEvent] has written for [evs]. *)
Definition written (evs : list Event) : string :=
  stream_text (map block evs).

(** The encoding of [e] is on one line and is parsed back to [e]. *)
Definition carried (e : Event) : Prop :=
  all_chars (fun c => negb (is_lf c)) (json e) = true
  /\ parse (json e) = Some (message_of e).

End Codec.

End Wire.

(** A toy encoding of the events of the sample run, and that run cut
    into chunks in the middle of a blank line. *)
Module WireSample.

Import Server Sse Wire.

Definition json (e : Event) : string :=
  match e with
  | EvInfo message => "i" +:+ message
  | EvError error => "e" +:+ error
  | EvComplete data => "c" +:+ rd_videoId data
  end.

Definition parse (s : string) : option (Message ResultData) :=
  match s with
  | String "i" message => Some (MInfo message)
  | String "e" error => Some (MError error)
  | String "c" _ => Some (MComplete (Some MoreSamples.result))
  | _ => None
  end.

Definition text : string :=
  written json (MoreSamples.progress ++ [EvComplete MoreSamples.result]).

Definition chunks : list string :=
  [String.substring 0 30 text; String.substring 30 41 text;
   String.substring 71 (String.length text - 71) text].

End WireSample.

(* ===================================================================== *)
(** * Properties *)
(* ===================================================================== *)

(** ** Strings *)

Section StringFacts.

Import Js.

Lemma nonempty_app_l (a b : string) :
  nonempty a = true -> nonempty (a +:+ b) = true.
Proof. destruct a; simpl; [discriminate | reflexivity]. Qed.

Lemma nonempty_app_r (a b : string) :
  nonempty b = true -> nonempty (a +:+ b) = true.
Proof. destruct a; simpl; [intros H; exact H | reflexivity]. Qed.

Lemma append_assoc (a b c : string) : (a +:+ b) +:+ c = a +:+ (b +:+ c).
Proof.
  induction a as [|x a IH]; [reflexivity|].
  change (String x ((a +:+ b) +:+ c) = String x (a +:+ (b +:+ c))).
  now rewrite IH.
Qed.

Lemma strip_prefix_app (lit s : string) :
  strip_prefix lit (lit +:+ s) = Some s.
Proof.
  induction lit as [|c lit IH]; simpl; [reflexivity|].
  rewrite Ascii.eqb_refl. exact IH.
Qed.

Lemma take_length (n : nat) (s : string) :
  (n <= String.length s)%nat -> String.length (take n s) = n.
Proof.
  revert s; induction n as [|n IH]; intros [|c s] H; simpl in *;
    try reflexivity; try lia.
  rewrite IH; [reflexivity | lia].
Qed.

End StringFacts.

(** ** Video identifiers *)

Section VideoIdFacts.

Import Js VideoId.

Lemma take_id_valid (n : nat) :
  forall s id, take_id n s = Some id ->
    String.length id = n /\ all_chars is_id_char id = true.
Proof.
  induction n as [|n IH]; intros s id H; simpl in H.
  - inversion H; subst; split; reflexivity.
  - destruct s as [|c s]; [discriminate|].
    destruct (is_id_char c) eqn:Hc; [|discriminate].
    destruct (take_id n s) as [id'|] eqn:Hid; [|discriminate].
    simpl in H; inversion H; subst; clear H.
    destruct (IH _ _ Hid) as [Hlen Hall].
    split; simpl; [now rewrite Hlen | now rewrite Hc, Hall].
Qed.

(** On a long enough run of identifier characters the group is the
    first [n] of them. *)
Lemma take_id_run (n : nat) :
  forall s, all_chars is_id_char s = true -> (n <= String.length s)%nat ->
    take_id n s = Some (take n s).
Proof.
  induction n as [|n IH]; intros s Hall Hlen; simpl.
  - destruct s; reflexivity.
  - destruct s as [|c s]; simpl in *; [lia|].
    apply andb_true_iff in Hall as [Hc Hall].
    rewrite Hc, IH; [reflexivity | exact Hall | lia].
Qed.

Lemma dot_star_some {A} (k : string -> option A) :
  forall s r, dot_star k s = Some r -> exists t, k t = Some r.
Proof.
  induction s as [|c s IH]; intros r H; simpl in H.
  - eauto.
  - destruct (is_line_terminator c); [eauto|].
    destruct (dot_star k s) as [r'|] eqn:Hd.
    + inversion H; subst. eauto.
    + eauto.
Qed.

Lemma v_eq_id_valid s id : v_eq_id s = Some id -> valid_id id.
Proof.
  unfold v_eq_id. destruct (strip_prefix "v=" s); [|discriminate].
  apply take_id_valid.
Qed.

Lemma alt_lit_valid lit s id : alt_lit lit s = Some id -> valid_id id.
Proof.
  unfold alt_lit. destruct (strip_prefix lit s); [|discriminate].
  apply take_id_valid.
Qed.

Lemma alt_watch_valid s id : alt_watch s = Some id -> valid_id id.
Proof.
  unfold alt_watch. destruct (strip_prefix _ s); [|discriminate].
  intros H. apply dot_star_some in H as [t Ht]. eapply v_eq_id_valid; eauto.
Qed.

Lemma match_here_valid s id : match_here s = Some id -> valid_id id.
Proof.
  unfold match_here; simpl.
  destruct (alt_watch s) eqn:H1;
    [intros H; inversion H; subst; eapply alt_watch_valid; eauto|].
  destruct (alt_lit "youtu.be/" s) eqn:H2;
    [intros H; inversion H; subst; eapply alt_lit_valid; eauto|].
  destruct (alt_lit "youtube.com/embed/" s) eqn:H3;
    [intros H; inversion H; subst; eapply alt_lit_valid; eauto|].
  destruct (alt_lit "youtube.com/shorts/" s) eqn:H4;
    [intros H; inversion H; subst; eapply alt_lit_valid; eauto|].
  discriminate.
Qed.

Lemma regex_group1_valid s id : regex_group1 s = Some id -> valid_id id.
Proof.
  induction s as [|c s IH]; simpl.
  - discriminate.
  - destruct (match_here (String c s)) eqn:Hm.
    + intros H; inversion H; subst. eapply match_here_valid; eauto.
    + exact IH.
Qed.

Lemma valid_id_nonempty id : valid_id id -> nonempty id = true.
Proof. intros [Hlen _]. destruct id; [discriminate | reflexivity]. Qed.

Lemma extractVideoId_regex url : extractVideoId url = regex_group1 url.
Proof.
  unfold extractVideoId, patterns; simpl.
  destruct (regex_group1 url) as [g|] eqn:Hg; [|reflexivity].
  now rewrite (valid_id_nonempty g (regex_group1_valid _ _ Hg)).
Qed.

(** No [v=] followed by an identifier starts inside a run of identifier
    characters: [=] is not one of them. *)
Lemma strip_v_eq s rest :
  strip_prefix "v=" s = Some rest -> s = String "v" (String "=" rest).
Proof.
  destruct s as [|c [|d s]]; cbn [strip_prefix]; try discriminate.
  - destruct (Ascii.eqb_spec "v" c); discriminate.
  - destruct (Ascii.eqb_spec "v" c); [|discriminate].
    destruct (Ascii.eqb_spec "=" d); [|discriminate].
    intros H; inversion H; subst; reflexivity.
Qed.

Lemma v_eq_id_in_run s : all_chars is_id_char s = true -> v_eq_id s = None.
Proof.
  intros H. unfold v_eq_id.
  destruct (strip_prefix "v=" s) as [rest|] eqn:E; [|reflexivity].
  apply strip_v_eq in E; subst s. cbn [all_chars] in H.
  apply andb_true_iff in H as [_ H]. apply andb_true_iff in H as [H _].
  vm_compute in H. discriminate.
Qed.

Lemma dot_star_in_run s :
  all_chars is_id_char s = true -> dot_star v_eq_id s = None.
Proof.
  induction s as [|c s IH]; intros H.
  - reflexivity.
  - cbn [dot_star]. pose proof (v_eq_id_in_run _ H) as Hk.
    cbn [all_chars] in H. apply andb_true_iff in H as [_ H].
    rewrite (IH H), Hk. destruct (is_line_terminator c); reflexivity.
Qed.

Lemma alt_watch_run tail :
  all_chars is_id_char tail = true -> (11 <= String.length tail)%nat ->
  alt_watch ("youtube.com/watch?v=" +:+ tail) = Some (take 11 tail).
Proof.
  intros Hall Hlen.
  change ("youtube.com/watch?v=" +:+ tail)
    with ("youtube.com/watch?" +:+ String "v" (String "=" tail)).
  unfold alt_watch. rewrite strip_prefix_app.
  cbn [dot_star]. rewrite (dot_star_in_run _ Hall).
  change (is_line_terminator "v") with false.
  change (is_line_terminator "=") with false. cbv iota.
  change (v_eq_id (String "=" tail)) with (@None string).
  change (v_eq_id (String "v" (String "=" tail))) with (take_id 11 tail).
  now apply take_id_run.
Qed.

Lemma match_here_run prefix tail :
  In prefix recognized_prefixes ->
  all_chars is_id_char tail = true -> (11 <= String.length tail)%nat ->
  match_here (prefix +:+ tail) = Some (take 11 tail).
Proof.
  intros Hin Hall Hlen. unfold match_here.
  simpl in Hin. destruct Hin as [<-|[<-|[<-|[<-|[]]]]].
  - cbn [first_some]. now rewrite alt_watch_run.
  - cbn [first_some map literal_prefixes].
    change (alt_watch ("youtu.be/" +:+ tail)) with (@None string).
    unfold alt_lit. rewrite strip_prefix_app.
    now rewrite (take_id_run 11 tail Hall Hlen).
  - cbn [first_some map literal_prefixes].
    change (alt_watch ("youtube.com/embed/" +:+ tail)) with (@None string).
    change (alt_lit "youtu.be/" ("youtube.com/embed/" +:+ tail))
      with (@None string).
    unfold alt_lit. rewrite strip_prefix_app.
    now rewrite (take_id_run 11 tail Hall Hlen).
  - cbn [first_some map literal_prefixes].
    change (alt_watch ("youtube.com/shorts/" +:+ tail)) with (@None string).
    change (alt_lit "youtu.be/" ("youtube.com/shorts/" +:+ tail))
      with (@None string).
    change (alt_lit "youtube.com/embed/" ("youtube.com/shorts/" +:+ tail))
      with (@None string).
    unfold alt_lit. rewrite strip_prefix_app.
    now rewrite (take_id_run 11 tail Hall Hlen).
Qed.

Lemma regex_group1_here s g : match_here s = Some g -> regex_group1 s = Some g.
Proof. intros H. destruct s; cbn [regex_group1]; now rewrite H. Qed.

Lemma match_here_other_letter c s :
  Ascii.eqb "y" c = false -> match_here (String c s) = None.
Proof.
  intros H. unfold match_here. cbn [first_some map literal_prefixes].
  unfold alt_watch, alt_lit. cbn [strip_prefix]. now rewrite H.
Qed.

Lemma regex_group1_skip lead s :
  plain_lead lead = true -> regex_group1 (lead +:+ s) = regex_group1 s.
Proof.
  unfold plain_lead. induction lead as [|c lead IH]; intros H; [reflexivity|].
  cbn [all_chars] in H. apply andb_true_iff in H as [Hc H].
  apply negb_true_iff in Hc.
  change (String c lead +:+ s) with (String c (lead +:+ s)).
  cbn [regex_group1]. rewrite (match_here_other_letter _ _ Hc). now apply IH.
Qed.

Lemma extractVideoIdFromUrl_same url :
  extractVideoIdFromUrl url = extractVideoId url.
Proof. destruct url; reflexivity. Qed.

(** C9. Both extractors agree; what they return is [null] or eleven
    characters of [[A-Za-z0-9_-]]; and since nothing in the pattern
    follows the identifier, a URL in which a recognized prefix is followed
    by a longer run of such characters is not turned down: the first
    eleven of them are returned. *)
Theorem extractVideoId_shape :
  (forall url,
      (extractVideoId url = None
       \/ exists id, extractVideoId url = Some id /\ valid_id id)
      /\ extractVideoIdFromUrl url = extractVideoId url)
  /\ (forall lead prefix tail,
        plain_lead lead = true ->
        In prefix recognized_prefixes ->
        all_chars is_id_char tail = true ->
        (11 < String.length tail)%nat ->
        extractVideoId (lead +:+ prefix +:+ tail) = Some (take 11 tail)
        /\ extractVideoIdFromUrl (lead +:+ prefix +:+ tail) = Some (take 11 tail)).
Proof.
  split.
  - intros url. split; [|apply extractVideoIdFromUrl_same].
    rewrite extractVideoId_regex.
    destruct (regex_group1 url) as [id|] eqn:H; [right|left; reflexivity].
    exists id. split; [reflexivity|]. eapply regex_group1_valid; eauto.
  - intros lead prefix tail Hlead Hin Hall Hlen.
    rewrite extractVideoIdFromUrl_same, extractVideoId_regex.
    rewrite (regex_group1_skip _ _ Hlead).
    split; apply regex_group1_here, match_here_run; auto; lia.
Qed.

Lemma extractVideoId_shape_witness :
  extractVideoId ("https://www." +:+ "youtube.com/watch?v=" +:+ "dQw4w9WgXcQ_and_more")
  = Some "dQw4w9WgXcQ".
Proof.
  apply (proj2 extractVideoId_shape
           "https://www." "youtube.com/watch?v=" "dQw4w9WgXcQ_and_more").
  - reflexivity.
  - left; reflexivity.
  - reflexivity.
  - simpl; lia.
Defined.

End VideoIdFacts.

(** ** Backends *)

Section BackendFacts.

Import Js Backend.

Lemma forwarded_absent language :
  language = None \/ language = Some "auto" -> forwarded language = None.
Proof. intros [->| ->]; reflexivity. Qed.

Lemma forwarded_other l :
  l <> "" -> l <> "auto" -> forwarded (Some l) = Some l.
Proof.
  intros Hne Hauto. unfold forwarded.
  destruct l as [|c l]; [congruence|]. cbn [nonempty andb].
  destruct (String.eqb_spec (String c l) "auto"); [congruence | reflexivity].
Qed.

(** C5. The Nova-2 allow-list decides the Deepgram model. *)
Theorem deepgram_model_selection :
  (forall l, l ∈ DEEPGRAM_NOVA2_LANGUAGES -> deepgram_model (Some l) = "nova-2")
  /\ (forall l, l <> "" -> l <> "auto" -> l ∉ DEEPGRAM_NOVA2_LANGUAGES ->
        deepgram_model (Some l) = "whisper-large")
  /\ deepgram_model None = "nova-2"
  /\ deepgram_model (Some "auto") = "nova-2".
Proof.
  repeat split.
  - intros l Hin. unfold deepgram_model, useWhisper.
    rewrite (bool_decide_eq_true_2 _ Hin).
    now rewrite andb_false_r.
  - intros l Hne Hauto Hout. unfold deepgram_model, useWhisper.
    rewrite (bool_decide_eq_false_2 _ Hout).
    destruct l as [|c l]; [congruence|]. cbn [nonempty andb negb].
    destruct (String.eqb_spec (String c l) "auto"); [congruence | reflexivity].
Qed.

Lemma deepgram_model_selection_witness :
  deepgram_model (Some "en-GB") = "nova-2"
  /\ deepgram_model (Some "ur") = "whisper-large".
Proof.
  split.
  - apply (proj1 deepgram_model_selection "en-GB"). vm_compute. reflexivity.
  - apply (proj1 (proj2 deepgram_model_selection) "ur").
    + discriminate.
    + discriminate.
    + vm_compute. discriminate.
Defined.

(** C6. With no language or with ['auto'] no backend passes a language
    on: the recognizer gets no [--language] argument, the form no
    [language] field, the Deepgram URL no [language] parameter.  Any
    other non-empty value is passed on by all three. *)
Theorem auto_language_is_not_forwarded :
  (forall language audioPath model outputDir baseName,
      language = None \/ language = Some "auto" ->
      local_args audioPath model outputDir language
        = [audioPath; "--model"; model; "--output_format"; "json";
           "--output_dir"; outputDir]
      /\ form_has "language" (api_form audioPath baseName language) = false
      /\ deepgram_url language
         = DEEPGRAM_API_URL +:+ "?model=nova-2&smart_format=true&diarize=false")
  /\ (forall l audioPath model outputDir baseName,
        l <> "" -> l <> "auto" ->
        local_args audioPath model outputDir (Some l)
          = [audioPath; "--model"; model; "--output_format"; "json";
             "--output_dir"; outputDir; "--language"; l]
        /\ In ("language", Text l) (api_form audioPath baseName (Some l))
        /\ deepgram_url (Some l)
           = (DEEPGRAM_API_URL +:+ "?model=" +:+ deepgram_model (Some l)
              +:+ "&smart_format=true&diarize=false") +:+ "&language=" +:+ l).
Proof.
  split.
  - intros language audioPath model outputDir baseName H.
    unfold local_args, api_form, deepgram_url.
    rewrite (forwarded_absent _ H).
    destruct H as [->| ->]; repeat split; reflexivity.
  - intros l audioPath model outputDir baseName Hne Hauto.
    unfold local_args, api_form, deepgram_url.
    rewrite (forwarded_other _ Hne Hauto).
    repeat split.
    apply in_or_app. right. left. reflexivity.
Qed.

Lemma auto_language_is_not_forwarded_witness :
  local_args "/tmp/a.mp3" "base" "/tmp" (Some "auto")
    = ["/tmp/a.mp3"; "--model"; "base"; "--output_format"; "json";
       "--output_dir"; "/tmp"]
  /\ local_args "/tmp/a.mp3" "base" "/tmp" (Some "fr")
     = ["/tmp/a.mp3"; "--model"; "base"; "--output_format"; "json";
        "--output_dir"; "/tmp"; "--language"; "fr"].
Proof.
  split.
  - apply (proj1 auto_language_is_not_forwarded
             (Some "auto") "/tmp/a.mp3" "base" "/tmp" "a.mp3").
    right; reflexivity.
  - apply (proj2 auto_language_is_not_forwarded
             "fr" "/tmp/a.mp3" "base" "/tmp" "a.mp3"); discriminate.
Defined.

Lemma word_step_same segments cur w :
  Qle_bool (seg_end cur) (w_start w) = false ->
  word_step (segments, cur) w
    = (segments,
       mkSegment (seg_start cur) (seg_end cur)
                 (add_word (seg_text cur) (content w))).
Proof. intros H. unfold word_step. now rewrite H. Qed.

Lemma word_step_new segments cur w :
  Qle_bool (seg_end cur) (w_start w) = true ->
  word_step (segments, cur) w
    = (push_if_text segments cur,
       let newStart :=
         (inject_Z (Qfloor (w_start w / SEGMENT_DURATION)) * SEGMENT_DURATION)%Q in
       mkSegment newStart (newStart + SEGMENT_DURATION)%Q (content w)).
Proof. intros H. unfold word_step. now rewrite H. Qed.

Lemma content_at_time t w : content (at_time t w) = content w.
Proof. reflexivity. Qed.

Lemma add_word_empty c : add_word "" c = c.
Proof. reflexivity. Qed.

Lemma add_word_text text c :
  nonempty text = true -> add_word text c = text +:+ " " +:+ c.
Proof. intros H. unfold add_word. now rewrite H. Qed.

Lemma push_if_text_nonempty segments cur :
  nonempty (seg_text cur) = true -> push_if_text segments cur = segments ++ [cur].
Proof. intros H. unfold push_if_text. now rewrite H. Qed.

(** C2. Words starting at 0, 2, 4.9, 5.0, 7 and 12.1 seconds give the
    three segments [0,5), [5,10) and [10,15), holding the first three
    words, the next two and the last one, each text being its words
    joined by single spaces; the word starting at exactly 5.0 opens the
    second segment. *)
Theorem deepgram_segments_example (w0 w1 w2 w3 w4 w5 : Word) (transcript : string) :
  Forall (fun w => nonempty (content w) = true) [w0; w1; w2; w3; w4; w5] ->
  synthesize
    (mkAlternative transcript
       (Some (zip_with at_time example_starts [w0; w1; w2; w3; w4; w5])))
  = [mkSegment 0 5 (join " " [content w0; content w1; content w2]);
     mkSegment 5 10 (join " " [content w3; content w4]);
     mkSegment 10 15 (join " " [content w5])].
Proof.
  intros H.
  repeat match goal with
         | H : Forall _ (_ :: _) |- _ =>
             let Hh := fresh "Hw" in
             apply Forall_cons in H as [Hh H]
         end.
  unfold synthesize, example_starts.
  cbn [zip_with alt_words default from_option id fold_left].
  rewrite word_step_same by reflexivity.
  rewrite word_step_same by reflexivity.
  rewrite word_step_same by reflexivity.
  rewrite word_step_new by reflexivity.
  rewrite word_step_same by reflexivity.
  rewrite word_step_new by reflexivity.
  cbn [seg_start seg_end seg_text]. rewrite !content_at_time.
  rewrite add_word_empty.
  rewrite (add_word_text (content w0)) by assumption.
  rewrite (add_word_text (content w0 +:+ _)) by now apply nonempty_app_l.
  rewrite (add_word_text (content w3)) by assumption.
  rewrite !push_if_text_nonempty;
    cbn [seg_text]; try assumption; try (now repeat apply nonempty_app_l).
  cbn [join app]. now rewrite !append_assoc.
Qed.

Lemma deepgram_segments_example_witness :
  synthesize
    (mkAlternative "So, here we go. Again and again."
       (Some [mkWord 0 "so" (Some "So,"); mkWord 2 "here" None;
              mkWord (49 # 10) "we" None; mkWord 5 "go" (Some "go.");
              mkWord 7 "again" (Some "Again"); mkWord (121 # 10) "and" None]))
  = [mkSegment 0 5 "So, here we"; mkSegment 5 10 "go. Again";
     mkSegment 10 15 "and"].
Proof.
  apply (deepgram_segments_example
           (mkWord 0 "so" (Some "So,")) (mkWord 0 "here" None)
           (mkWord 0 "we" None) (mkWord 0 "go" (Some "go."))
           (mkWord 0 "again" (Some "Again")) (mkWord 0 "and" None)).
  repeat constructor.
Defined.

End BackendFacts.

(** ** The [/transcribe] handler *)

Section HandlerFacts.

Import Js Backend Server.

Lemma quiet_refl base : quiet base base.
Proof. exists []. now rewrite app_nil_r. Qed.

Lemma quiet_info base evs m : quiet base evs -> quiet base (evs ++ [EvInfo m]).
Proof.
  intros (infos & -> & Hall). exists (infos ++ [EvInfo m]). split.
  - now rewrite app_assoc.
  - rewrite forallb_app, Hall. reflexivity.
Qed.

Lemma closed_error base evs e : quiet base evs -> closed base (evs ++ [EvError e]).
Proof.
  intros (infos & -> & Hall). exists infos, (EvError e).
  now rewrite app_assoc.
Qed.

Lemma closed_complete base evs d :
  quiet base evs -> closed base (evs ++ [EvComplete d]).
Proof.
  intros (infos & -> & Hall). exists infos, (EvComplete d).
  now rewrite app_assoc.
Qed.

Lemma nonempty_path_join dir name : nonempty (path_join dir name) = true.
Proof. unfold path_join. apply nonempty_app_r. reflexivity. Qed.

End HandlerFacts.

Create HintDb stream.
#[local] Hint Resolve quiet_refl quiet_info closed_error closed_complete : stream.

(** Runs the handler symbolically: unfolds the sequencing and splits on
    every test the code makes. *)
Ltac run_handler :=
  repeat first
    [ progress unfold Server.bind, Server.ret, Server.return_, Server.throw,
                      Server.await, Server.sendEvent, Server.res_end,
                      Server.downloadAudio, Server.transcribeLocal,
                      Server.transcribeAPI, Server.transcribeDeepgram,
                      Server.cleanup
    | progress cbv beta iota zeta
    | progress cbn [Server.with_events Server.with_ended Server.with_files
                    Server.with_unlinks Server.with_downloads
                    Server.with_audioPath
                    Server.events Server.ended Server.files Server.unlinks
                    Server.downloads Server.audioPath fst snd]
    | match goal with
      | |- context [match ?x with _ => _ end] =>
          lazymatch x with
          | context [match _ with _ => _ end] => fail
          | _ => destruct x eqn:?
          end
      end ].

Section HandlerTheorems.

Import Js Backend Server.

Variables (cfg : Config) (env : Env) (req : Request).

Lemma try_catch_stream st :
  closed (events st) (events (try_catch cfg env req st))
  /\ ended (try_catch cfg env req st) = true.
Proof.
  unfold try_catch, try_block, catch_block.
  run_handler.
  all: split; [auto 10 with stream | reflexivity].
Qed.

Lemma finally_block_frame st :
  events (snd (finally_block st)) = events st
  /\ ended (snd (finally_block st)) = ended st
  /\ files (snd (finally_block st)) = files st
  /\ downloads (snd (finally_block st)) = downloads st
  /\ audioPath (snd (finally_block st)) = audioPath st.
Proof. unfold finally_block. run_handler. all: repeat split. Qed.

(** C4. One run writes progress messages and then exactly one terminal
    event, an error or the result, after which nothing is written and
    the stream is ended. *)
Theorem exactly_one_terminal_event st :
  let st' := transcribe_handler cfg env req st in
  (exists infos t,
      events st' = events st ++ infos ++ [t]
      /\ forallb is_info infos = true
      /\ is_terminal t = true)
  /\ ended st' = true.
Proof.
  cbv zeta. unfold transcribe_handler.
  destruct (finally_block_frame (try_catch cfg env req st))
    as (-> & -> & _).
  apply try_catch_stream.
Qed.

(** *** Limits *)

Section Resolved.

Variables (url videoId : string) (info : VideoInfo).
Hypothesis Hurl : truthy_value (body_url req) = Some url.
Hypothesis Hkey : api_key_missing cfg req = false.
Hypothesis Hid : VideoId.extractVideoId url = Some videoId.
Hypothesis Hinfo : getVideoInfo env url = Resolved info.

Lemma rejected_before_download st :
  (MAX_DURATION_SECONDS < vi_duration info)%Z \/ vi_isLive info = true ->
  let st' := transcribe_handler cfg env req st in
  (exists error,
      events st' = events st ++ [EvInfo "Fetching video info..."; EvError error])
  /\ ended st' = true
  /\ downloads st' = downloads st
  /\ audioPath st' = None.
Proof.
  intros Hlimit. cbv zeta. unfold transcribe_handler.
  destruct (finally_block_frame (try_catch cfg env req st))
    as (-> & -> & _ & -> & ->).
  unfold try_catch, try_block. cbv zeta.
  unfold api_key_missing in Hkey. rewrite Hurl, Hkey, Hid, Hinfo.
  run_handler.
  all: try (destruct Hlimit as [Hlt | Hlive];
            [apply Z.ltb_lt in Hlt|]; congruence).
  all: rewrite <- app_assoc; repeat split; eexists; reflexivity.
Qed.

Lemma accepted_reaches_download st :
  (vi_duration info <= MAX_DURATION_SECONDS)%Z -> vi_isLive info = false ->
  let st' := transcribe_handler cfg env req st in
  downloads st'
    = downloads st ++ [(url, path_join (TEMP_DIR cfg) (randomUUID env))]
  /\ audioPath st' = Some (path_join (TEMP_DIR cfg) (randomUUID env)).
Proof.
  intros Hle Hlive. cbv zeta. unfold transcribe_handler.
  destruct (finally_block_frame (try_catch cfg env req st))
    as (_ & _ & _ & -> & ->).
  unfold try_catch, try_block. cbv zeta.
  unfold api_key_missing in Hkey. rewrite Hurl, Hkey, Hid, Hinfo.
  apply Z.ltb_ge in Hle.
  run_handler.
  all: try congruence.
  all: split; reflexivity.
Qed.

End Resolved.

(** C3. Once the video is resolved, a duration above the ceiling of
    10800 seconds or the live flag ends the stream with an error event
    and no download is started; a duration of at most the ceiling, and
    so exactly the ceiling, with the live flag off goes on to the
    download. *)
Theorem limits_checked_before_download (url videoId : string)
    (info : VideoInfo) (st : State) :
  truthy_value (body_url req) = Some url ->
  api_key_missing cfg req = false ->
  VideoId.extractVideoId url = Some videoId ->
  getVideoInfo env url = Resolved info ->
  let st' := transcribe_handler cfg env req st in
  MAX_DURATION_SECONDS = 10800%Z
  /\ ((MAX_DURATION_SECONDS < vi_duration info)%Z \/ vi_isLive info = true ->
      (exists error,
          events st' = events st ++ [EvInfo "Fetching video info..."; EvError error])
      /\ ended st' = true
      /\ downloads st' = downloads st)
  /\ ((vi_duration info <= MAX_DURATION_SECONDS)%Z -> vi_isLive info = false ->
      downloads st'
        = downloads st ++ [(url, path_join (TEMP_DIR cfg) (randomUUID env))]).
Proof.
  intros Hurl Hkey Hid Hinfo. cbv zeta. split; [reflexivity|]. split.
  - intros Hlimit.
    destruct (rejected_before_download url videoId info Hurl Hkey Hid Hinfo
                st Hlimit) as (He & Hend & Hd & _).
    repeat split; assumption.
  - intros Hle Hlive.
    apply (accepted_reaches_download url videoId info Hurl Hkey Hid Hinfo
             st Hle Hlive).
Qed.

(** *** Cleanup *)

Lemma try_catch_audioPath st :
  audioPath (try_catch cfg env req st) = None
  \/ audioPath (try_catch cfg env req st)
     = Some (path_join (TEMP_DIR cfg) (randomUUID env)).
Proof.
  unfold try_catch, try_block, catch_block.
  run_handler.
  all: auto.
Qed.

Lemma cleanup_spec (q : string) (st : State) :
  nonempty q = true ->
  fst (cleanup q st) = Normal tt
  /\ files (snd (cleanup q st)) = files st
  /\ (q ∈ files st -> In q (unlinks (snd (cleanup q st))))
  /\ (forall x, In x (unlinks st) -> In x (unlinks (snd (cleanup q st)))).
Proof.
  intros Hq. unfold cleanup. rewrite Hq. cbn [andb].
  destruct (bool_decide (q ∈ files st)) eqn:E; cbn.
  - repeat split; intros; apply in_or_app; [right; left; reflexivity | now left].
  - apply bool_decide_eq_false in E. repeat split; [contradiction | auto].
Qed.

Lemma finally_block_unlinks (st : State) (p : string) :
  audioPath st = Some p -> nonempty p = true ->
  forall q, q = p \/ q = p +:+ ".mp3" ->
    q ∈ files st -> In q (unlinks (snd (finally_block st))).
Proof.
  intros Hp Hne q Hq Hin. unfold finally_block.
  rewrite Hp. cbn [truthy_value]. rewrite Hne. unfold bind.
  destruct (cleanup_spec p st Hne) as (H1 & Hf1 & Hin1 & Hkeep1).
  destruct (cleanup p st) as [c st1]. cbn [fst snd] in *. subst c.
  assert (Hne2 : nonempty (p +:+ ".mp3") = true)
    by (apply nonempty_app_r; reflexivity).
  destruct (cleanup_spec (p +:+ ".mp3") st1 Hne2) as (_ & _ & Hin2 & Hkeep2).
  destruct Hq as [-> | ->].
  - apply Hkeep2, Hin1, Hin.
  - apply Hin2. rewrite Hf1. exact Hin.
Qed.

Lemma unlinked_is_gone (ok : string -> bool) (us : list string) :
  forall (fs : gset string) (q : string),
    q ∉ fs \/ (In q us /\ ok q = true) ->
    q ∉ fold_left (fun fs p => if ok p then fs ∖ {[p]} else fs) us fs.
Proof.
  induction us as [|u us IH]; intros fs q H; cbn [fold_left].
  - destruct H as [H | [[] _]]. exact H.
  - apply IH. destruct H as [H | [[-> | Hin] Hok]].
    + left. destruct (ok u); [|exact H].
      intros Hx. apply elem_of_difference in Hx as [Hx _]. contradiction.
    + left. rewrite Hok.
      intros Hx. apply elem_of_difference in Hx as [_ Hx].
      apply Hx, elem_of_singleton. reflexivity.
    + right. split; assumption.
Qed.

(** C1, as the code has it.  When an audio path was assigned, then on
    every way out of the handler a removal has been issued for the audio
    file and for its [.mp3] variant, whichever of them exists; the files
    are gone once the issued removals have run, each as far as its
    removal succeeds. *)
Theorem cleanup_issued_on_every_exit (st : State) (p : string) :
  let st' := transcribe_handler cfg env req st in
  audioPath st' = Some p ->
  forall q, q = p \/ q = p +:+ ".mp3" ->
    (q ∈ files st' -> In q (unlinks st'))
    /\ (forall ok, ok q = true -> q ∉ files (run_unlinks ok st')).
Proof.
  cbv zeta. unfold transcribe_handler. intros Hp q Hq.
  destruct (finally_block_frame (try_catch cfg env req st))
    as (_ & _ & Hfiles & _ & Hpath).
  rewrite Hpath in Hp.
  assert (Hne : nonempty p = true).
  { destruct (try_catch_audioPath st) as [H | H]; rewrite H in Hp.
    - discriminate.
    - inversion Hp; subst. apply nonempty_path_join. }
  assert (Hissued : q ∈ files (snd (finally_block (try_catch cfg env req st)))
                    -> In q (unlinks (snd (finally_block (try_catch cfg env req st))))).
  { rewrite Hfiles. now apply finally_block_unlinks with (p := p). }
  split; [exact Hissued|].
  intros ok Hok. unfold run_unlinks. cbn [files with_files with_unlinks].
  apply unlinked_is_gone.
  destruct (decide (q ∈ files (snd (finally_block (try_catch cfg env req st)))))
    as [Hin | Hout]; [right | left]; auto.
Qed.

End HandlerTheorems.

Section HandlerExamples.

Import Js Backend Server.

Lemma limits_checked_before_download_witness :
  downloads (transcribe_handler Sample.cfg (Sample.env 10801 false)
                                Sample.req (fresh ∅)) = []
  /\ downloads (transcribe_handler Sample.cfg (Sample.env 10800 false)
                                   Sample.req (fresh ∅))
     = [(Sample.url, Sample.audio)].
Proof.
  split.
  - apply (limits_checked_before_download
             Sample.cfg (Sample.env 10801 false) Sample.req
             Sample.url "dQw4w9WgXcQ" (Sample.info 10801 false) (fresh ∅));
      try reflexivity.
    left. reflexivity.
  - apply (limits_checked_before_download
             Sample.cfg (Sample.env 10800 false) Sample.req
             Sample.url "dQw4w9WgXcQ" (Sample.info 10800 false) (fresh ∅));
      reflexivity.
Defined.

Lemma cleanup_issued_on_every_exit_witness :
  In (Sample.audio +:+ ".mp3")
     (unlinks (transcribe_handler Sample.cfg (Sample.env 600 false)
                                  Sample.req (fresh ∅)))
  /\ Sample.audio +:+ ".mp3"
       ∉ files (run_unlinks (fun _ => true)
                  (transcribe_handler Sample.cfg (Sample.env 600 false)
                                      Sample.req (fresh ∅))).
Proof.
  assert (Hp : audioPath (transcribe_handler Sample.cfg (Sample.env 600 false)
                                             Sample.req (fresh ∅))
               = Some Sample.audio) by reflexivity.
  destruct (cleanup_issued_on_every_exit
              Sample.cfg (Sample.env 600 false) Sample.req (fresh ∅)
              Sample.audio Hp (Sample.audio +:+ ".mp3")
              (or_intror eq_refl)) as [Hissued Hgone].
  split.
  - apply Hissued. vm_compute. reflexivity.
  - apply Hgone. reflexivity.
Defined.

(** C1, as stated, fails: when the handler returns after a successful
    transcription the downloaded [.mp3] file is still there; its removal
    has only been issued. *)
Lemma audio_file_remains_at_return :
  let st' := transcribe_handler Sample.cfg (Sample.env 600 false)
                                Sample.req (fresh ∅) in
  audioPath st' = Some Sample.audio
  /\ events st'
     = [EvInfo "Fetching video info...";
        EvInfo "Downloading audio from YouTube...";
        EvInfo "Transcribing with OpenAI Whisper...";
        EvInfo "Finalizing...";
        EvComplete
          (mkResultData "dQw4w9WgXcQ" "A title" "A channel" 600
             "hello there" "en" [mkSegment 0 (5 # 2) "hello there"]
             "api" "openai")]
  /\ Sample.audio +:+ ".mp3" ∈ files st'.
Proof.
  cbv zeta. split; [reflexivity|]. split; [reflexivity|].
  vm_compute. reflexivity.
Qed.

End HandlerExamples.

(** ** The cost estimate *)

Section CostFacts.

Import Js Backend Server.

Lemma minutes_of_ceiling (d : Z) :
  (60 * (minutes_of d - 1) < d <= 60 * minutes_of d)%Z.
Proof.
  unfold minutes_of, Qceiling, Qfloor, Qopp, Qdiv, Qmult, Qinv, inject_Z.
  cbn [Qnum Qden]. rewrite Z.mul_1_r.
  change (Z.pos (1 * 60)) with 60%Z.
  pose proof (Z.div_mod (- d) 60 ltac:(lia)) as Hdm.
  pose proof (Z.mod_pos_bound (- d) 60 ltac:(lia)) as Hb.
  lia.
Qed.

(** C8, as the code has it.  The estimate is computed for every
    duration the lookup reports, negative ones included: the minutes are
    the ceiling of duration/60, the cost is zero in local mode and
    minutes times the rate, to four decimals, otherwise.  The request
    fails only for a missing URL or a failed lookup. *)
Theorem estimate_cost_total (cfg : Config) (env : Env) :
  (forall url info,
      nonempty url = true ->
      getVideoInfo env url = Resolved info ->
      exists data,
        estimate_cost cfg env (Some url) = CostOk data
        /\ cd_minutes data = minutes_of (vi_duration info)
        /\ (60 * (cd_minutes data - 1) < vi_duration info
              <= 60 * cd_minutes data)%Z
        /\ (TRANSCRIPTION_MODE cfg = "local" -> cd_cost data = "0.00")
        /\ (TRANSCRIPTION_MODE cfg <> "local" ->
            cd_cost data
              = toFixed4 (inject_Z (cd_minutes data) * RATE_PER_MINUTE)))
  /\ (forall url status error,
        estimate_cost cfg env url = CostFailed status error ->
        truthy url = false
        \/ exists u, url = Some u /\ getVideoInfo env u = Rejected error).
Proof.
  split.
  - intros url info Hurl Hinfo. unfold estimate_cost, estimate.
    cbn [truthy_value]. rewrite Hurl, Hinfo.
    destruct (String.eqb_spec (TRANSCRIPTION_MODE cfg) "local") as [Hm | Hm];
      eexists; (split; [reflexivity|]); cbn [cd_minutes cd_cost];
      (split; [reflexivity|]); (split; [apply minutes_of_ceiling|]);
      split; intros; congruence.
  - intros [url|] status error; unfold estimate_cost; cbn [truthy_value truthy].
    + destruct (nonempty url) eqn:Hne; [|now left].
      destruct (getVideoInfo env url) eqn:Hinfo; [discriminate|].
      intros H; inversion H; subst. right. eauto.
    + now left.
Qed.

Lemma estimate_cost_total_witness :
  exists data,
    estimate_cost Sample.cfg (Sample.env 600 false) (Some Sample.url)
      = CostOk data
    /\ cd_minutes data = 10%Z /\ cd_cost data = "0.0600".
Proof.
  destruct (proj1 (estimate_cost_total Sample.cfg (Sample.env 600 false))
              Sample.url (Sample.info 600 false) eq_refl eq_refl)
    as (data & Hdata & Hmin & _ & _ & Hcost).
  exists data. split; [exact Hdata|]. split.
  - rewrite Hmin. reflexivity.
  - rewrite Hcost by discriminate. rewrite Hmin. reflexivity.
Defined.

(** C8, as stated, fails: a negative duration is not rejected. *)
Lemma negative_duration_is_estimated :
  estimate_cost Sample.cfg (Sample.env (-60) false) (Some Sample.url)
  = CostOk (mkCostData (-60) (-1) "-0.0060" "$-0.0060" "api").
Proof. reflexivity. Qed.

End CostFacts.

(** ** The transcription cache *)

Section CacheFacts.

Import Js Cache.

Context {T : Type}.
Implicit Types (cache : Obj T) (e : Entry T) (k key o : string).

Lemma get_In_keys cache k e : get cache k = Some e -> In k (keys cache).
Proof.
  induction cache as [|[k' e'] rest IH]; cbn [get keys map fst]; [discriminate|].
  destruct (String.eqb_spec k' k) as [->|Hne]; [now left|].
  intros H. right. now apply IH.
Qed.

Lemma In_keys_get cache k : In k (keys cache) -> exists e, get cache k = Some e.
Proof.
  induction cache as [|[k' e'] rest IH]; cbn [get keys map fst]; [intros []|].
  destruct (String.eqb_spec k' k) as [->|Hne]; [eauto|].
  intros [H|H]; [congruence | now apply IH].
Qed.

Lemma get_not_In cache k : ~ In k (keys cache) -> get cache k = None.
Proof.
  intros H. destruct (get cache k) eqn:E; [|reflexivity].
  exfalso. eauto using get_In_keys.
Qed.

Lemma get_remove_ne cache o k : k <> o -> get (remove o cache) k = get cache k.
Proof.
  intros Hne. induction cache as [|[k' e'] rest IH]; cbn [remove get]; [reflexivity|].
  destruct (String.eqb_spec k' o) as [->|Ho]; cbn [get].
  - destruct (String.eqb_spec o k); [congruence | reflexivity].
  - now rewrite IH.
Qed.

Lemma keys_remove_incl cache o k :
  In k (keys (remove o cache)) -> In k (keys cache).
Proof.
  induction cache as [|[k' e'] rest IH]; cbn [remove keys map fst]; [intros []|].
  destruct (String.eqb_spec k' o) as [->|Ho]; cbn [keys map fst].
  - now right.
  - intros [H|H]; [now left | right; now apply IH].
Qed.

Lemma NoDup_remove cache o : NoDup (keys cache) -> NoDup (keys (remove o cache)).
Proof.
  induction cache as [|[k' e'] rest IH]; cbn [remove keys map fst]; [auto|].
  intros H. apply NoDup_cons in H as [Hnin Hnd].
  destruct (String.eqb_spec k' o) as [->|Ho]; [exact Hnd|].
  cbn [keys map fst]. apply NoDup_cons. split; [|now apply IH].
  rewrite list_elem_of_In in *. intros Hin. apply Hnin.
  eapply keys_remove_incl; eauto.
Qed.

Lemma get_remove_eq cache o : NoDup (keys cache) -> get (remove o cache) o = None.
Proof.
  induction cache as [|[k' e'] rest IH]; cbn [remove keys map fst get];
    [reflexivity|].
  intros H. apply NoDup_cons in H as [Hnin Hnd].
  destruct (String.eqb_spec k' o) as [->|Ho].
  - apply get_not_In. now rewrite <- list_elem_of_In.
  - cbn [get]. destruct (String.eqb_spec k' o); [congruence | now apply IH].
Qed.

Lemma length_remove cache o :
  In o (keys cache) -> S (length (remove o cache)) = length cache.
Proof.
  induction cache as [|[k' e'] rest IH]; cbn [remove keys map fst]; [intros []|].
  destruct (String.eqb_spec k' o) as [->|Ho]; [reflexivity|].
  intros [H|H]; [congruence|]. cbn [length]. now rewrite IH.
Qed.

Lemma get_set_eq cache k e : get (set k e cache) k = Some e.
Proof.
  induction cache as [|[k' e'] rest IH]; cbn [set get].
  - now rewrite String.eqb_refl.
  - destruct (String.eqb_spec k' k) as [->|Hne]; cbn [get].
    + now rewrite String.eqb_refl.
    + destruct (String.eqb_spec k' k); [congruence | exact IH].
Qed.

Lemma get_set_ne cache k k' e : k' <> k -> get (set k e cache) k' = get cache k'.
Proof.
  intros Hne. induction cache as [|[k0 e0] rest IH]; cbn [set get].
  - destruct (String.eqb_spec k k'); [congruence | reflexivity].
  - destruct (String.eqb_spec k0 k) as [->|Hk]; cbn [get].
    + destruct (String.eqb_spec k k'); [congruence | reflexivity].
    + now rewrite IH.
Qed.

Lemma length_set_new cache k e :
  ~ In k (keys cache) -> length (set k e cache) = S (length cache).
Proof.
  induction cache as [|[k0 e0] rest IH]; cbn [set keys map fst]; [reflexivity|].
  intros H. destruct (String.eqb_spec k0 k) as [->|Hk].
  - exfalso. apply H. now left.
  - cbn [length]. rewrite IH; [reflexivity|]. intros Hin. apply H. now right.
Qed.

Lemma length_set_old cache k e :
  In k (keys cache) -> length (set k e cache) = length cache.
Proof.
  induction cache as [|[k0 e0] rest IH]; cbn [set keys map fst]; [intros []|].
  intros H. destruct (String.eqb_spec k0 k) as [->|Hk]; [reflexivity|].
  cbn [length]. destruct H as [H|H]; [congruence|]. now rewrite IH.
Qed.

Lemma length_set_le cache k e : (length (set k e cache) <= S (length cache))%nat.
Proof.
  induction cache as [|[k0 e0] rest IH]; cbn [set]; [cbn; lia|].
  destruct (String.eqb k0 k); cbn [length]; lia.
Qed.

(** *** The oldest key *)

Lemma older_scan cache (ks : list string) :
  (forall k, In k ks -> nonempty k = true /\ In k (keys cache)) ->
  forall o0, nonempty o0 = true -> In o0 (keys cache) ->
    exists o, fold_left (older cache) ks (Some o0) = Some o
      /\ nonempty o = true
      /\ (o = o0 \/ In o ks)
      /\ minimal_among cache (o0 :: ks) o.
Proof.
  induction ks as [|k ks IH]; intros Hks o0 Hne0 Hin0.
  - exists o0. cbn [fold_left]. repeat split; auto.
    destruct (In_keys_get _ _ Hin0) as [e0 He0]. exists e0. split; [exact He0|].
    intros k e [<-|[]] Hk. rewrite He0 in Hk. inversion Hk; subst. lia.
  - cbn [fold_left]. destruct (Hks k (or_introl eq_refl)) as [Hnek Hink].
    assert (Hks' : forall k', In k' ks -> nonempty k' = true /\ In k' (keys cache))
      by (intros k' Hk'; apply Hks; now right).
    destruct (In_keys_get _ _ Hin0) as [e0 He0].
    destruct (In_keys_get _ _ Hink) as [ek Hek].
    unfold older at 2. rewrite Hne0. cbn [negb]. rewrite Hek, He0.
    destruct (Z.ltb_spec (timestamp ek) (timestamp e0)) as [Hlt|Hge].
    + destruct (IH Hks' k Hnek Hink) as (o & Ho & Hneo & Hwhere & eo & Heo & Hmin).
      exists o. repeat split; auto.
      * destruct Hwhere as [->|H]; right; [now left | now right].
      * exists eo. split; [exact Heo|].
        intros k' e' [<-|[<-|Hk']] He'.
        -- rewrite He0 in He'. inversion He'; subst.
           specialize (Hmin k ek (or_introl eq_refl) Hek). lia.
        -- apply (Hmin k e' (or_introl eq_refl) He').
        -- apply (Hmin k' e' (or_intror Hk') He').
    + destruct (IH Hks' o0 Hne0 Hin0) as (o & Ho & Hneo & Hwhere & eo & Heo & Hmin).
      exists o. repeat split; auto.
      * destruct Hwhere as [->|H]; [now left | right; now right].
      * exists eo. split; [exact Heo|].
        intros k' e' [<-|[<-|Hk']] He'.
        -- apply (Hmin o0 e' (or_introl eq_refl) He').
        -- rewrite Hek in He'. inversion He'; subst.
           specialize (Hmin o0 e0 (or_introl eq_refl) He0). lia.
        -- apply (Hmin k' e' (or_intror Hk') He').
Qed.

Lemma oldestKey_minimal cache :
  well_formed cache -> cache <> [] ->
  exists o, oldestKey cache = Some o
    /\ nonempty o = true
    /\ In o (keys cache)
    /\ minimal_among cache (keys cache) o.
Proof.
  intros [Hnd Hne] Hcache. unfold oldestKey.
  destruct cache as [|[k0 e0] rest]; [congruence|].
  cbn [keys map fst fold_left older] in *.
  apply Forall_cons in Hne as [Hne0 Hne].
  rewrite Forall_forall in Hne.
  destruct (older_scan ((k0, e0) :: rest) (map fst rest)) with (o0 := k0)
    as (o & Ho & Hneo & Hwhere & Hmin).
  - intros k Hk. split; [apply Hne; now rewrite list_elem_of_In | now right].
  - exact Hne0.
  - now left.
  - exists o. repeat split; auto.
    destruct Hwhere as [->|H]; [now left | now right].
Qed.

(** *** Keys after a write *)

Lemma keys_set_old cache k e :
  In k (keys cache) -> keys (set k e cache) = keys cache.
Proof.
  induction cache as [|[k0 e0] rest IH]; cbn [set keys map fst]; [intros []|].
  intros H. destruct (String.eqb_spec k0 k) as [->|Hk]; [reflexivity|].
  cbn [keys map fst]. destruct H as [H|H]; [congruence|].
  f_equal. now apply IH.
Qed.

Lemma keys_set_new cache k e :
  ~ In k (keys cache) -> keys (set k e cache) = keys cache ++ [k].
Proof.
  induction cache as [|[k0 e0] rest IH]; cbn [set keys map fst]; [reflexivity|].
  intros H. destruct (String.eqb_spec k0 k) as [->|Hk].
  - exfalso. apply H. now left.
  - cbn [keys map fst app]. f_equal. apply IH. intros Hin. apply H. now right.
Qed.

Lemma well_formed_remove cache o : well_formed cache -> well_formed (remove o cache).
Proof.
  intros [Hnd Hne]. split; [now apply NoDup_remove|].
  rewrite Forall_forall in *. intros k Hk. apply Hne.
  rewrite list_elem_of_In in *. eauto using keys_remove_incl.
Qed.

Lemma well_formed_set cache k e :
  nonempty k = true -> well_formed cache -> well_formed (set k e cache).
Proof.
  intros Hk [Hnd Hne].
  destruct (in_dec String.eq_dec k (keys cache)) as [Hin|Hout].
  - unfold well_formed. rewrite keys_set_old by assumption. auto.
  - unfold well_formed. rewrite keys_set_new by assumption. split.
    + apply NoDup_app. repeat split; auto.
      * intros x Hx Hx'. apply list_elem_of_In in Hx.
        apply list_elem_of_singleton in Hx'. congruence.
      * apply NoDup_singleton.
    + apply Forall_app. split; [exact Hne | now repeat constructor].
Qed.

Lemma length_keys cache : length (keys cache) = length cache.
Proof. unfold keys. apply length_map. Qed.

Lemma evict_full cache :
  well_formed cache -> (CACHE_LIMIT <= length cache)%nat ->
  exists o, evict cache = remove o cache
    /\ In o (keys cache)
    /\ minimal_among cache (keys cache) o.
Proof.
  intros Hwf Hlen. unfold evict. rewrite length_keys.
  apply Nat.leb_le in Hlen as Hb. rewrite Hb.
  destruct (oldestKey_minimal cache Hwf) as (o & -> & -> & Hin & Hmin).
  - intros ->. unfold CACHE_LIMIT in Hlen. cbn in Hlen. lia.
  - eauto.
Qed.

Lemma evict_below cache : (length cache < CACHE_LIMIT)%nat -> evict cache = cache.
Proof.
  intros Hlen. unfold evict. rewrite length_keys.
  apply Nat.leb_gt in Hlen. now rewrite Hlen.
Qed.

(** C7. Writing a new video into a cache of 50 entries removes an entry
    whose timestamp is the smallest (the entry with the strictly smallest
    one, when there is such an entry), keeps every other entry as it was,
    adds the new one, and leaves 50 entries. *)
Theorem eviction_removes_oldest cache (videoId : string) (transcription : T)
    (now : Z) :
  well_formed cache ->
  length cache = 50%nat ->
  ~ In videoId (keys cache) ->
  let cache' := handleSetCachedTranscription (Some cache) videoId transcription now in
  exists o,
    In o (keys cache)
    /\ minimal_among cache (keys cache) o
    /\ (forall o' e',
          get cache o' = Some e' ->
          (forall k e, get cache k = Some e -> k <> o' ->
                       (timestamp e' < timestamp e)%Z) ->
          o = o')
    /\ get cache' o = None
    /\ (forall k e, get cache k = Some e -> k <> o -> get cache' k = Some e)
    /\ get cache' videoId = Some (mkEntry transcription now)
    /\ length cache' = 50%nat.
Proof.
  intros Hwf Hlen Hnew. cbv zeta. unfold handleSetCachedTranscription.
  cbn [default from_option id].
  destruct (evict_full cache Hwf) as (o & -> & Hin & Hmin);
    [unfold CACHE_LIMIT; lia|].
  assert (Hov : o <> videoId) by (intros ->; contradiction).
  exists o. repeat split; auto.
  - intros o' e' Ho' Hstrict.
    destruct (String.eqb_spec o o') as [Heq | Hne]; [exact Heq|].
    destruct Hmin as (eo & Heo & Hmin).
    pose proof (Hmin o' e' (get_In_keys _ _ _ Ho') Ho').
    pose proof (Hstrict o eo Heo Hne). lia.
  - rewrite get_set_ne; [|exact Hov]. apply get_remove_eq, Hwf.
  - intros k e Hk Hko.
    assert (k <> videoId) by (intros ->; eauto using get_In_keys).
    rewrite get_set_ne; [|assumption]. now rewrite get_remove_ne.
  - apply get_set_eq.
  - rewrite length_set_new.
    + rewrite length_remove; [exact Hlen | exact Hin].
    + intros H. apply Hnew. eauto using keys_remove_incl.
Qed.

(** C10. A write never leaves more than 50 entries in a cache that held
    at most 50.  At 50 entries the oldest entry is removed even when the
    written video is already cached: unless that video is itself the
    oldest, another entry disappears and 49 remain. *)
Theorem cache_stays_bounded cache (videoId : string) (transcription : T)
    (now : Z) :
  well_formed cache ->
  (length cache <= 50)%nat ->
  let cache' := handleSetCachedTranscription (Some cache) videoId transcription now in
  (length cache' <= 50)%nat
  /\ (nonempty videoId = true -> well_formed cache')
  /\ get cache' videoId = Some (mkEntry transcription now)
  /\ (length cache = 50%nat -> In videoId (keys cache) ->
      exists o,
        In o (keys cache)
        /\ minimal_among cache (keys cache) o
        /\ (o <> videoId -> get cache' o = None /\ length cache' = 49%nat)
        /\ (o = videoId -> length cache' = 50%nat)).
Proof.
  intros Hwf Hlen. cbv zeta. unfold handleSetCachedTranscription.
  cbn [default from_option id].
  assert (Hcases : (length cache < CACHE_LIMIT)%nat \/ length cache = 50%nat)
    by (unfold CACHE_LIMIT; lia).
  split; [|split; [|split]].
  - destruct Hcases as [Hlt | Heq].
    + rewrite evict_below; [|exact Hlt].
      pose proof (length_set_le cache videoId (mkEntry transcription now)).
      unfold CACHE_LIMIT in Hlt. lia.
    + destruct (evict_full cache Hwf) as (o & -> & Hin & _);
        [unfold CACHE_LIMIT; lia|].
      pose proof (length_set_le (remove o cache) videoId
                    (mkEntry transcription now)).
      pose proof (length_remove cache o Hin). lia.
  - intros Hne. apply well_formed_set; [exact Hne|].
    destruct Hcases as [Hlt | Heq].
    + now rewrite evict_below.
    + destruct (evict_full cache Hwf) as (o & -> & _);
        [unfold CACHE_LIMIT; lia|].
      now apply well_formed_remove.
  - apply get_set_eq.
  - intros Heq Hold.
    destruct (evict_full cache Hwf) as (o & -> & Hin & Hmin);
      [unfold CACHE_LIMIT; lia|].
    exists o. repeat split; auto.
    + rewrite get_set_ne; [|assumption]. apply get_remove_eq, Hwf.
    + rewrite length_set_old.
      * pose proof (length_remove cache o Hin). lia.
      * destruct (In_keys_get _ _ Hold) as [e He].
        apply get_In_keys with (e := e). rewrite get_remove_ne; auto.
    + intros ->. rewrite length_set_new.
      * pose proof (length_remove cache videoId Hin). lia.
      * intros H. apply In_keys_get in H as [e He].
        rewrite get_remove_eq in He; [discriminate | apply Hwf].
Qed.

End CacheFacts.

Section CacheExamples.

Import Js Cache.

Lemma sample_cache_well_formed : well_formed (Sample.cache 50).
Proof.
  split.
  - apply (bool_decide_unpack _). vm_compute. exact I.
  - apply (bool_decide_unpack _). vm_compute. exact I.
Qed.

Lemma sample_cache_fresh_key : ~ In "dQw4w9WgXcQ" (keys (Sample.cache 50)).
Proof.
  rewrite <- list_elem_of_In.
  apply (bool_decide_unpack _). vm_compute. exact I.
Qed.

Lemma sample_cache_old_key : In (Sample.key 3) (keys (Sample.cache 50)).
Proof.
  rewrite <- list_elem_of_In.
  apply (bool_decide_unpack _). vm_compute. exact I.
Qed.

Lemma eviction_removes_oldest_witness :
  exists o,
    In o (keys (Sample.cache 50))
    /\ minimal_among (Sample.cache 50) (keys (Sample.cache 50)) o
    /\ get (handleSetCachedTranscription (Some (Sample.cache 50))
              "dQw4w9WgXcQ" 50%nat 1000) o = None
    /\ length (handleSetCachedTranscription (Some (Sample.cache 50))
                 "dQw4w9WgXcQ" 50%nat 1000) = 50%nat.
Proof.
  destruct (eviction_removes_oldest (Sample.cache 50) "dQw4w9WgXcQ" 50%nat 1000
              sample_cache_well_formed eq_refl sample_cache_fresh_key)
    as (o & Hin & Hmin & _ & Hgone & _ & _ & Hlen).
  exists o. repeat split; assumption.
Defined.

Lemma cache_stays_bounded_witness :
  (length (handleSetCachedTranscription (Some (Sample.cache 50))
             (Sample.key 3) 3%nat 1000) <= 50)%nat.
Proof.
  apply (cache_stays_bounded (Sample.cache 50) (Sample.key 3) 3%nat 1000
           sample_cache_well_formed).
  vm_compute. lia.
Defined.

(** The oldest sample entry is ["video-21"]; rewriting ["video-3"]
    drops it and leaves 49 entries. *)
Example overwrite_at_capacity_shrinks :
  let cache' := handleSetCachedTranscription (Some (Sample.cache 50))
                  (Sample.key 3) 3%nat 1000 in
  oldestKey (Sample.cache 50) = Some "video-21"
  /\ get cache' "video-21" = None
  /\ get cache' "video-3" = Some (mkEntry 3%nat 1000)
  /\ length cache' = 49%nat.
Proof. vm_compute. repeat split. Qed.

(** The first write, when nothing is stored yet. *)
Example first_write :
  handleSetCachedTranscription None "dQw4w9WgXcQ" 7%nat 1000
  = [("dQw4w9WgXcQ", mkEntry 7%nat 1000)].
Proof. reflexivity. Qed.

End CacheExamples.

(** ** Worked examples *)

Section WorkedExamples.

Import Js Backend Server.

Example watch_url :
  VideoId.extractVideoId "https://www.youtube.com/watch?v=dQw4w9WgXcQ&t=42s"
  = Some "dQw4w9WgXcQ".
Proof. reflexivity. Qed.

Example short_link :
  VideoId.extractVideoId "https://youtu.be/dQw4w9WgXcQ?si=abc"
  = Some "dQw4w9WgXcQ".
Proof. reflexivity. Qed.

Example shorts_url :
  VideoId.extractVideoIdFromUrl "https://www.youtube.com/shorts/dQw4w9WgXcQ"
  = Some "dQw4w9WgXcQ".
Proof. reflexivity. Qed.

Example too_short_identifier :
  VideoId.extractVideoId "https://youtu.be/dQw4w9WgXc" = None.
Proof. reflexivity. Qed.

Example other_site :
  VideoId.extractVideoId "https://example.com/watch?v=dQw4w9WgXcQ" = None.
Proof. reflexivity. Qed.

(** The greedy [.*] reaches the last [v=] that is followed by an
    identifier. *)
Example last_v_parameter_wins :
  VideoId.extractVideoId
    "https://www.youtube.com/watch?v=AAAAAAAAAAA&v=BBBBBBBBBBB"
  = Some "BBBBBBBBBBB".
Proof. reflexivity. Qed.

(** A response without word timings: one segment with zero bounds. *)
Example no_words_fallback :
  synthesize (mkAlternative "hello" None) = [mkSegment 0 0 "hello"]
  /\ synthesize (mkAlternative "hello" (Some [])) = [mkSegment 0 0 "hello"].
Proof. split; reflexivity. Qed.

(** A gap of several slots: no empty segment is produced for it. *)
Example silent_slots_are_skipped :
  synthesize
    (mkAlternative "one two"
       (Some [mkWord 1 "one" None; mkWord (33 # 2) "two" None]))
  = [mkSegment 0 5 "one"; mkSegment 15 20 "two"].
Proof. reflexivity. Qed.

Example ten_minutes_local :
  estimate (mkConfig "local" "base" "/tmp/yt-transcriber") 600
  = mkCostData 600 10 "0.00" "FREE (local mode)" "local".
Proof. reflexivity. Qed.

Example ten_minutes_api :
  estimate Sample.cfg 600 = mkCostData 600 10 "0.0600" "$0.0600" "api".
Proof. reflexivity. Qed.

Example started_minute_counts :
  minutes_of 601 = 11%Z /\ minutes_of 0 = 0%Z /\ minutes_of 1 = 1%Z.
Proof. repeat split. Qed.

(** The download leaves a file but the backend fails: the error is the
    last event and the removal of the file has been issued. *)
Example failed_transcription_is_cleaned_up :
  let env :=
    mkEnv (getVideoInfo (Sample.env 600 false)) "3f2b8c1e-uuid"
          (yt_dlp (Sample.env 600 false))
          (whisper (Sample.env 600 false))
          (fun _ _ => Rejected "You exceeded your current quota")
          (deepgram (Sample.env 600 false)) in
  let st' := transcribe_handler Sample.cfg env Sample.req (fresh ∅) in
  events st'
  = [EvInfo "Fetching video info...";
     EvInfo "Downloading audio from YouTube...";
     EvInfo "Transcribing with OpenAI Whisper...";
     EvError "API Authentication Failed: You exceeded your current quota"]
  /\ unlinks st' = [Sample.audio +:+ ".mp3"]
  /\ elements (files (run_unlinks (fun _ => true) st')) = [].
Proof. cbv zeta. repeat split; vm_compute; reflexivity. Qed.

Example missing_url :
  events (transcribe_handler Sample.cfg (Sample.env 600 false)
            (mkRequest None None None None None None) (fresh ∅))
  = [EvError "URL is required"].
Proof. reflexivity. Qed.

Example missing_key :
  events (transcribe_handler Sample.cfg (Sample.env 600 false)
            (mkRequest (Some Sample.url) None None None (Some "deepgram") None)
            (fresh ∅))
  = [EvError "API key required for deepgram mode."].
Proof. reflexivity. Qed.

Example live_stream :
  events (transcribe_handler Sample.cfg (Sample.env 60 true) Sample.req (fresh ∅))
  = [EvInfo "Fetching video info..."; EvError "Cannot transcribe live streams."].
Proof. reflexivity. Qed.

End WorkedExamples.

(** ** The cache over several requests *)

Section CacheHistoryFacts.

Import Js Cache CacheHistory.

Context {T : Type}.
Implicit Types (cache : Obj T) (stored : option (Obj T)).

Lemma set_cached_shape cache (videoId : string) (transcription : T) (now : Z) :
  nonempty videoId = true ->
  well_formed cache -> (length cache <= 50)%nat ->
  well_formed (handleSetCachedTranscription (Some cache) videoId transcription now)
  /\ (length (handleSetCachedTranscription (Some cache) videoId transcription now)
      <= 50)%nat.
Proof.
  intros Hne Hwf Hlen. unfold handleSetCachedTranscription.
  cbn [default from_option id].
  destruct (Nat.lt_ge_cases (length cache) CACHE_LIMIT) as [Hlt | Hge].
  - rewrite evict_below by exact Hlt. split.
    + now apply well_formed_set.
    + pose proof (length_set_le cache videoId (mkEntry transcription now)).
      unfold CACHE_LIMIT in Hlt. lia.
  - destruct (evict_full cache Hwf Hge) as (o & -> & Hin & _). split.
    + apply well_formed_set; [exact Hne | now apply well_formed_remove].
    + pose proof (length_set_le (remove o cache) videoId
                    (mkEntry transcription now)).
      pose proof (length_remove cache o Hin). lia.
Qed.

(** Whatever the sequence of videos written, as long as each has a
    non-empty identifier, the stored cache keeps distinct non-empty keys
    and never holds more than 50 entries. *)
Theorem replay_stays_bounded stored (ws : list (Write T)) :
  bounded stored ->
  Forall (fun w => nonempty (wr_videoId w) = true) ws ->
  bounded (replay stored ws).
Proof.
  revert stored. induction ws as [|w ws IH]; intros stored Hb Hws; [exact Hb|].
  apply Forall_cons in Hws as [Hw Hws]. cbn [replay fold_left].
  apply IH; [|exact Hws]. cbn [bounded].
  destruct stored as [cache|].
  - destruct Hb as [Hwf Hlen]. now apply set_cached_shape.
  - unfold handleSetCachedTranscription. cbn [default from_option id evict set].
    split; [|cbn; lia]. split; cbn [keys map fst].
    + apply NoDup_singleton.
    + now repeat constructor.
Qed.

(** Below 50 entries a write removes nothing: every other entry is read
    back unchanged, and the size grows by one exactly when the video was
    not cached before. *)
Theorem write_below_capacity_keeps_all cache (videoId : string)
    (transcription : T) (now : Z) :
  (length cache < 50)%nat ->
  let cache' := handleSetCachedTranscription (Some cache) videoId transcription now in
  (forall k, k <> videoId -> get cache' k = get cache k)
  /\ (In videoId (keys cache) -> length cache' = length cache)
  /\ (~ In videoId (keys cache) -> length cache' = S (length cache)).
Proof.
  intros Hlen. cbv zeta. unfold handleSetCachedTranscription.
  cbn [default from_option id]. rewrite evict_below by exact Hlen.
  repeat split.
  - intros k Hk. now apply get_set_ne.
  - apply length_set_old.
  - apply length_set_new.
Qed.


Lemma get_remove_some cache o k e :
  NoDup (keys cache) -> get (remove o cache) k = Some e -> get cache k = Some e.
Proof.
  intros Hnd H. destruct (String.eqb_spec k o) as [->|Hne].
  - rewrite get_remove_eq in H by exact Hnd. discriminate.
  - now rewrite get_remove_ne in H.
Qed.

Lemma get_elem_of cache k e : get cache k = Some e -> (k, e) ∈ cache.
Proof.
  induction cache as [|[k' e'] rest IH]; cbn [get]; [discriminate|].
  destruct (String.eqb_spec k' k) as [->|Hne].
  - intros H; inversion H; subst. apply list_elem_of_here.
  - intros H. apply list_elem_of_further. now apply IH.
Qed.

Lemma another_key (l : list string) (x : string) :
  NoDup l -> (2 <= length l)%nat -> exists y, In y l /\ y <> x.
Proof.
  intros Hnd Hlen. destruct l as [|a [|b l]]; cbn in Hlen; try lia.
  destruct (String.eqb_spec a x) as [->|Ha].
  - exists b. split; [right; now left|].
    apply NoDup_cons in Hnd as [Hnin _]. intros ->. apply Hnin. now left.
  - exists a. split; [now left | exact Ha].
Qed.

(** With a clock that has moved on since every stored entry was written,
    the entry just written is not the one the next write evicts: it is
    still read back after another video has been written. *)
Theorem fresh_entry_survives_next_write cache (videoId other : string)
    (transcription transcription' : T) (now now' : Z) :
  well_formed cache ->
  (length cache <= 50)%nat ->
  nonempty videoId = true ->
  other <> videoId ->
  (forall k e, get cache k = Some e -> (timestamp e < now)%Z) ->
  let cache1 := handleSetCachedTranscription (Some cache) videoId transcription now in
  let cache2 := handleSetCachedTranscription (Some cache1) other transcription' now' in
  get cache2 videoId = Some (mkEntry transcription now).
Proof.
  intros Hwf Hlen Hne Hother Hclock. cbv zeta.
  destruct (set_cached_shape cache videoId transcription now Hne Hwf Hlen)
    as [Hwf1 Hlen1].
  assert (Hmine : get (handleSetCachedTranscription (Some cache) videoId
                         transcription now) videoId
                  = Some (mkEntry transcription now)).
  { unfold handleSetCachedTranscription. cbn [default from_option id].
    apply get_set_eq. }
  assert (Hold : forall k e,
             k <> videoId ->
             get (handleSetCachedTranscription (Some cache) videoId
                    transcription now) k = Some e ->
             (timestamp e < now)%Z).
  { intros k e Hk. unfold handleSetCachedTranscription.
    cbn [default from_option id]. rewrite get_set_ne by exact Hk.
    unfold evict. destruct (CACHE_LIMIT <=? length (keys cache))%nat;
      [|apply Hclock].
    destruct (oldestKey cache) as [o|]; [|apply Hclock].
    destruct (nonempty o); [|apply Hclock].
    intros H. apply (Hclock k e). eapply get_remove_some; [apply Hwf | exact H]. }
  set (cache1 := handleSetCachedTranscription (Some cache) videoId transcription now)
    in *.
  unfold handleSetCachedTranscription at 1. cbn [default from_option id].
  rewrite get_set_ne by (intros E; apply Hother; now rewrite E).
  destruct (Nat.lt_ge_cases (length cache1) CACHE_LIMIT) as [Hlt | Hge].
  - rewrite evict_below by exact Hlt. exact Hmine.
  - destruct (evict_full cache1 Hwf1 Hge) as (o & -> & Hin & eo & Heo & Hmin).
    destruct (String.eqb_spec o videoId) as [->|Ho].
    + exfalso. rewrite Hmine in Heo. inversion Heo; subst eo. cbn in Hmin.
      destruct (another_key (keys cache1) videoId) as (y & Hy & Hyne).
      * apply Hwf1.
      * rewrite length_keys. unfold CACHE_LIMIT in Hge. lia.
      * destruct (In_keys_get _ _ Hy) as [ey Hey].
        pose proof (Hmin y ey Hy Hey). pose proof (Hold y ey Hyne Hey). lia.
    + rewrite get_remove_ne by (intros E; apply Ho; now rewrite E). exact Hmine.
Qed.

End CacheHistoryFacts.

Section CacheHistoryExamples.

Import Js Cache CacheHistory.

Lemma replay_stays_bounded_witness :
  bounded (replay (Some (Sample.cache 50))
             [mkWrite "dQw4w9WgXcQ" 50%nat 1000; mkWrite "video-3" 3%nat 1001]).
Proof.
  apply replay_stays_bounded.
  - split; [apply sample_cache_well_formed | cbn; lia].
  - repeat constructor.
Defined.

Lemma write_below_capacity_keeps_all_witness :
  get (handleSetCachedTranscription (Some (Sample.cache 3)) "dQw4w9WgXcQ" 9%nat 1000)
      "video-1"
  = get (Sample.cache 3) "video-1".
Proof.
  apply (write_below_capacity_keeps_all (Sample.cache 3) "dQw4w9WgXcQ" 9%nat 1000).
  - cbn; lia.
  - discriminate.
Defined.


Lemma fresh_entry_survives_next_write_witness :
  get (handleSetCachedTranscription
         (Some (handleSetCachedTranscription (Some (Sample.cache 50))
                  "dQw4w9WgXcQ" 50%nat 1000))
         "9bZkp7q19f0" 51%nat 1001)
      "dQw4w9WgXcQ"
  = Some (mkEntry 50%nat 1000).
Proof.
  apply (fresh_entry_survives_next_write (Sample.cache 50)
           "dQw4w9WgXcQ" "9bZkp7q19f0" 50%nat 51%nat 1000 1001).
  - apply sample_cache_well_formed.
  - cbn; lia.
  - reflexivity.
  - discriminate.
  - intros k e Hk.
    assert (Hall : Forall (fun ke => (timestamp (snd ke) < 1000)%Z) (Sample.cache 50)).
    { apply (bool_decide_unpack _). vm_compute. exact I. }
    rewrite Forall_forall in Hall.
    apply (Hall _ (get_elem_of _ _ _ Hk)).
Defined.

End CacheHistoryExamples.

(** ** More on the [/transcribe] handler *)

Section HandlerMore.

Import Js Backend Server Failure.

Variables (cfg : Config) (req : Request).

Lemma finally_block_idle (st : State) :
  audioPath st = None -> snd (finally_block st) = st.
Proof. intros H. unfold finally_block. now rewrite H. Qed.

(** A request that fails the checks made before the lookup is answered
    with a single error event that does not depend on the environment:
    no process is started, no file is touched, nothing is downloaded. *)
Theorem invalid_request_touches_nothing :
  fails_validation cfg req ->
  exists error,
    forall env st,
      transcribe_handler cfg env req st
      = mkState (events st ++ [EvError error]) true (files st) (unlinks st)
                (downloads st) None.
Proof.
  unfold fails_validation, api_key_missing. intros H.
  destruct (truthy_value (body_url req)) as [url|] eqn:Hurl.
  - destruct (String.eqb (request_mode cfg req) "api"
              && negb (truthy (request_apiKey req))
              && negb (String.eqb (request_provider req) "local")) eqn:Hkey.
    + eexists. intros env st.
      unfold transcribe_handler, try_catch, try_block. cbv zeta.
      rewrite Hurl, Hkey. run_handler. now rewrite finally_block_idle.
    + destruct H as [H | [H | (u & Hu & Hid)]]; try discriminate.
      inversion Hu; subst u.
      eexists. intros env st.
      unfold transcribe_handler, try_catch, try_block. cbv zeta.
      rewrite Hurl, Hkey, Hid. run_handler. now rewrite finally_block_idle.
  - eexists. intros env st.
    unfold transcribe_handler, try_catch, try_block. cbv zeta.
    rewrite Hurl. run_handler. now rewrite finally_block_idle.
Qed.

Variable env : Env.




(** A result is sent only for a video within the limits: when the last
    event is the result, the video was resolved, is not live and no longer
    than the ceiling, its identifier is the one read from the URL, and
    exactly one download was started. *)
Theorem result_only_within_limits (st : State) (evs : list Event)
    (data : ResultData) :
  let st' := transcribe_handler cfg env req st in
  events st' = evs ++ [EvComplete data] ->
  (rd_duration data <= MAX_DURATION_SECONDS)%Z
  /\ VideoId.valid_id (rd_videoId data)
  /\ (exists url info,
        truthy_value (body_url req) = Some url
        /\ VideoId.extractVideoId url = Some (rd_videoId data)
        /\ getVideoInfo env url = Resolved info
        /\ vi_isLive info = false
        /\ rd_duration data = vi_duration info
        /\ downloads st'
           = downloads st ++ [(url, path_join (TEMP_DIR cfg) (randomUUID env))]).
Proof.
  cbv zeta. unfold transcribe_handler.
  destruct (finally_block_frame (try_catch cfg env req st))
    as (-> & _ & _ & -> & _).
  unfold try_catch, try_block, catch_block. cbv zeta.
  destruct (truthy_value (body_url req)) as [url|] eqn:Hurl;
    [|run_handler; intros H; apply app_inj_tail in H as [_ H]; discriminate].
  destruct (VideoId.extractVideoId url) as [videoId|] eqn:Hid.
  2:{ run_handler; intros H; apply app_inj_tail in H as [_ H]; discriminate. }
  destruct (getVideoInfo env url) as [info|message] eqn:Hinfo.
  2:{ run_handler; intros H; apply app_inj_tail in H as [_ H]; discriminate. }
  assert (Hvalid : VideoId.valid_id videoId).
  { rewrite extractVideoId_regex in Hid. eapply regex_group1_valid; eauto. }
  run_handler.
  all: intros H; apply app_inj_tail in H as [_ H]; try discriminate.
  all: inversion H; subst data; cbn [rd_duration rd_videoId].
  all: match goal with
       | Hlong : (MAX_DURATION_SECONDS <? vi_duration _)%Z = false |- _ =>
           apply Z.ltb_ge in Hlong
       end.
  all: split; [assumption|]; split; [assumption|].
  all: exists url, info; repeat split; auto.
Qed.

(** In local mode the outcome does not depend on the cloud services, and
    in every other mode it does not depend on the local recognizer: the
    audio goes to the selected backend only. *)
Theorem only_the_selected_backend_is_used (st : State) :
  (request_mode cfg req = "local" ->
   forall o d,
     transcribe_handler cfg (with_cloud env o d) req st
     = transcribe_handler cfg env req st)
  /\ (request_mode cfg req <> "local" ->
      forall w,
        transcribe_handler cfg (with_whisper env w) req st
        = transcribe_handler cfg env req st).
Proof.
  split.
  - intros Hmode o d.
    unfold transcribe_handler, try_catch, try_block, with_cloud. cbv zeta.
    cbn [getVideoInfo randomUUID yt_dlp whisper openai deepgram].
    rewrite Hmode. cbn [String.eqb Ascii.eqb Bool.eqb].
    unfold downloadAudio, transcribeLocal.
    cbn [getVideoInfo randomUUID yt_dlp whisper openai deepgram].
    reflexivity.
  - intros Hmode w.
    unfold transcribe_handler, try_catch, try_block, with_whisper. cbv zeta.
    cbn [getVideoInfo randomUUID yt_dlp whisper openai deepgram].
    apply String.eqb_neq in Hmode. rewrite Hmode.
    unfold downloadAudio, transcribeAPI, transcribeDeepgram.
    cbn [getVideoInfo randomUUID yt_dlp whisper openai deepgram].
    reflexivity.
Qed.

End HandlerMore.

(** ** The download step *)

Section DownloadFacts.

Import Js Backend Server Slots.






End DownloadFacts.

(** ** Segments built from word timings *)

Section SlotFacts.

Import Js Backend Slots.

Lemma five_positive : (0 < SEGMENT_DURATION)%Q.
Proof. reflexivity. Qed.

Lemma slot_after (x : Q) (k : Z) :
  (inject_Z k * SEGMENT_DURATION + SEGMENT_DURATION <= x)%Q ->
  (k + 1 <= Qfloor (x / SEGMENT_DURATION))%Z.
Proof.
  intros H. rewrite <- (Qfloor_Z (k + 1)). apply Qfloor_resp_le.
  apply Qle_shift_div_l; [apply five_positive|].
  rewrite inject_Z_plus. change (inject_Z 1) with 1%Q.
  unfold SEGMENT_DURATION in *. lra.
Qed.

Lemma slot_within (x : Q) (k : Z) :
  (x < inject_Z k * SEGMENT_DURATION + SEGMENT_DURATION)%Q ->
  (Qfloor (x / SEGMENT_DURATION) <= k)%Z.
Proof.
  intros H. apply Z.lt_succ_r. rewrite Zlt_Qlt.
  apply Qle_lt_trans with (x / SEGMENT_DURATION)%Q; [apply Qfloor_le|].
  apply Qlt_shift_div_r; [apply five_positive|].
  unfold Z.succ. rewrite inject_Z_plus. change (inject_Z 1) with 1%Q.
  unfold SEGMENT_DURATION in *. lra.
Qed.

Lemma slot_nonneg (x : Q) : (0 <= x)%Q -> (0 <= Qfloor (x / SEGMENT_DURATION))%Z.
Proof.
  intros H. rewrite <- (Qfloor_Z 0). apply Qfloor_resp_le.
  apply Qle_shift_div_l; [apply five_positive|].
  change (inject_Z 0) with 0%Q. unfold SEGMENT_DURATION. lra.
Qed.

Lemma on_slot_covers (k : Z) (s : Segment) :
  (0 <= k)%Z -> on_slot k s -> covers_a_slot s.
Proof.
  intros Hk [Hs He]. exists k. split; [exact Hk|].
  rewrite Hs, He, inject_Z_plus, inject_Z_mult. change (inject_Z 5) with 5%Q.
  unfold SEGMENT_DURATION. split; lra.
Qed.

Lemma on_slot_width (k : Z) (s : Segment) :
  on_slot k s -> (seg_start s <= seg_end s)%Q.
Proof. intros [Hs He]. rewrite Hs, He. unfold SEGMENT_DURATION. lra. Qed.

Lemma sorted_snoc {A} (R : A -> A -> Prop) (l : list A) (x : A) :
  StronglySorted R l -> Forall (fun a => R a x) l -> StronglySorted R (l ++ [x]).
Proof.
  induction 1 as [|a l Hs IH Ha]; intros Hx; cbn [app].
  - constructor; constructor.
  - apply Forall_cons in Hx as [Hax Hx]. constructor; [now apply IH|].
    apply Forall_app. split; [exact Ha | now constructor].
Qed.

Lemma tidy_start : tidy ([], mkSegment 0 SEGMENT_DURATION "").
Proof.
  cbn [tidy]. repeat split; try constructor.
  exists 0%Z. split; [lia|]. split; reflexivity.
Qed.

Lemma tidy_push segments cur :
  tidy (segments, cur) ->
  Forall on_some_slot (push_if_text segments cur)
  /\ Forall (fun s => nonempty (seg_text s) = true) (push_if_text segments cur)
  /\ StronglySorted before (push_if_text segments cur).
Proof.
  intros (Hcur & Hon & Htext & Hsorted & Hbefore). unfold push_if_text.
  destruct (nonempty (seg_text cur)) eqn:E; [|auto].
  repeat split.
  - apply Forall_app. split; [exact Hon | now constructor].
  - apply Forall_app. split; [exact Htext | now constructor].
  - now apply sorted_snoc.
Qed.

Lemma tidy_step st w : tidy st -> tidy (word_step st w).
Proof.
  destruct st as [segments cur].
  intros Htidy. pose proof Htidy as (Hcur & Hon & Htext & Hsorted & Hbefore).
  unfold word_step.
  destruct (Qle_bool (seg_end cur) (w_start w)) eqn:E.
  - apply Qle_bool_iff in E.
    destruct (tidy_push _ _ Htidy) as (Hon' & Htext' & Hsorted').
    destruct Hcur as (k & Hk & Hslot).
    pose proof (on_slot_width _ _ Hslot) as Hwidth.
    destruct Hslot as [Hs He].
    assert (Hnext : (k + 1 <= Qfloor (w_start w / SEGMENT_DURATION))%Z)
      by (apply slot_after; now rewrite <- He).
    cbn [tidy seg_start seg_end seg_text]. repeat split; auto.
    + exists (Qfloor (w_start w / SEGMENT_DURATION)). split; [lia|].
      split; reflexivity.
    + assert (Hjump : (seg_end cur
                       <= inject_Z (Qfloor (w_start w / SEGMENT_DURATION))
                          * SEGMENT_DURATION)%Q).
      { rewrite He. rewrite Zle_Qle, inject_Z_plus in Hnext.
        unfold SEGMENT_DURATION in *. change (inject_Z 1) with 1%Q in Hnext.
        lra. }
      unfold push_if_text. destruct (nonempty (seg_text cur)).
      * apply Forall_app. split.
        -- eapply Forall_impl; [exact Hbefore|]. unfold before.
           cbn [seg_start]. intros s Hsb. lra.
        -- constructor; [|constructor]. exact Hjump.
      * eapply Forall_impl; [exact Hbefore|]. unfold before.
        cbn [seg_start]. intros s Hsb. lra.
  - cbn [tidy seg_start seg_end seg_text]. repeat split; assumption.
Qed.

Lemma tidy_run ws : forall st, tidy st -> tidy (fold_left word_step ws st).
Proof.
  induction ws as [|w ws IH]; intros st H; [exact H|].
  cbn [fold_left]. apply IH. now apply tidy_step.
Qed.

Lemma synthesize_words (a : Alternative) :
  default [] (alt_words a) <> [] ->
  exists segments cur,
    fold_left word_step (default [] (alt_words a))
              ([], mkSegment 0 SEGMENT_DURATION "") = (segments, cur)
    /\ synthesize a = push_if_text segments cur.
Proof.
  intros H. unfold synthesize.
  destruct (default [] (alt_words a)) as [|w ws] eqn:Hw; [congruence|].
  destruct (fold_left word_step (w :: ws) _) as [segments cur].
  eauto.
Qed.

(** Whatever the word timings, the segments built from a non-empty word
    list each cover one whole 5-second slot [5k, 5k+5) with [k >= 0], and
    each ends before the next one starts: they are in increasing order
    and do not overlap. *)
Theorem segments_are_ordered_slots (a : Alternative) :
  default [] (alt_words a) <> [] ->
  Forall covers_a_slot (synthesize a)
  /\ StronglySorted before (synthesize a).
Proof.
  intros H. destruct (synthesize_words a H) as (segments & cur & Hrun & ->).
  pose proof (tidy_run (default [] (alt_words a)) _ tidy_start) as Htidy.
  rewrite Hrun in Htidy.
  destruct (tidy_push _ _ Htidy) as (Hon & _ & Hsorted).
  split; [|exact Hsorted].
  eapply Forall_impl; [exact Hon|].
  intros s (k & Hk & Hslot). eapply on_slot_covers; eauto.
Qed.

(** No segment without text is produced from a non-empty word list,
    whatever the words are. *)
Theorem segments_have_text (a : Alternative) :
  default [] (alt_words a) <> [] ->
  Forall (fun s => nonempty (seg_text s) = true) (synthesize a).
Proof.
  intros H. destruct (synthesize_words a H) as (segments & cur & Hrun & ->).
  pose proof (tidy_run (default [] (alt_words a)) _ tidy_start) as Htidy.
  rewrite Hrun in Htidy.
  now destruct (tidy_push _ _ Htidy) as (_ & Htext & _).
Qed.

End SlotFacts.

Section SlotTextFacts.

Import Js Backend Slots.

Lemma join_snoc (sep : string) (l : list string) (x : string) :
  l <> [] -> join sep (l ++ [x]) = join sep l +:+ sep +:+ x.
Proof.
  induction l as [|a l IH]; intros Hl; [congruence|].
  destruct l as [|b l].
  - reflexivity.
  - change (join sep ((a :: b :: l) ++ [x]))
      with (a +:+ sep +:+ join sep ((b :: l) ++ [x])).
    rewrite IH by discriminate.
    change (join sep (a :: b :: l)) with (a +:+ sep +:+ join sep (b :: l)).
    now rewrite !append_assoc.
Qed.

Lemma join_nonempty (sep : string) (l : list string) :
  l <> [] -> Forall (fun s => nonempty s = true) l -> nonempty (join sep l) = true.
Proof.
  intros Hl H. destruct l as [|a l]; [congruence|].
  apply Forall_cons in H as [Ha _]. destruct l as [|b l]; [exact Ha|].
  change (join sep (a :: b :: l)) with (a +:+ sep +:+ join sep (b :: l)).
  now apply nonempty_app_l.
Qed.

Lemma join_add_word (texts : list string) (c : string) :
  Forall (fun s => nonempty s = true) texts ->
  join " " (texts ++ [c]) = add_word (join " " texts) c.
Proof.
  intros H. destruct texts as [|a l] eqn:E; [reflexivity|]. rewrite <- E in *.
  assert (Hne : texts <> []) by (rewrite E; discriminate).
  rewrite join_snoc by exact Hne.
  unfold add_word. now rewrite (join_nonempty " " texts Hne H).
Qed.

Lemma join_add_word_last (texts : list string) (t c : string) :
  nonempty t = true ->
  Forall (fun s => nonempty s = true) texts ->
  join " " (texts ++ [add_word t c]) = add_word (join " " (texts ++ [t])) c.
Proof.
  intros Ht H. rewrite (add_word_text t c Ht).
  assert (Hall : Forall (fun s => nonempty s = true) (texts ++ [t]))
    by (apply Forall_app; split; [exact H | now constructor]).
  rewrite <- (join_add_word (texts ++ [t]) c Hall).
  destruct texts as [|a l] eqn:E; [reflexivity|]. rewrite <- E in *.
  assert (Hne : texts <> []) by (rewrite E; discriminate).
  rewrite (join_snoc " " texts (t +:+ " " +:+ c) Hne).
  rewrite (join_snoc " " (texts ++ [t]) c)
    by (intros Hnil; apply app_eq_nil in Hnil as [_ Hnil]; discriminate).
  rewrite (join_snoc " " texts t Hne).
  now rewrite !append_assoc.
Qed.

Lemma add_word_nonempty (t c : string) :
  nonempty c = true -> nonempty (add_word t c) = true.
Proof.
  intros Hc. unfold add_word. destruct (nonempty t) eqn:Ht; [|exact Hc].
  now apply nonempty_app_l.
Qed.

Lemma push_if_text_texts segments cur :
  Forall (fun s => nonempty (seg_text s) = true) segments ->
  Forall (fun s => nonempty (seg_text s) = true) (push_if_text segments cur).
Proof.
  intros H. unfold push_if_text. destruct (nonempty (seg_text cur)) eqn:E; [|exact H].
  apply Forall_app. split; [exact H | now constructor].
Qed.

Lemma texts_nonempty (l : list Segment) :
  Forall (fun s => nonempty (seg_text s) = true) l ->
  Forall (fun s => nonempty s = true) (map seg_text l).
Proof. intros H. apply Forall_map. exact H. Qed.

(** What one word adds to the text read off the loop state. *)
Lemma word_step_text segments cur w :
  Forall (fun s => nonempty (seg_text s) = true) segments ->
  nonempty (content w) = true ->
  Forall (fun s => nonempty (seg_text s) = true) (fst (word_step (segments, cur) w))
  /\ join " " (map seg_text (push_if_text (fst (word_step (segments, cur) w))
                                          (snd (word_step (segments, cur) w))))
     = add_word (join " " (map seg_text (push_if_text segments cur))) (content w).
Proof.
  intros Hsegs Hc. unfold word_step.
  destruct (Qle_bool (seg_end cur) (w_start w)); cbn [fst snd].
  - pose proof (push_if_text_texts segments cur Hsegs) as Hpushed.
    split; [exact Hpushed|].
    rewrite (push_if_text_nonempty (push_if_text segments cur))
      by (cbn [seg_text]; exact Hc).
    rewrite map_app. cbn [map seg_text]. rewrite add_word_empty.
    apply join_add_word. now apply texts_nonempty.
  - split; [exact Hsegs|].
    rewrite (push_if_text_nonempty segments)
      by (cbn [seg_text]; now apply add_word_nonempty).
    rewrite map_app. cbn [map seg_text].
    unfold push_if_text at 1. destruct (nonempty (seg_text cur)) eqn:Ht.
    + rewrite map_app. cbn [map]. apply join_add_word_last; [exact Ht|].
      now apply texts_nonempty.
    + destruct (seg_text cur); [|discriminate]. rewrite add_word_empty.
      apply join_add_word. now apply texts_nonempty.
Qed.

Lemma run_text ws :
  Forall (fun w => nonempty (content w) = true) ws ->
  forall segments cur,
    Forall (fun s => nonempty (seg_text s) = true) segments ->
    join " " (map seg_text
                (push_if_text (fst (fold_left word_step ws (segments, cur)))
                              (snd (fold_left word_step ws (segments, cur)))))
    = fold_left add_word (map content ws)
        (join " " (map seg_text (push_if_text segments cur))).
Proof.
  induction 1 as [|w ws Hw Hws IH]; intros segments cur Hsegs; [reflexivity|].
  cbn [fold_left map].
  destruct (word_step_text segments cur w Hsegs Hw) as [Hsegs' Htext].
  destruct (word_step (segments, cur) w) as [segments' cur'].
  cbn [fst snd] in *. rewrite IH by exact Hsegs'. now rewrite Htext.
Qed.

Lemma fold_add_word (cs : list string) :
  Forall (fun c => nonempty c = true) cs ->
  forall texts, Forall (fun s => nonempty s = true) texts ->
    fold_left add_word cs (join " " texts) = join " " (texts ++ cs).
Proof.
  induction 1 as [|c cs Hc Hcs IH]; intros texts Htexts; cbn [fold_left].
  - now rewrite app_nil_r.
  - rewrite <- (join_add_word texts c Htexts).
    rewrite IH by (apply Forall_app; split; [exact Htexts | now constructor]).
    now rewrite <- app_assoc.
Qed.

(** No word is lost, repeated or moved: the texts of the segments, joined
    by spaces, are the words joined by spaces in the order received. *)
Theorem segments_keep_every_word (a : Alternative) :
  default [] (alt_words a) <> [] ->
  Forall (fun w => nonempty (content w) = true) (default [] (alt_words a)) ->
  join " " (map seg_text (synthesize a))
  = join " " (map content (default [] (alt_words a))).
Proof.
  intros Hne Hws.
  destruct (synthesize_words a Hne) as (segments & cur & Hrun & ->).
  pose proof (run_text _ Hws [] (mkSegment 0 SEGMENT_DURATION "")
                (List.Forall_nil _)) as H.
  rewrite Hrun in H. cbn [fst snd] in H. rewrite H.
  change (join " " (map seg_text (push_if_text [] (mkSegment 0 SEGMENT_DURATION ""))))
    with (join " " []).
  rewrite fold_add_word; [reflexivity | | constructor].
  apply Forall_map. exact Hws.
Qed.

End SlotTextFacts.

Section BySlotFacts.

Import Js Backend Slots.

Lemma In_distinct (l : list Z) (j : Z) : In j (distinct l) <-> In j l.
Proof.
  induction l as [|k l IH]; cbn [distinct]; [tauto|].
  cbn [In]. rewrite filter_In, IH.
  destruct (Z.eqb_spec j k) as [->|Hne]; cbn [negb]; split.
  - now left.
  - now left.
  - intros [H|[H _]]; [now left | now right].
  - intros [H|H]; [now left | right; split; [exact H | reflexivity]].
Qed.

Lemma distinct_snoc_new (l : list Z) (x : Z) :
  ~ In x l -> distinct (l ++ [x]) = distinct l ++ [x].
Proof.
  induction l as [|k l IH]; intros H; [reflexivity|].
  cbn [app distinct]. rewrite IH by (intros Hin; apply H; now right).
  rewrite List.filter_app. cbn [List.filter].
  destruct (Z.eqb_spec x k) as [->|Hne]; [exfalso; apply H; now left|].
  reflexivity.
Qed.

Lemma distinct_snoc_old (l : list Z) (x : Z) :
  In x l -> distinct (l ++ [x]) = distinct l.
Proof.
  induction l as [|k l IH]; intros H; [destruct H|].
  cbn [app distinct]. f_equal.
  destruct (in_dec Z.eq_dec x l) as [Hin | Hout].
  - now rewrite IH.
  - destruct H as [->|H]; [|contradiction].
    rewrite distinct_snoc_new by exact Hout.
    rewrite List.filter_app. cbn [List.filter]. rewrite Z.eqb_refl. cbn [negb].
    now rewrite app_nil_r.
Qed.

Lemma words_in_snoc (k : Z) (ws : list Word) (w : Word) :
  words_in k (ws ++ [w])
  = words_in k ws ++ (if (slot_of w =? k)%Z then [w] else []).
Proof. unfold words_in. rewrite List.filter_app. reflexivity. Qed.

Lemma words_in_none (k : Z) (ws : list Word) :
  ~ In k (map slot_of ws) -> words_in k ws = [].
Proof.
  unfold words_in. induction ws as [|w ws IH]; intros H; [reflexivity|].
  cbn [List.filter]. destruct (Z.eqb_spec (slot_of w) k) as [Heq|Hne].
  - exfalso. apply H. now left.
  - apply IH. intros Hin. apply H. now right.
Qed.

Lemma words_in_some (k : Z) (ws : list Word) :
  In k (map slot_of ws) -> words_in k ws <> [].
Proof.
  unfold words_in. induction ws as [|w ws IH]; intros H; [destruct H|].
  cbn [List.filter]. destruct (Z.eqb_spec (slot_of w) k) as [Heq|Hne].
  - discriminate.
  - apply IH. destruct H as [H|H]; [congruence | exact H].
Qed.

Lemma words_in_contents (k : Z) (ws : list Word) :
  Forall (fun w => nonempty (content w) = true) ws ->
  Forall (fun s => nonempty s = true) (map content (words_in k ws)).
Proof.
  intros H. apply Forall_map. unfold words_in.
  rewrite Forall_forall in *. intros w Hw. apply H.
  rewrite list_elem_of_In in *. apply filter_In in Hw. tauto.
Qed.

Lemma seg_for_other (ws : list Word) (w : Word) (k : Z) :
  k <> slot_of w -> seg_for (ws ++ [w]) k = seg_for ws k.
Proof.
  intros H. unfold seg_for. rewrite words_in_snoc.
  destruct (Z.eqb_spec (slot_of w) k); [congruence|]. now rewrite app_nil_r.
Qed.

Lemma seg_for_text_nonempty (ws : list Word) (k : Z) :
  Forall (fun w => nonempty (content w) = true) ws ->
  In k (map slot_of ws) ->
  nonempty (seg_text (seg_for ws k)) = true.
Proof.
  intros Hws Hk. cbn [seg_for slot_segment seg_text].
  apply join_nonempty.
  - intros H. apply map_eq_nil in H. now apply (words_in_some k ws).
  - now apply words_in_contents.
Qed.

Lemma grouped_last_seen (done : list Word) (kl : Z) st :
  grouped done kl st -> In kl (map slot_of done).
Proof.
  destruct st as [segments cur]. intros (ks & Hd & _).
  apply In_distinct. rewrite Hd. apply in_or_app. right. now left.
Qed.

Lemma grouped_bound (done : list Word) (kl : Z) st (k : Z) :
  grouped done kl st -> In k (map slot_of done) -> (k <= kl)%Z.
Proof.
  destruct st as [segments cur]. intros (ks & Hd & Hlt & _) Hk.
  apply In_distinct in Hk. rewrite Hd in Hk.
  apply in_app_or in Hk as [Hk | [<- | []]]; [|lia].
  rewrite Forall_forall in Hlt. rewrite <- list_elem_of_In in Hk.
  specialize (Hlt _ Hk). lia.
Qed.

Lemma grouped_step (done : list Word) (kl : Z) st (w : Word) :
  grouped done kl st ->
  (kl <= slot_of w)%Z ->
  nonempty (content w) = true ->
  grouped (done ++ [w]) (slot_of w) (word_step st w).
Proof.
  intros Hg Hle Hc.
  pose proof (grouped_last_seen _ _ _ Hg) as Hseen.
  pose proof (fun k => grouped_bound _ _ _ k Hg) as Hbound.
  destruct st as [segments cur].
  destruct Hg as (ks & Hd & Hlt & Hsegs & Hcur & Hdone).
  assert (Hdone' : Forall (fun w => nonempty (content w) = true) (done ++ [w]))
    by (apply Forall_app; split; [exact Hdone | now constructor]).
  assert (Htext : nonempty (seg_text cur) = true)
    by (rewrite Hcur; now apply seg_for_text_nonempty).
  unfold word_step.
  destruct (Qle_bool (seg_end cur) (w_start w)) eqn:E.
  - apply Qle_bool_iff in E.
    assert (Hnew : (kl + 1 <= slot_of w)%Z).
    { apply slot_after. rewrite Hcur in E. exact E. }
    assert (Hfresh : ~ In (slot_of w) (map slot_of done)).
    { intros Hin. specialize (Hbound _ Hin). lia. }
    rewrite (push_if_text_nonempty _ _ Htext).
    exists (ks ++ [kl]). rewrite map_app. cbn [map].
    rewrite (distinct_snoc_new _ _ Hfresh), Hd.
    repeat split.
    + apply Forall_app. split.
      * eapply Forall_impl; [exact Hlt|]. intros k Hk. cbn in Hk. lia.
      * constructor; [lia | constructor].
    + rewrite map_app. cbn [map]. rewrite Hsegs, Hcur.
      f_equal.
      * apply map_ext_in. intros k Hk. symmetry. apply seg_for_other.
        rewrite Forall_forall in Hlt. rewrite <- list_elem_of_In in Hk.
        specialize (Hlt _ Hk). cbn in Hlt. lia.
      * f_equal. symmetry. apply seg_for_other. lia.
    + unfold seg_for. rewrite words_in_snoc, Z.eqb_refl.
      rewrite (words_in_none _ _ Hfresh). reflexivity.
    + exact Hdone'.
  - assert (E' : (w_start w < seg_end cur)%Q).
    { apply Qnot_le_lt. intros H. apply Qle_bool_iff in H. congruence. }
    assert (Hsame : slot_of w = kl).
    { apply Z.le_antisymm; [|exact Hle].
      apply slot_within. rewrite Hcur in E'. exact E'. }
    rewrite Hsame in *.
    exists ks. rewrite map_app. cbn [map]. rewrite Hsame.
    rewrite (distinct_snoc_old _ _ Hseen).
    repeat split; auto.
    + rewrite Hsegs. apply map_ext_in. intros k Hk. symmetry.
      apply seg_for_other. rewrite Hsame.
      rewrite Forall_forall in Hlt. rewrite <- list_elem_of_In in Hk.
      specialize (Hlt _ Hk). cbn in Hlt. lia.
    + rewrite (add_word_text _ _ Htext). rewrite Hcur.
      unfold seg_for, slot_segment. cbn [seg_start seg_end seg_text].
      rewrite words_in_snoc, Hsame, Z.eqb_refl, map_app. cbn [map].
      rewrite join_snoc; [reflexivity|].
      intros H. apply map_eq_nil in H. now apply (words_in_some kl done).
Qed.

Lemma grouped_first (w : Word) :
  (0 <= w_start w)%Q ->
  nonempty (content w) = true ->
  grouped [w] (slot_of w) (word_step ([], mkSegment 0 SEGMENT_DURATION "") w).
Proof.
  intros Hstart Hc. unfold word_step. cbn [seg_end seg_start seg_text].
  assert (Hself : seg_for [w] (slot_of w) = slot_segment (slot_of w) (content w)).
  { unfold seg_for, words_in. cbn [List.filter]. now rewrite Z.eqb_refl. }
  destruct (Qle_bool SEGMENT_DURATION (w_start w)) eqn:E.
  - exists []. cbn [push_if_text seg_text nonempty map distinct List.filter app].
    rewrite add_word_empty, Hself. repeat split; auto.
  - assert (E' : (w_start w < SEGMENT_DURATION)%Q).
    { apply Qnot_le_lt. intros H. apply Qle_bool_iff in H. congruence. }
    assert (Hzero : slot_of w = 0%Z).
    { apply Z.le_antisymm; [|now apply slot_nonneg].
      apply slot_within. change (inject_Z 0 * SEGMENT_DURATION + SEGMENT_DURATION)%Q
        with (0 * 5 + 5)%Q. unfold SEGMENT_DURATION in E'. lra. }
    exists []. cbn [map distinct List.filter app].
    rewrite add_word_empty, Hself, Hzero. repeat split; auto.
Qed.

Lemma grouped_run (ws : list Word) :
  forall (done : list Word) (kl : Z) st,
    grouped done kl st ->
    Sorted Z.le (kl :: map slot_of ws) ->
    Forall (fun w => nonempty (content w) = true) ws ->
    exists kl', grouped (done ++ ws) kl' (fold_left word_step ws st).
Proof.
  induction ws as [|w ws IH]; intros done kl st Hg Hsorted Hws.
  - exists kl. now rewrite app_nil_r.
  - apply Forall_cons in Hws as [Hw Hws].
    cbn [map] in Hsorted. apply Sorted_inv in Hsorted as [Hsorted Hhd].
    apply HdRel_inv in Hhd.
    cbn [fold_left].
    destruct (IH (done ++ [w]) (slot_of w) (word_step st w)) as [kl' Hg'].
    + now apply (grouped_step done kl).
    + exact Hsorted.
    + exact Hws.
    + exists kl'. now rewrite <- app_assoc in Hg'.
Qed.

Lemma slots_sorted (ws : list Word) :
  Sorted (fun a b => (w_start a <= w_start b)%Q) ws ->
  Sorted Z.le (map slot_of ws).
Proof.
  induction 1 as [|w ws Hs IH Hhd]; cbn [map]; constructor; [exact IH|].
  destruct Hhd as [|w' ws' Hle]; cbn [map]; constructor.
  unfold slot_of. apply Qfloor_resp_le. unfold Qdiv.
  apply Qmult_le_compat_r; [exact Hle|]. apply Qinv_le_0_compat.
  unfold SEGMENT_DURATION. lra.
Qed.

(** When the words come in the order of their start times, every word
    ends up in the segment of the slot it starts in: there is one segment
    per slot in which a word starts, in slot order, and its text is the
    words starting in that slot joined by spaces. *)
Theorem ordered_words_fill_their_slots (a : Alternative) :
  default [] (alt_words a) <> [] ->
  in_time_order (default [] (alt_words a)) ->
  Forall (fun w => nonempty (content w) = true) (default [] (alt_words a)) ->
  synthesize a = by_slot (default [] (alt_words a)).
Proof.
  intros Hne [Hpos Hsorted] Hws.
  destruct (synthesize_words a Hne) as (segments & cur & Hrun & ->).
  destruct (default [] (alt_words a)) as [|w ws]; [congruence|].
  apply Forall_cons in Hpos as [Hstart _].
  apply Forall_cons in Hws as [Hw Hws].
  cbn [fold_left] in Hrun.
  destruct (grouped_run ws [w] (slot_of w) _ (grouped_first w Hstart Hw))
    as [kl Hg].
  - apply (slots_sorted (w :: ws) Hsorted).
  - exact Hws.
  - cbn [app] in Hg. rewrite Hrun in Hg.
    pose proof (grouped_last_seen _ _ _ Hg) as Hseen.
    destruct Hg as (ks & Hd & _ & Hsegs & Hcur & Hdone).
    rewrite push_if_text_nonempty
      by (rewrite Hcur; now apply seg_for_text_nonempty).
    unfold by_slot. rewrite Hd, map_app, Hsegs, Hcur. reflexivity.
Qed.

End BySlotFacts.

(** ** The identifier extractors side by side *)

Section UrlFacts.

Import Js VideoId Urls.

Lemma take_all (s : string) : take (String.length s) s = s.
Proof. induction s as [|c s IH]; cbn [String.length take]; [reflexivity | now rewrite IH]. Qed.

Lemma take_id_exact (id : string) :
  valid_id id -> take_id 11 id = Some id.
Proof.
  intros [Hlen Hall]. rewrite take_id_run; [|exact Hall | lia].
  rewrite <- Hlen. now rewrite take_all.
Qed.

Lemma match_here_exact (prefix id : string) :
  In prefix recognized_prefixes -> valid_id id ->
  match_here (prefix +:+ id) = Some id.
Proof.
  intros Hin [Hlen Hall]. rewrite match_here_run; [|exact Hin | exact Hall | lia].
  rewrite <- Hlen. now rewrite take_all.
Qed.

Lemma server_accepts (lead prefix id : string) :
  plain_lead lead = true -> In prefix recognized_prefixes -> valid_id id ->
  extractVideoId (lead +:+ prefix +:+ id) = Some id.
Proof.
  intros Hlead Hin Hid. rewrite extractVideoId_regex, regex_group1_skip by exact Hlead.
  apply regex_group1_here. now apply match_here_exact.
Qed.

Lemma dot_star_exact (id : string) :
  valid_id id -> dot_star v_eq_id ("v=" +:+ id) = Some id.
Proof.
  intros Hid. pose proof Hid as [Hlen Hall].
  change ("v=" +:+ id) with (String "v" (String "=" id)).
  cbn [dot_star]. rewrite (dot_star_in_run _ Hall).
  change (is_line_terminator "v") with false.
  change (is_line_terminator "=") with false. cbv iota.
  change (v_eq_id (String "=" id)) with (@None string).
  change (v_eq_id (String "v" (String "=" id))) with (take_id 11 id).
  now apply take_id_exact.
Qed.

Lemma bg_watch_canonical (id : string) :
  valid_id id ->
  bg_watch ("https://www.youtube.com/watch?v=" +:+ id)
  = Some (mkGroups (Some "www.") (Some id)).
Proof.
  intros Hid.
  change ("https://www.youtube.com/watch?v=" +:+ id)
    with ("http" +:+ "s" +:+ "://" +:+ "www." +:+ "youtube.com/watch?"
          +:+ "v=" +:+ id).
  unfold bg_watch, after_scheme. rewrite strip_prefix_app.
  unfold opt. rewrite strip_prefix_app. cbv beta. rewrite strip_prefix_app.
  unfold opt_group. rewrite strip_prefix_app. rewrite strip_prefix_app.
  rewrite (dot_star_exact id Hid). reflexivity.
Qed.

Lemma search_query_skip (lead s : string) :
  all_chars (fun c => negb (Ascii.eqb c "?" || Ascii.eqb c "&")) lead = true ->
  search query_v (lead +:+ s) = search query_v s.
Proof.
  induction lead as [|c lead IH]; intros H; [reflexivity|].
  cbn [all_chars] in H. apply andb_true_iff in H as [Hc H].
  apply negb_true_iff in Hc.
  change (String c lead +:+ s) with (String c (lead +:+ s)).
  cbn [search query_v]. rewrite Hc. now apply IH.
Qed.

(** The canonical URL built for an identifier is recognized by each of
    the four extractors of the repository, and each gives the identifier
    back. *)
Theorem canonical_url_round_trip (id : string) :
  valid_id id ->
  extractVideoId (buildYouTubeUrl id) = Some id
  /\ extractVideoIdFromUrl (buildYouTubeUrl id) = Some id
  /\ bg_extractVideoId (buildYouTubeUrl id) = Some id
  /\ content_extractVideoId (buildYouTubeUrl id) = Some id
  /\ isValidYouTubeUrl (buildYouTubeUrl id) = true
  /\ isYouTubeVideoUrl (buildYouTubeUrl id) = true.
Proof.
  intros Hid.
  assert (Hserver : extractVideoId (buildYouTubeUrl id) = Some id).
  { apply (server_accepts "https://www." "youtube.com/watch?v=" id);
      [reflexivity | now left | exact Hid]. }
  assert (Hutils : extractVideoIdFromUrl (buildYouTubeUrl id) = Some id)
    by now rewrite extractVideoIdFromUrl_same.
  assert (Hbg : bg_extractVideoId (buildYouTubeUrl id) = Some id).
  { unfold bg_extractVideoId, buildYouTubeUrl.
    change (nonempty ("https://www.youtube.com/watch?v=" +:+ id)) with true.
    cbv iota. unfold YOUTUBE_PATTERNS. cbn [bg_scan].
    rewrite (bg_watch_canonical id Hid). cbn [group2 group1 truthy].
    now rewrite (valid_id_nonempty id Hid). }
  assert (Hcontent : content_extractVideoId (buildYouTubeUrl id) = Some id).
  { unfold content_extractVideoId, buildYouTubeUrl, VIDEO_ID_PATTERNS.
    cbn [scan].
    change ("https://www.youtube.com/watch?v=" +:+ id)
      with ("https://www.youtube.com/watch" +:+ String "?" ("v=" +:+ id)).
    rewrite search_query_skip by reflexivity.
    cbn [search query_v]. change (Ascii.eqb "?" "?") with true. cbn [orb].
    unfold v_eq_id. rewrite strip_prefix_app, (take_id_exact id Hid).
    now rewrite (valid_id_nonempty id Hid). }
  unfold isValidYouTubeUrl, isYouTubeVideoUrl. rewrite Hutils, Hbg.
  repeat split; assumption.
Qed.

Lemma canonical_url_round_trip_witness :
  content_extractVideoId (buildYouTubeUrl "dQw4w9WgXcQ") = Some "dQw4w9WgXcQ".
Proof.
  apply (canonical_url_round_trip "dQw4w9WgXcQ").
  split; reflexivity.
Defined.

End UrlFacts.

Section BackgroundFacts.

Import Js VideoId Urls.

Lemma strip_prefix_inv (lit s rest : string) :
  strip_prefix lit s = Some rest -> s = lit +:+ rest.
Proof.
  revert s. induction lit as [|a lit IH]; intros s H; cbn [strip_prefix] in H.
  - inversion H; subst. reflexivity.
  - destruct s as [|b s]; [discriminate|].
    destruct (Ascii.eqb_spec a b) as [->|Hne]; [|discriminate].
    change (String b lit +:+ rest) with (String b (lit +:+ rest)).
    f_equal. now apply IH.
Qed.

Lemma after_scheme_inv {A} (k : string -> option A) (s : string) (x : A) :
  after_scheme k s = Some x ->
  exists lead rest,
    s = lead +:+ rest /\ (lead = "http://" \/ lead = "https://")
    /\ k rest = Some x.
Proof.
  unfold after_scheme, opt.
  destruct (strip_prefix "http" s) as [r0|] eqn:H0; [|discriminate].
  apply strip_prefix_inv in H0. subst s.
  destruct (strip_prefix "s" r0) as [r1|] eqn:H1.
  - apply strip_prefix_inv in H1. subst r0.
    destruct (strip_prefix "://" r1) as [r2|] eqn:H2.
    + apply strip_prefix_inv in H2. subst r1.
      destruct (k r2) as [y|] eqn:Hk.
      * intros H; inversion H; subst. exists "https://", r2. auto.
      * change (strip_prefix "://" ("s" +:+ "://" +:+ r2)) with (@None string).
        discriminate.
    + change (strip_prefix "://" ("s" +:+ r1)) with (@None string). discriminate.
  - destruct (strip_prefix "://" r0) as [r2|] eqn:H2; [|discriminate].
    apply strip_prefix_inv in H2. subst r0.
    intros H. exists "http://", r2. auto.
Qed.

Lemma opt_group_inv {A} (lit : string) (k : option string -> string -> option A)
    (s : string) (x : A) :
  opt_group lit k s = Some x ->
  (exists rest, s = lit +:+ rest /\ k (Some lit) rest = Some x)
  \/ k None s = Some x.
Proof.
  unfold opt_group.
  destruct (strip_prefix lit s) as [rest|] eqn:H; [|now right].
  apply strip_prefix_inv in H. subst s.
  destruct (k (Some lit) rest) as [y|] eqn:Hk; [|now right].
  intros Hx; inversion Hx; subst. left. eauto.
Qed.

(** What a successful match of a background pattern says about the URL. *)
Lemma bg_watch_inv (url : string) (m : Groups) :
  bg_watch url = Some m ->
  exists lead rest id,
    url = lead +:+ "youtube.com/watch?" +:+ rest
    /\ plain_lead lead = true
    /\ dot_star v_eq_id rest = Some id
    /\ group2 m = Some id.
Proof.
  unfold bg_watch. intros H.
  apply after_scheme_inv in H as (lead & r & -> & Hlead & H).
  apply opt_group_inv in H as [(r' & -> & H) | H].
  - destruct (strip_prefix "youtube.com/watch?" r') as [r2|] eqn:H2; [|discriminate].
    apply strip_prefix_inv in H2. subst r'.
    destruct (dot_star v_eq_id r2) as [id|] eqn:Hid; [|discriminate].
    inversion H; subst m. exists (lead +:+ "www."), r2, id.
    rewrite append_assoc. repeat split; auto.
    destruct Hlead as [-> | ->]; reflexivity.
  - destruct (strip_prefix "youtube.com/watch?" r) as [r2|] eqn:H2; [|discriminate].
    apply strip_prefix_inv in H2. subst r.
    destruct (dot_star v_eq_id r2) as [id|] eqn:Hid; [|discriminate].
    inversion H; subst m. exists lead, r2, id. repeat split; auto.
    destruct Hlead as [-> | ->]; reflexivity.
Qed.

Lemma bg_short_inv (url : string) (m : Groups) :
  bg_short url = Some m ->
  exists lead rest id,
    url = lead +:+ "youtu.be/" +:+ rest
    /\ plain_lead lead = true
    /\ take_id 11 rest = Some id
    /\ group1 m = Some id /\ group2 m = None.
Proof.
  unfold bg_short. intros H.
  apply after_scheme_inv in H as (lead & r & -> & Hlead & H).
  destruct (strip_prefix "youtu.be/" r) as [r2|] eqn:H2; [|discriminate].
  apply strip_prefix_inv in H2. subst r.
  destruct (take_id 11 r2) as [id|] eqn:Hid; [|discriminate].
  inversion H; subst m. exists lead, r2, id. repeat split; auto.
  destruct Hlead as [-> | ->]; reflexivity.
Qed.

Lemma bg_path_inv (path url : string) (m : Groups) :
  bg_path path url = Some m ->
  exists lead rest id,
    url = lead +:+ path +:+ rest
    /\ plain_lead lead = true
    /\ take_id 11 rest = Some id
    /\ group2 m = Some id.
Proof.
  unfold bg_path. intros H.
  apply after_scheme_inv in H as (lead & r & -> & Hlead & H).
  apply opt_group_inv in H as [(r' & -> & H) | H].
  - destruct (strip_prefix path r') as [r2|] eqn:H2; [|discriminate].
    apply strip_prefix_inv in H2. subst r'.
    destruct (take_id 11 r2) as [id|] eqn:Hid; [|discriminate].
    inversion H; subst m. exists (lead +:+ "www."), r2, id.
    rewrite append_assoc. repeat split; auto.
    destruct Hlead as [-> | ->]; reflexivity.
  - destruct (strip_prefix path r) as [r2|] eqn:H2; [|discriminate].
    apply strip_prefix_inv in H2. subst r.
    destruct (take_id 11 r2) as [id|] eqn:Hid; [|discriminate].
    inversion H; subst m. exists lead, r2, id. repeat split; auto.
    destruct Hlead as [-> | ->]; reflexivity.
Qed.

Lemma server_watch (lead rest id : string) :
  plain_lead lead = true -> dot_star v_eq_id rest = Some id ->
  extractVideoId (lead +:+ "youtube.com/watch?" +:+ rest) = Some id.
Proof.
  intros Hlead Hid. rewrite extractVideoId_regex, regex_group1_skip by exact Hlead.
  apply regex_group1_here. unfold match_here. cbn [first_some].
  unfold alt_watch. now rewrite strip_prefix_app, Hid.
Qed.

Lemma server_short (lead rest id : string) :
  plain_lead lead = true -> take_id 11 rest = Some id ->
  extractVideoId (lead +:+ "youtu.be/" +:+ rest) = Some id.
Proof.
  intros Hlead Hid. rewrite extractVideoId_regex, regex_group1_skip by exact Hlead.
  apply regex_group1_here. unfold match_here.
  cbn [first_some map literal_prefixes].
  change (alt_watch ("youtu.be/" +:+ rest)) with (@None string).
  unfold alt_lit. now rewrite strip_prefix_app, Hid.
Qed.

Lemma server_embed (lead rest id : string) :
  plain_lead lead = true -> take_id 11 rest = Some id ->
  extractVideoId (lead +:+ "youtube.com/embed/" +:+ rest) = Some id.
Proof.
  intros Hlead Hid. rewrite extractVideoId_regex, regex_group1_skip by exact Hlead.
  apply regex_group1_here. unfold match_here.
  cbn [first_some map literal_prefixes].
  change (alt_watch ("youtube.com/embed/" +:+ rest)) with (@None string).
  change (alt_lit "youtu.be/" ("youtube.com/embed/" +:+ rest)) with (@None string).
  unfold alt_lit. now rewrite strip_prefix_app, Hid.
Qed.

Lemma server_shorts (lead rest id : string) :
  plain_lead lead = true -> take_id 11 rest = Some id ->
  extractVideoId (lead +:+ "youtube.com/shorts/" +:+ rest) = Some id.
Proof.
  intros Hlead Hid. rewrite extractVideoId_regex, regex_group1_skip by exact Hlead.
  apply regex_group1_here. unfold match_here.
  cbn [first_some map literal_prefixes].
  change (alt_watch ("youtube.com/shorts/" +:+ rest)) with (@None string).
  change (alt_lit "youtu.be/" ("youtube.com/shorts/" +:+ rest)) with (@None string).
  change (alt_lit "youtube.com/embed/" ("youtube.com/shorts/" +:+ rest))
    with (@None string).
  unfold alt_lit. now rewrite strip_prefix_app, Hid.
Qed.

Lemma dot_star_valid (rest id : string) :
  dot_star v_eq_id rest = Some id -> valid_id id.
Proof.
  intros H. apply dot_star_some in H as [t Ht]. eapply v_eq_id_valid; eauto.
Qed.

Lemma background_server_helper (url id : string) :
  bg_extractVideoId url = Some id ->
  extractVideoId url = Some id /\ valid_id id.
Proof.
  intros H.
  unfold bg_extractVideoId in H. destruct (nonempty url); [|discriminate].
  unfold YOUTUBE_PATTERNS in H. cbn [bg_scan] in H.
  destruct (bg_watch url) as [m|] eqn:H0.
  { apply bg_watch_inv in H0 as (lead & rest & i & -> & Hlead & Hi & Hg).
    pose proof (dot_star_valid _ _ Hi) as Hv.
    rewrite Hg in H. cbn [truthy] in H. rewrite (valid_id_nonempty i Hv) in H.
    inversion H; subst i. split; [now apply server_watch | exact Hv]. }
  destruct (bg_short url) as [m|] eqn:H1.
  { apply bg_short_inv in H1 as (lead & rest & i & -> & Hlead & Hi & Hg1 & Hg2).
    pose proof (take_id_valid _ _ _ Hi) as Hv.
    rewrite Hg2, Hg1 in H. cbn [truthy] in H.
    inversion H; subst i. split; [now apply server_short | exact Hv]. }
  destruct (bg_path "youtube.com/embed/" url) as [m|] eqn:H2.
  { apply bg_path_inv in H2 as (lead & rest & i & -> & Hlead & Hi & Hg).
    pose proof (take_id_valid _ _ _ Hi) as Hv.
    rewrite Hg in H. cbn [truthy] in H. rewrite (valid_id_nonempty i Hv) in H.
    inversion H; subst i. split; [now apply server_embed | exact Hv]. }
  destruct (bg_path "youtube.com/shorts/" url) as [m|] eqn:H3; [|discriminate].
  apply bg_path_inv in H3 as (lead & rest & i & -> & Hlead & Hi & Hg).
  pose proof (take_id_valid _ _ _ Hi) as Hv.
  rewrite Hg in H. cbn [truthy] in H. rewrite (valid_id_nonempty i Hv) in H.
  inversion H; subst i. split; [now apply server_shorts | exact Hv].
Qed.

(** Whatever the extension's background script takes for a video, the
    server takes for the same video: a URL it recognizes is recognized by
    the server's extractor and by the one of [utils.js], with the same
    identifier of eleven valid characters. *)
Theorem background_agrees_with_server (url id : string) :
  bg_extractVideoId url = Some id ->
  extractVideoId url = Some id
  /\ extractVideoIdFromUrl url = Some id
  /\ valid_id id.
Proof.
  intros H. destruct (background_server_helper url id H) as [Hs Hv].
  rewrite extractVideoIdFromUrl_same. auto.
Qed.

Lemma background_agrees_with_server_witness :
  extractVideoId "http://youtube.com/shorts/dQw4w9WgXcQ?feature=share"
  = Some "dQw4w9WgXcQ".
Proof.
  apply (background_agrees_with_server
           "http://youtube.com/shorts/dQw4w9WgXcQ?feature=share" "dQw4w9WgXcQ").
  reflexivity.
Defined.

Lemma bg_short_exact (id : string) :
  valid_id id ->
  bg_short ("https://youtu.be/" +:+ id) = Some (mkGroups (Some id) None).
Proof.
  intros Hid.
  change ("https://youtu.be/" +:+ id)
    with ("http" +:+ "s" +:+ "://" +:+ "youtu.be/" +:+ id).
  unfold bg_short, after_scheme. rewrite strip_prefix_app.
  unfold opt. rewrite strip_prefix_app. cbv beta. rewrite strip_prefix_app.
  rewrite strip_prefix_app. now rewrite (take_id_exact id Hid).
Qed.

Lemma bg_path_exact (path id : string) :
  valid_id id ->
  bg_path path ("https://www." +:+ path +:+ id)
  = Some (mkGroups (Some "www.") (Some id)).
Proof.
  intros Hid.
  change ("https://www." +:+ path +:+ id)
    with ("http" +:+ "s" +:+ "://" +:+ "www." +:+ path +:+ id).
  unfold bg_path, after_scheme. rewrite strip_prefix_app.
  unfold opt. rewrite strip_prefix_app. cbv beta. rewrite strip_prefix_app.
  unfold opt_group. rewrite strip_prefix_app. rewrite strip_prefix_app.
  now rewrite (take_id_exact id Hid).
Qed.

(** The four URL shapes of one video (watch, short link, embed, shorts)
    all give the same identifier, on the server and in the extension. *)
Theorem url_shapes_give_one_id (id : string) :
  valid_id id ->
  Forall (fun url =>
            extractVideoId url = Some id
            /\ extractVideoIdFromUrl url = Some id
            /\ bg_extractVideoId url = Some id)
         (url_shapes id).
Proof.
  intros Hid. pose proof (valid_id_nonempty id Hid) as Hne.
  assert (Hbg : Forall (fun url => bg_extractVideoId url = Some id) (url_shapes id)).
  { unfold url_shapes.
    repeat apply Forall_cons_2; [| | | |constructor]; unfold bg_extractVideoId.
    - change (nonempty ("https://www.youtube.com/watch?v=" +:+ id)) with true.
      cbv iota. unfold YOUTUBE_PATTERNS. cbn [bg_scan].
      rewrite (bg_watch_canonical id Hid). cbn [group2 group1 truthy].
      now rewrite Hne.
    - change (nonempty ("https://youtu.be/" +:+ id)) with true.
      cbv iota. unfold YOUTUBE_PATTERNS. cbn [bg_scan].
      change (bg_watch ("https://youtu.be/" +:+ id)) with (@None Groups).
      cbv iota. rewrite (bg_short_exact id Hid). reflexivity.
    - change (nonempty ("https://www.youtube.com/embed/" +:+ id)) with true.
      cbv iota. unfold YOUTUBE_PATTERNS. cbn [bg_scan].
      change (bg_watch ("https://www.youtube.com/embed/" +:+ id))
        with (@None Groups).
      change (bg_short ("https://www.youtube.com/embed/" +:+ id))
        with (@None Groups).
      cbv iota.
      change ("https://www.youtube.com/embed/" +:+ id)
        with ("https://www." +:+ "youtube.com/embed/" +:+ id).
      rewrite (bg_path_exact "youtube.com/embed/" id Hid).
      cbn [group2 group1 truthy]. now rewrite Hne.
    - change (nonempty ("https://www.youtube.com/shorts/" +:+ id)) with true.
      cbv iota. unfold YOUTUBE_PATTERNS. cbn [bg_scan].
      change (bg_watch ("https://www.youtube.com/shorts/" +:+ id))
        with (@None Groups).
      change (bg_short ("https://www.youtube.com/shorts/" +:+ id))
        with (@None Groups).
      change (bg_path "youtube.com/embed/"
                      ("https://www.youtube.com/shorts/" +:+ id))
        with (@None Groups).
      cbv iota.
      change ("https://www.youtube.com/shorts/" +:+ id)
        with ("https://www." +:+ "youtube.com/shorts/" +:+ id).
      rewrite (bg_path_exact "youtube.com/shorts/" id Hid).
      cbn [group2 group1 truthy]. now rewrite Hne. }
  eapply Forall_impl; [exact Hbg|].
  intros url Hurl. cbn beta.
  destruct (background_server_helper url id Hurl) as [Hs _].
  rewrite extractVideoIdFromUrl_same. auto.
Qed.

Lemma url_shapes_give_one_id_witness :
  Forall (fun url =>
            extractVideoId url = Some "dQw4w9WgXcQ"
            /\ extractVideoIdFromUrl url = Some "dQw4w9WgXcQ"
            /\ bg_extractVideoId url = Some "dQw4w9WgXcQ")
         (url_shapes "dQw4w9WgXcQ").
Proof.
  apply (url_shapes_give_one_id "dQw4w9WgXcQ"). split; reflexivity.
Defined.

End BackgroundFacts.

(** ** Text, file-name and time helpers *)

Section TextUtilsFacts.

Import Js TextUtils.

Lemma length_append (a b : string) :
  String.length (a +:+ b) = (String.length a + String.length b)%nat.
Proof.
  induction a as [|c a IH]; [reflexivity|].
  change (String c a +:+ b) with (String c (a +:+ b)).
  cbn [String.length]. now rewrite IH.
Qed.

Lemma length_take (n : nat) (s : string) :
  String.length (take n s) = Nat.min n (String.length s).
Proof.
  revert s. induction n as [|n IH]; intros [|c s]; cbn [take String.length];
    try reflexivity.
  now rewrite IH.
Qed.

Lemma take_take (n m : nat) (s : string) :
  (n <= m)%nat -> take n (take m s) = take n s.
Proof.
  revert m s. induction n as [|n IH]; intros m s H.
  - destruct (take m s); reflexivity.
  - destruct m as [|m]; [lia|]. destruct s as [|c s]; [reflexivity|].
    cbn [take]. rewrite IH by lia. reflexivity.
Qed.

Lemma take_app_l (n : nat) (a b : string) :
  (n <= String.length a)%nat -> take n (a +:+ b) = take n a.
Proof.
  revert a. induction n as [|n IH]; intros a H.
  - destruct a as [|c a]; [reflexivity|].
    change (String c a +:+ b) with (String c (a +:+ b)). reflexivity.
  - destruct a as [|c a]; [cbn in H; lia|].
    change (String c a +:+ b) with (String c (a +:+ b)).
    cbn [take]. rewrite IH by (cbn in H; lia). reflexivity.
Qed.

(** With room for the ellipsis ([maxLength >= 3]) the result never exceeds
    [maxLength] characters: a text that fits is returned as it is, a
    longer one is cut to its first [maxLength - 3] characters followed by
    three dots.  Below 3 there is no room: a longer text becomes the three
    dots alone, which is longer than asked for (the empty text is always
    returned as it is). *)
Theorem truncateText_fits (text : string) (maxLength : Z) :
  ((Z.of_nat (String.length text) <= maxLength)%Z -> truncateText text maxLength = text)
  /\ ((3 <= maxLength)%Z ->
      (Z.of_nat (String.length (truncateText text maxLength)) <= maxLength)%Z)
  /\ ((3 <= maxLength < Z.of_nat (String.length text))%Z ->
      truncateText text maxLength
      = take (Z.to_nat (maxLength - 3)) text +:+ "..."
      /\ Z.of_nat (String.length (truncateText text maxLength)) = maxLength)
  /\ (text <> "" ->
      (maxLength < 3)%Z -> (maxLength < Z.of_nat (String.length text))%Z ->
      truncateText text maxLength = "...").
Proof.
  unfold truncateText, substring0.
  assert (Hcut : (3 <= maxLength < Z.of_nat (String.length text))%Z ->
                 String.length (take (Z.to_nat (maxLength - 3)) text +:+ "...")
                 = Z.to_nat maxLength).
  { intros H. rewrite length_append, length_take. cbn [String.length]. lia. }
  repeat split.
  - intros H. apply Z.leb_le in H. rewrite H. now rewrite orb_true_r.
  - intros H3. destruct (nonempty text) eqn:Hne; cbn [negb orb].
    + destruct (Z.leb_spec (Z.of_nat (String.length text)) maxLength) as [Hle|Hgt].
      * exact Hle.
      * rewrite Hcut by lia. lia.
    + destruct text; [cbn; lia | discriminate].
  - destruct H as [H3 Hgt].
    assert (Hne : nonempty text = true) by (destruct text; [cbn in Hgt; lia | reflexivity]).
    rewrite Hne. cbn [negb orb].
    destruct (Z.leb_spec (Z.of_nat (String.length text)) maxLength); [lia|].
    reflexivity.
  - destruct H as [H3 Hgt].
    assert (Hne : nonempty text = true) by (destruct text; [cbn in Hgt; lia | reflexivity]).
    rewrite Hne. cbn [negb orb].
    destruct (Z.leb_spec (Z.of_nat (String.length text)) maxLength); [lia|].
    rewrite Hcut by lia. lia.
  - intros Htext H3 Hgt.
    assert (Hne : nonempty text = true) by (destruct text; [congruence | reflexivity]).
    rewrite Hne. cbn [negb orb].
    destruct (Z.leb_spec (Z.of_nat (String.length text)) maxLength); [lia|].
    replace (Z.to_nat (maxLength - 3)) with 0%nat by lia.
    destruct text; reflexivity.
Qed.

Lemma truncateText_fits_witness :
  (truncateText "https://www.youtube.com/watch?v=dQw4w9WgXcQ" 20
   = take (Z.to_nat (20 - 3)) "https://www.youtube.com/watch?v=dQw4w9WgXcQ" +:+ "..."
   /\ Z.of_nat (String.length
                  (truncateText "https://www.youtube.com/watch?v=dQw4w9WgXcQ" 20))
      = 20%Z)
  /\ truncateText "https://www.youtube.com/watch?v=dQw4w9WgXcQ" 2 = "...".
Proof.
  split.
  - apply (proj1 (proj2 (proj2 (truncateText_fits
             "https://www.youtube.com/watch?v=dQw4w9WgXcQ" 20)))).
    cbn; lia.
  - apply (proj2 (proj2 (proj2 (truncateText_fits
             "https://www.youtube.com/watch?v=dQw4w9WgXcQ" 2))));
      [discriminate | lia | cbn; lia].
Defined.

(** *** File names *)

Lemma all_chars_take (p : ascii -> bool) (n : nat) (s : string) :
  all_chars p s = true -> all_chars p (take n s) = true.
Proof.
  revert s. induction n as [|n IH]; intros [|c s] H; try reflexivity.
  cbn [take all_chars] in *. apply andb_true_iff in H as [Hc H].
  now rewrite Hc, IH.
Qed.

Lemma remove_forbidden_clean (s : string) :
  all_chars (fun c => negb (is_forbidden c)) (remove_forbidden s) = true.
Proof.
  induction s as [|c s IH]; [reflexivity|]. cbn [remove_forbidden].
  destruct (is_forbidden c) eqn:E; [exact IH|].
  cbn [all_chars]. now rewrite E, IH.
Qed.

Lemma collapse_spaces_safe (b : bool) (s : string) :
  all_chars (fun c => negb (is_forbidden c)) s = true ->
  all_chars is_safe (collapse_spaces b s) = true.
Proof.
  revert b. induction s as [|c s IH]; intros b H; [reflexivity|].
  cbn [all_chars] in H. apply andb_true_iff in H as [Hc H].
  cbn [collapse_spaces]. destruct (is_space c) eqn:E.
  - destruct b; [now apply IH|]. cbn [all_chars]. now rewrite IH.
  - cbn [all_chars]. unfold is_safe at 1. now rewrite Hc, E, IH.
Qed.

Lemma remove_forbidden_id (s : string) :
  all_chars is_safe s = true -> remove_forbidden s = s.
Proof.
  induction s as [|c s IH]; intros H; [reflexivity|].
  cbn [all_chars] in H. apply andb_true_iff in H as [Hc H].
  unfold is_safe in Hc. apply andb_true_iff in Hc as [Hf _].
  apply negb_true_iff in Hf. cbn [remove_forbidden]. now rewrite Hf, IH.
Qed.

Lemma collapse_spaces_id (s : string) :
  all_chars is_safe s = true -> collapse_spaces false s = s.
Proof.
  induction s as [|c s IH]; intros H; [reflexivity|].
  cbn [all_chars] in H. apply andb_true_iff in H as [Hc H].
  unfold is_safe in Hc. apply andb_true_iff in Hc as [_ Hs].
  apply negb_true_iff in Hs. cbn [collapse_spaces]. now rewrite Hs, IH.
Qed.

Lemma take_short (n : nat) (s : string) :
  (String.length s <= n)%nat -> take n s = s.
Proof.
  revert s. induction n as [|n IH]; intros [|c s] H; try reflexivity.
  - cbn in H. lia.
  - cbn [take]. rewrite IH by (cbn in H; lia). reflexivity.
Qed.

(** A sanitized file name has at most 100 characters, none of them one
    the nine
    characters removed (see [is_forbidden]) or white space; a name that already is like that is
    left unchanged, so sanitizing twice changes nothing more. *)
Theorem sanitizeFilename_is_safe (filename : string) :
  (String.length (sanitizeFilename filename) <= 100)%nat
  /\ all_chars is_safe (sanitizeFilename filename) = true
  /\ sanitizeFilename (sanitizeFilename filename) = sanitizeFilename filename
  /\ (all_chars is_safe filename = true ->
      (String.length filename <= 100)%nat ->
      sanitizeFilename filename = filename).
Proof.
  assert (Hlen : forall f, (String.length (sanitizeFilename f) <= 100)%nat).
  { intros f. unfold sanitizeFilename, substring0. rewrite length_take. lia. }
  assert (Hsafe : forall f, all_chars is_safe (sanitizeFilename f) = true).
  { intros f. unfold sanitizeFilename, substring0. apply all_chars_take.
    apply collapse_spaces_safe, remove_forbidden_clean. }
  assert (Hid : forall f, all_chars is_safe f = true ->
                          (String.length f <= 100)%nat -> sanitizeFilename f = f).
  { intros f Hf Hl. unfold sanitizeFilename, substring0.
    rewrite remove_forbidden_id, collapse_spaces_id by assumption.
    apply take_short. exact Hl. }
  repeat split; auto.
Qed.

Lemma sanitizeFilename_is_safe_witness :
  sanitizeFilename "Rick Astley - Never Gonna Give You Up" 
  = "Rick_Astley_-_Never_Gonna_Give_You_Up"
  /\ sanitizeFilename "Rick_Astley" = "Rick_Astley".
Proof.
  split; [reflexivity|].
  apply (proj2 (proj2 (proj2 (sanitizeFilename_is_safe "Rick_Astley")))).
  - reflexivity.
  - cbn; lia.
Defined.

(** *** Times *)

Lemma pretty_N_char_digit (d : N) :
  (d < 10)%N ->
  is_digit (pretty_N_char d) = true /\ (code (pretty_N_char d) - 48)%N = d.
Proof.
  intros H.
  assert (Hd : (d = 0 \/ d = 1 \/ d = 2 \/ d = 3 \/ d = 4 \/ d = 5 \/ d = 6
                \/ d = 7 \/ d = 8 \/ d = 9)%N) by lia.
  repeat (destruct Hd as [Hd|Hd]; [subst d; split; reflexivity|]).
  subst d; split; reflexivity.
Qed.

Lemma digits_value_pretty_go (x : N) :
  exists k : N, forall acc s,
    digits_value acc (pretty_N_go x s) = digits_value (acc * k + x) s.
Proof.
  induction (N.lt_wf_0 x) as [x _ IH].
  destruct (N.eq_dec x 0%N) as [->|Hx].
  - exists 1%N. intros acc s. rewrite pretty_N_go_0. f_equal. lia.
  - destruct (IH (x / 10)%N) as [k Hk].
    { apply N.div_lt; lia. }
    exists (10 * k)%N. intros acc s.
    rewrite pretty_N_go_step by lia. rewrite Hk.
    destruct (pretty_N_char_digit (x mod 10)) as [Hd Hc].
    { apply N.mod_lt. lia. }
    cbn [digits_value]. rewrite Hd, Hc. f_equal.
    pose proof (N.div_mod x 10). lia.
Qed.

Lemma to_number_pretty_N (x : N) : to_number (pretty x) = Some (Z.of_N x).
Proof.
  unfold to_number, pretty, pretty_N.
  destruct (decide (x = 0%N)) as [->|Hx]; [reflexivity|].
  destruct (digits_value_pretty_go x) as [k Hk].
  rewrite Hk. cbn [digits_value option_map]. do 2 f_equal.
Qed.

Lemma to_number_pretty (z : Z) : (0 <= z)%Z -> to_number (pretty z) = Some z.
Proof.
  intros Hz. destruct z as [|p|p]; [reflexivity| |lia].
  change (pretty (Z.pos p)) with (pretty (N.pos p)).
  now rewrite to_number_pretty_N.
Qed.

Lemma to_number_padStart2 (s : string) : to_number (padStart2 s) = to_number s.
Proof.
  unfold padStart2. destruct s as [|c [|c' s]]; reflexivity.
Qed.

Lemma digit_not_colon (c : ascii) : is_digit c = true -> Ascii.eqb c ":" = false.
Proof.
  intros H. destruct (Ascii.eqb_spec c ":") as [->|]; [discriminate | reflexivity].
Qed.

Lemma split_on_number (s rest : string) (v : Z) :
  to_number s = Some v ->
  split_on ":" (s +:+ String ":" rest) = s :: split_on ":" rest.
Proof.
  unfold to_number. generalize 0%N as acc. revert v.
  induction s as [|c s IH]; intros v acc H; [reflexivity|].
  change (String c s +:+ String ":" rest) with (String c (s +:+ String ":" rest)).
  cbn [digits_value] in H. destruct (is_digit c) eqn:Hc; [|discriminate].
  cbn [split_on]. rewrite (digit_not_colon _ Hc), (IH _ _ H). reflexivity.
Qed.

Lemma split_on_last (s : string) (v : Z) :
  to_number s = Some v -> split_on ":" s = [s].
Proof.
  unfold to_number. generalize 0%N as acc. revert v.
  induction s as [|c s IH]; intros v acc H; [reflexivity|].
  cbn [digits_value] in H. destruct (is_digit c) eqn:Hc; [|discriminate].
  cbn [split_on]. rewrite (digit_not_colon _ Hc), (IH _ _ H). reflexivity.
Qed.

(** Reading back a formatted time gives the number of seconds that was
    formatted, for every whole number of seconds from 0 on, with or
    without an hours part. *)
Theorem parseTime_inverts_formatTime (seconds : Z) :
  (0 <= seconds)%Z -> parseTime (formatTime (Some seconds)) = Some seconds.
Proof.
  intros Hs. unfold formatTime.
  set (hours := (seconds / 3600)%Z).
  set (minutes := (Z.rem seconds 3600 / 60)%Z).
  set (secs := Z.rem seconds 60).
  assert (Hh : (0 <= hours)%Z) by (subst hours; apply Z.div_pos; lia).
  assert (Hr : Z.rem seconds 3600 = (seconds mod 3600)%Z)
    by (apply Z.rem_mod_nonneg; lia).
  assert (Hr' : Z.rem seconds 60 = (seconds mod 60)%Z)
    by (apply Z.rem_mod_nonneg; lia).
  assert (Hm : (0 <= minutes)%Z).
  { subst minutes. rewrite Hr. apply Z.div_pos; [|lia].
    apply Z.mod_pos_bound. lia. }
  assert (Hsec : (0 <= secs)%Z).
  { subst secs. rewrite Hr'. apply Z.mod_pos_bound. lia. }
  assert (Hsum : (hours * 3600 + minutes * 60 + secs = seconds)%Z).
  { subst hours minutes secs. rewrite Hr, Hr'.
    Z.to_euclidean_division_equations. lia. }
  pose proof (to_number_pretty _ Hh) as Nh.
  pose proof (to_number_pretty _ Hm) as Nm.
  pose proof (to_number_pretty _ Hsec) as Ns.
  assert (Npm : to_number (padStart2 (pretty minutes)) = Some minutes)
    by now rewrite to_number_padStart2.
  assert (Nps : to_number (padStart2 (pretty secs)) = Some secs)
    by now rewrite to_number_padStart2.
  unfold parseTime.
  destruct (Z.ltb_spec 0 hours) as [Hpos|Hzero].
  - rewrite nonempty_app_r by (apply nonempty_app_l; reflexivity).
    cbn [negb].
    change (pretty hours +:+ ":" +:+ padStart2 (pretty minutes) +:+ ":"
            +:+ padStart2 (pretty secs))
      with (pretty hours +:+ String ":" (padStart2 (pretty minutes)
            +:+ String ":" (padStart2 (pretty secs)))).
    rewrite (split_on_number _ _ _ Nh), (split_on_number _ _ _ Npm),
      (split_on_last _ _ Nps).
    cbn [map]. rewrite Nh, Npm, Nps. f_equal. exact Hsum.
  - rewrite nonempty_app_r by (apply nonempty_app_l; reflexivity).
    cbn [negb].
    change (pretty minutes +:+ ":" +:+ padStart2 (pretty secs))
      with (pretty minutes +:+ String ":" (padStart2 (pretty secs))).
    rewrite (split_on_number _ _ _ Nm), (split_on_last _ _ Nps).
    cbn [map]. rewrite Nm, Nps. f_equal. lia.
Qed.

Lemma parseTime_inverts_formatTime_witness :
  parseTime (formatTime (Some 5025%Z)) = Some 5025%Z.
Proof. apply parseTime_inverts_formatTime. lia. Defined.

End TextUtilsFacts.

(** ** The Whisper client of the extension *)

Section ApiFacts.

Import Js Api.

Variable fetch : Z -> FetchOutcome.

Lemma traffic_app (l1 l2 : list Effect) :
  traffic (l1 ++ l2) = traffic l1 ++ traffic l2.
Proof. apply List.filter_app. Qed.

(** One pass through the [try] block. *)
Lemma request_spec (attempt : Z) (log : list Effect) :
  exists log', snd (request fetch attempt log) = log' /\
  match fst (request fetch attempt log) with
  | TReturn text =>
      traffic log' = traffic log ++ [Fetch attempt]
      /\ conclusive fetch attempt (Returned text)
  | TContinue =>
      (attempt < MAX_RETRIES)%Z
      /\ exists w, traffic log' = traffic log ++ [Fetch attempt; Sleep w]
                   /\ (no_retry_after fetch ->
                       w = Some (INITIAL_RETRY_DELAY * attempt)%Z
                       \/ w = Some (backoff attempt))
  | TRaise (RWhisper e) =>
      traffic log' = traffic log ++ [Fetch attempt]
      /\ code e <> "MAX_RETRIES_EXCEEDED"
      /\ (retryable e = true -> (MAX_RETRIES <= attempt)%Z)
  | TRaise (RJs e) => traffic log' = traffic log ++ [Fetch attempt]
  end.
Proof.
  eexists; split; [reflexivity|].
  unfold request.
  destruct (fetch attempt) as [r|e] eqn:Hf; cbn [fst snd].
  - destruct (resp_ok r) eqn:Hok.
    + destruct (resp_parsed r) eqn:Hp; cbn [fst snd];
        rewrite !traffic_app; cbn [traffic List.filter]; rewrite ?app_nil_r.
      * split; [reflexivity|]. exists r. auto.
      * reflexivity.
    + destruct (resp_status r =? 401)%Z; cbn [fst snd].
      { rewrite traffic_app. repeat split; discriminate. }
      destruct (resp_status r =? 429)%Z eqn:H429.
      { destruct (Z.ltb_spec attempt MAX_RETRIES); cbn [fst snd].
        - split; [assumption|]. exists (waitTime r attempt).
          rewrite !traffic_app. split; [rewrite <- app_assoc; reflexivity|].
          intros Hno. left. unfold waitTime. now rewrite (Hno _ _ Hf).
        - rewrite traffic_app. repeat split; [discriminate | intros _; assumption]. }
      destruct (resp_status r =? 413)%Z; cbn [fst snd].
      { rewrite traffic_app. repeat split; discriminate. }
      destruct (500 <=? resp_status r)%Z.
      { destruct (Z.ltb_spec attempt MAX_RETRIES); cbn [fst snd].
        - split; [assumption|]. exists (Some (backoff attempt)).
          rewrite !traffic_app. split; [rewrite <- app_assoc; reflexivity|].
          intros _. now right.
        - rewrite traffic_app. repeat split; [discriminate | intros _; assumption]. }
      cbn [fst snd]. rewrite traffic_app. repeat split; discriminate.
  - rewrite traffic_app. reflexivity.
Qed.

(** One pass through the loop body. *)
Lemma iteration (fuel : nat) (attempt : Z) (lastError : option WhisperAPIError)
    (log : list Effect) :
  (attempt <= MAX_RETRIES)%Z ->
  (exists out log',
      attempts fetch (S fuel) attempt lastError log = (out, log')
      /\ traffic log' = traffic log ++ [Fetch attempt]
      /\ conclusive fetch attempt out)
  \/ ((attempt < MAX_RETRIES)%Z
      /\ exists w lastError' log',
           attempts fetch (S fuel) attempt lastError log
           = attempts fetch fuel (attempt + 1)%Z lastError' log'
           /\ traffic log' = traffic log ++ [Fetch attempt; Sleep w]
           /\ (no_retry_after fetch ->
               w = Some (INITIAL_RETRY_DELAY * attempt)%Z
               \/ w = Some (backoff attempt)))
  \/ ((MAX_RETRIES <= attempt)%Z
      /\ exists e log',
           attempts fetch (S fuel) attempt lastError log
           = attempts fetch fuel (attempt + 1)%Z (Some e) log'
           /\ traffic log' = traffic log ++ [Fetch attempt]
           /\ retryable e = true
           /\ code e <> "MAX_RETRIES_EXCEEDED").
Proof.
  intros Hle. cbn [attempts].
  apply Z.leb_le in Hle. rewrite Hle. apply Z.leb_le in Hle.
  destruct (request_spec attempt log) as (log' & Hlog & Hreq).
  destruct (request fetch attempt log) as [e l]. cbn [fst snd] in *. subst l.
  destruct e as [text| |[e|e]].
  - left. exists (Returned text), log'. destruct Hreq. auto.
  - right; left. destruct Hreq as (Hlt & w & Ht & Hw).
    split; [assumption|]. exists w, lastError, log'. auto.
  - destruct Hreq as (Ht & Hc & Hr). unfold recover.
    destruct (retryable e) eqn:Hretry; cbn [negb].
    + right; right. split; [auto|]. exists e, log'. auto.
    + left. exists (Thrown (RWhisper e)), log'.
      repeat split; auto. rewrite Hretry. discriminate.
  - unfold recover. destruct (is_fetch_type_error e) eqn:Hn.
    + destruct (Z.ltb_spec attempt MAX_RETRIES).
      * right; left. split; [assumption|].
        exists (Some (backoff attempt)), (Some (mkError "NETWORK_ERROR" true)),
          (log' ++ [Progress "retrying"; Sleep (Some (backoff attempt))]).
        split; [reflexivity|]. split.
        -- rewrite traffic_app, Hreq, <- app_assoc. reflexivity.
        -- intros _. now right.
      * left. exists (Thrown (RWhisper (mkError "NETWORK_ERROR" true))), log'.
        repeat split; auto; try discriminate.
    + left. exists (Thrown (RJs e)), log'. auto.
Qed.

(** The whole loop, started as [transcribeAudio] starts it. *)
Lemma run_summary (log0 : list Effect) :
  traffic log0 = [] ->
  exists out log,
    attempts fetch 4 1%Z None log0 = (out, log)
    /\ ((traffic log = [Fetch 1] /\ conclusive fetch 1 out)
        \/ (exists w1,
              traffic log = [Fetch 1; Sleep w1; Fetch 2]
              /\ conclusive fetch 2 out
              /\ (no_retry_after fetch -> w1 = Some 1000%Z))
        \/ (exists w1 w2,
              traffic log = [Fetch 1; Sleep w1; Fetch 2; Sleep w2; Fetch 3]
              /\ conclusive fetch 3 out
              /\ (no_retry_after fetch ->
                  w1 = Some 1000%Z /\ w2 = Some 2000%Z))).
Proof.
  intros H0.
  destruct (iteration 3 1 None log0) as
    [(out & log & Heq & Ht & Hc)|[(_ & w1 & last1 & log1 & Heq1 & Ht1 & Hw1)
                                 |(Hge & _)]];
    [unfold MAX_RETRIES; lia | | | unfold MAX_RETRIES in Hge; lia].
  { exists out, log. split; [assumption|]. left. rewrite Ht, H0. auto. }
  assert (Hw1' : no_retry_after fetch -> w1 = Some 1000%Z).
  { intros Hno. destruct (Hw1 Hno) as [->| ->]; reflexivity. }
  rewrite Heq1. change (1 + 1)%Z with 2%Z.
  destruct (iteration 2 2 last1 log1) as
    [(out & log & Heq & Ht & Hc)|[(_ & w2 & last2 & log2 & Heq2 & Ht2 & Hw2)
                                 |(Hge & _)]];
    [unfold MAX_RETRIES; lia | | | unfold MAX_RETRIES in Hge; lia].
  { exists out, log. split; [assumption|]. right; left. exists w1.
    rewrite Ht, Ht1, H0. auto. }
  assert (Hw2' : no_retry_after fetch -> w2 = Some 2000%Z).
  { intros Hno. destruct (Hw2 Hno) as [->| ->]; reflexivity. }
  rewrite Heq2. change (2 + 1)%Z with 3%Z.
  destruct (iteration 1 3 last2 log2) as
    [(out & log & Heq & Ht & Hc)|[(Hlt & _)
                                 |(_ & e & log3 & Heq3 & Ht3 & Hr & Hcode)]];
    [unfold MAX_RETRIES; lia | | unfold MAX_RETRIES in Hlt; lia | ].
  - exists out, log. split; [assumption|]. right; right. exists w1, w2.
    rewrite Ht, Ht2, Ht1, H0. auto.
  - exists (Thrown (RWhisper e)), log3. split; [rewrite Heq3; reflexivity|].
    right; right. exists w1, w2. rewrite Ht3, Ht2, Ht1, H0.
    repeat split; auto. intros _. unfold MAX_RETRIES. lia.
Qed.

Lemma includes_format_In (extension : string) :
  includes_format extension = true <-> In extension SUPPORTED_FORMATS.
Proof.
  unfold includes_format. rewrite existsb_exists. split.
  - intros (x & Hin & Heq). apply String.eqb_eq in Heq. now subst.
  - intros Hin. exists extension. split; [assumption | apply String.eqb_refl].
Qed.

Lemma validateAudioFile_passes (file : File) :
  validateAudioFile file = None
  <-> (file_size file <= MAX_FILE_SIZE)%Z /\ file_size file <> 0%Z
      /\ In (getFileExtension file) SUPPORTED_FORMATS.
Proof.
  unfold validateAudioFile. rewrite <- includes_format_In.
  destruct (Z.ltb_spec MAX_FILE_SIZE (file_size file)).
  { split; [discriminate | intros (? & _); lia]. }
  destruct (Z.eqb_spec (file_size file) 0).
  { split; [discriminate | intros (_ & ? & _); contradiction]. }
  destruct (includes_format (getFileExtension file)); cbn [negb].
  - split; auto.
  - split; [discriminate | intros (_ & _ & ?); discriminate].
Qed.

Lemma transcribeAudio_sendable (audioFile : option File) (apiKey : option string) :
  sendable audioFile apiKey ->
  transcribeAudio fetch audioFile apiKey
  = attempts fetch 4 1%Z None [Progress "preparing"; Progress "uploading"].
Proof.
  intros (file & -> & Hkey & Hsize & Hne & Hext).
  unfold transcribeAudio. rewrite Hkey. cbn [negb].
  now rewrite (proj2 (validateAudioFile_passes file)).
Qed.

Lemma transcribeAudio_not_sendable (audioFile : option File) (apiKey : option string) :
  ~ sendable audioFile apiKey ->
  exists e, transcribeAudio fetch audioFile apiKey = (Thrown (RWhisper e), [])
            /\ retryable e = false
            /\ In (code e) ["NO_FILE"; "NO_API_KEY"; "FILE_TOO_LARGE";
                            "EMPTY_FILE"; "UNSUPPORTED_FORMAT"].
Proof.
  intros Hno. unfold transcribeAudio.
  destruct audioFile as [file|].
  2:{ eexists; split; [reflexivity|]. split; [reflexivity | cbn; auto]. }
  destruct (truthy apiKey) eqn:Hkey; cbn [negb].
  2:{ eexists; split; [reflexivity|]. split; [reflexivity | cbn; auto]. }
  destruct (validateAudioFile file) as [e|] eqn:Hv.
  - exists e. split; [reflexivity|]. revert Hv. unfold validateAudioFile.
    destruct (MAX_FILE_SIZE <? file_size file)%Z;
      [intros [= <-]; split; [reflexivity | cbn; auto 10]|].
    destruct (file_size file =? 0)%Z;
      [intros [= <-]; split; [reflexivity | cbn; auto 10]|].
    destruct (negb (includes_format (getFileExtension file)));
      [intros [= <-]; split; [reflexivity | cbn; auto 10]|].
    discriminate.
  - exfalso. apply Hno. exists file.
    apply validateAudioFile_passes in Hv. tauto.
Qed.

Lemma sendable_dec (audioFile : option File) (apiKey : option string) :
  sendable audioFile apiKey \/ ~ sendable audioFile apiKey.
Proof.
  destruct audioFile as [file|]; [|right; intros (f & [=] & _)].
  destruct (truthy apiKey) eqn:Hkey;
    [|right; intros (f & _ & H & _); congruence].
  destruct (validateAudioFile file) eqn:Hv.
  - right. intros (f & [= <-] & _ & H).
    apply validateAudioFile_passes in H. congruence.
  - left. exists file. apply validateAudioFile_passes in Hv. tauto.
Qed.

(** Whatever the API answers, a call sends at most three requests,
    numbered 1, 2, 3, and pauses exactly once between two consecutive
    requests, never before the first or after the last. *)
Theorem at_most_three_requests (audioFile : option File) (apiKey : option string) :
  let log := snd (transcribeAudio fetch audioFile apiKey) in
  traffic log = []
  \/ traffic log = [Fetch 1]
  \/ (exists w1, traffic log = [Fetch 1; Sleep w1; Fetch 2])
  \/ (exists w1 w2,
        traffic log = [Fetch 1; Sleep w1; Fetch 2; Sleep w2; Fetch 3]).
Proof.
  cbv zeta.
  destruct (sendable_dec audioFile apiKey) as [Hs|Hs].
  - rewrite (transcribeAudio_sendable _ _ Hs).
    destruct (run_summary [Progress "preparing"; Progress "uploading"] eq_refl)
      as (out & log & -> & [(Ht & _)|[(w1 & Ht & _)|(w1 & w2 & Ht & _)]]);
      cbn [snd]; eauto 6.
  - destruct (transcribeAudio_not_sendable _ _ Hs) as (e & -> & _). now left.
Qed.


(** A call always ends, with a result or an error.  A result is the
    parsed body of an ok answer to the last request sent.  The error kept
    for a loop that would end without any error is never thrown, and a
    retryable error is thrown only after the third request. *)
Theorem transcribeAudio_outcome (audioFile : option File) (apiKey : option string) :
  let out := fst (transcribeAudio fetch audioFile apiKey) in
  let log := snd (transcribeAudio fetch audioFile apiKey) in
  out <> OutOfFuel
  /\ (forall text, out = Returned text ->
      exists k r, List.last (traffic log) (Sleep None) = Fetch k
                  /\ fetch k = Responded r /\ resp_ok r = true
                  /\ resp_parsed r = ParsedOk text)
  /\ (forall e, out = Thrown (RWhisper e) ->
      code e <> "MAX_RETRIES_EXCEEDED"
      /\ (retryable e = true ->
          exists w1 w2,
            traffic log = [Fetch 1; Sleep w1; Fetch 2; Sleep w2; Fetch 3])).
Proof.
  cbv zeta.
  destruct (sendable_dec audioFile apiKey) as [Hs|Hs].
  - rewrite (transcribeAudio_sendable _ _ Hs).
    destruct (run_summary [Progress "preparing"; Progress "uploading"] eq_refl)
      as (out & log & -> & H). cbn [fst snd].
    assert (Hc : exists k, conclusive fetch k out
                           /\ List.last (traffic log) (Sleep None) = Fetch k
                           /\ (k = 3%Z ->
                               exists w1 w2,
                                 traffic log
                                 = [Fetch 1; Sleep w1; Fetch 2; Sleep w2; Fetch 3])).
    { destruct H as [(-> & Hc)|[(w1 & -> & Hc & _)|(w1 & w2 & -> & Hc & _)]].
      - exists 1%Z. repeat split; auto. discriminate.
      - exists 2%Z. repeat split; auto. discriminate.
      - exists 3%Z. repeat split; eauto. }
    destruct Hc as (k & Hc & Hlast & Hk).
    split; [intros ->; exact Hc|]. split.
    + intros text ->. destruct Hc as (r & ? & ? & ?). exists k, r. auto.
    + intros e ->. destruct Hc as (Hcode & Hc). split; [exact Hcode|].
      intros Hr. specialize (Hc Hr). apply Hk.
      destruct H as [(Ht & _)|[(w1 & Ht & _)|(w1 & w2 & Ht & _)]];
        rewrite Ht in Hlast; cbn in Hlast; injection Hlast as <-;
        unfold MAX_RETRIES in Hc; lia.
  - destruct (transcribeAudio_not_sendable _ _ Hs) as (e & -> & Hr & Hin).
    cbn [fst snd]. split; [discriminate|]. split; [discriminate|].
    intros e' [= <-]. split.
    + intros Hcode. rewrite Hcode in Hin. cbn in Hin.
      repeat (destruct Hin as [Hin|Hin]; [discriminate|]). exact Hin.
    + intros Hr'. congruence.
Qed.

(** Without a [Retry-After] header in any answer, the pauses are one
    second after the first request and two seconds after the second, so a
    call never waits more than three seconds in all. *)
Theorem pauses_without_retry_after (audioFile : option File)
    (apiKey : option string) :
  no_retry_after fetch ->
  let log := snd (transcribeAudio fetch audioFile apiKey) in
  traffic log = []
  \/ traffic log = [Fetch 1]
  \/ traffic log = [Fetch 1; Sleep (Some 1000%Z); Fetch 2]
  \/ traffic log
     = [Fetch 1; Sleep (Some 1000%Z); Fetch 2; Sleep (Some 2000%Z); Fetch 3].
Proof.
  intros Hno. cbv zeta.
  destruct (sendable_dec audioFile apiKey) as [Hs|Hs].
  - rewrite (transcribeAudio_sendable _ _ Hs).
    destruct (run_summary [Progress "preparing"; Progress "uploading"] eq_refl)
      as (out & log & -> & [(Ht & _)|[(w1 & Ht & _ & Hw)
                                     |(w1 & w2 & Ht & _ & Hw)]]);
      cbn [snd]; auto.
    + rewrite (Hw Hno) in Ht. auto.
    + destruct (Hw Hno) as [-> ->]. auto.
  - destruct (transcribeAudio_not_sendable _ _ Hs) as (e & -> & _). now left.
Qed.

End ApiFacts.

Section ApiExamples.

Import Js Api.


Lemma sample_no_retry_after : no_retry_after ApiSample.fetch.
Proof.
  intros k r H. unfold ApiSample.fetch in H.
  destruct (k <? 3)%Z; injection H as <-; reflexivity.
Qed.


Lemma transcribeAudio_outcome_witness :
  exists k r,
    List.last (traffic (snd (transcribeAudio ApiSample.fetch (Some ApiSample.file)
                                             ApiSample.key)))
              (Sleep None) = Fetch k
    /\ ApiSample.fetch k = Responded r /\ resp_ok r = true
    /\ resp_parsed r = ParsedOk "hello there".
Proof.
  apply (proj1 (proj2 (transcribeAudio_outcome ApiSample.fetch
                         (Some ApiSample.file) ApiSample.key))).
  reflexivity.
Defined.

Lemma pauses_without_retry_after_witness :
  let log := snd (transcribeAudio ApiSample.fetch (Some ApiSample.file)
                                  ApiSample.key) in
  traffic log = []
  \/ traffic log = [Fetch 1]
  \/ traffic log = [Fetch 1; Sleep (Some 1000%Z); Fetch 2]
  \/ traffic log
     = [Fetch 1; Sleep (Some 1000%Z); Fetch 2; Sleep (Some 2000%Z); Fetch 3].
Proof.
  apply (pauses_without_retry_after ApiSample.fetch).
  exact sample_no_retry_after.
Defined.

End ApiExamples.

(** ** File extensions *)

Section ExtensionFacts.

Import Js Api.

Lemma split_on_cons (sep : ascii) (s : string) :
  exists p ps, TextUtils.split_on sep s = p :: ps.
Proof.
  destruct s as [|c s]; cbn [TextUtils.split_on]; [eauto|].
  destruct (Ascii.eqb c sep); [eauto|].
  destruct (TextUtils.split_on sep s); eauto.
Qed.





End ExtensionFacts.

(** ** Worked runs of the handler and of the segment builder *)

Section MoreExamples.

Import Js Backend Server Failure Slots.

Lemma invalid_request_touches_nothing_witness :
  exists error,
    forall env st,
      transcribe_handler Sample.cfg env MoreSamples.req_without_url st
      = mkState (events st ++ [EvError error]) true (files st) (unlinks st)
                (downloads st) None.
Proof.
  apply (invalid_request_touches_nothing Sample.cfg MoreSamples.req_without_url).
  left. reflexivity.
Defined.


Lemma result_only_within_limits_witness :
  (rd_duration MoreSamples.result <= MAX_DURATION_SECONDS)%Z
  /\ VideoId.valid_id (rd_videoId MoreSamples.result)
  /\ (exists url info,
        truthy_value (body_url Sample.req) = Some url
        /\ VideoId.extractVideoId url = Some (rd_videoId MoreSamples.result)
        /\ getVideoInfo (Sample.env 600 false) url = Resolved info
        /\ vi_isLive info = false
        /\ rd_duration MoreSamples.result = vi_duration info
        /\ downloads (transcribe_handler Sample.cfg (Sample.env 600 false)
                                         Sample.req (fresh ∅))
           = downloads (fresh ∅)
             ++ [(url, path_join (TEMP_DIR Sample.cfg)
                                 (randomUUID (Sample.env 600 false)))]).
Proof.
  apply (result_only_within_limits Sample.cfg Sample.req (Sample.env 600 false)
           (fresh ∅) MoreSamples.progress MoreSamples.result).
  reflexivity.
Defined.

Lemma only_the_selected_backend_is_used_witness :
  (forall o d,
      transcribe_handler Sample.cfg (with_cloud (Sample.env 600 false) o d)
                         MoreSamples.req_local (fresh ∅)
      = transcribe_handler Sample.cfg (Sample.env 600 false)
                           MoreSamples.req_local (fresh ∅))
  /\ (forall w,
        transcribe_handler Sample.cfg (with_whisper (Sample.env 600 false) w)
                           Sample.req (fresh ∅)
        = transcribe_handler Sample.cfg (Sample.env 600 false)
                             Sample.req (fresh ∅)).
Proof.
  split.
  - apply (proj1 (only_the_selected_backend_is_used Sample.cfg
                    MoreSamples.req_local (Sample.env 600 false) (fresh ∅))).
    reflexivity.
  - apply (proj2 (only_the_selected_backend_is_used Sample.cfg
                    Sample.req (Sample.env 600 false) (fresh ∅))).
    vm_compute. discriminate.
Defined.

Lemma sample_words_present :
  default [] (alt_words MoreSamples.alternative) <> [].
Proof. discriminate. Qed.

Lemma sample_words_have_text :
  Forall (fun w => nonempty (content w) = true)
         (default [] (alt_words MoreSamples.alternative)).
Proof. repeat constructor. Qed.

Lemma sample_words_in_time_order :
  in_time_order (default [] (alt_words MoreSamples.alternative)).
Proof.
  split; repeat constructor; cbn; unfold Qle; cbn; lia.
Qed.

Lemma segments_are_ordered_slots_witness :
  Forall covers_a_slot (synthesize MoreSamples.alternative)
  /\ StronglySorted before (synthesize MoreSamples.alternative).
Proof.
  apply segments_are_ordered_slots. exact sample_words_present.
Defined.

Lemma segments_have_text_witness :
  Forall (fun s => nonempty (seg_text s) = true)
         (synthesize MoreSamples.alternative).
Proof.
  apply segments_have_text. exact sample_words_present.
Defined.

Lemma segments_keep_every_word_witness :
  join " " (map seg_text (synthesize MoreSamples.alternative))
  = join " " (map content (default [] (alt_words MoreSamples.alternative))).
Proof.
  apply segments_keep_every_word.
  - exact sample_words_present.
  - exact sample_words_have_text.
Defined.

Lemma ordered_words_fill_their_slots_witness :
  synthesize MoreSamples.alternative
  = by_slot (default [] (alt_words MoreSamples.alternative)).
Proof.
  apply ordered_words_fill_their_slots.
  - exact sample_words_present.
  - exact sample_words_in_time_order.
  - exact sample_words_have_text.
Defined.

End MoreExamples.

(** ** The reader of the event stream *)

Section SseFacts.

Import Js Sse.

Context {D : Type}.

Variable parse : string -> option (Message D).

Lemma split_blank_two (c c2 : ascii) (s : string) :
  split_blank (String c (String c2 s))
  = if is_lf c && is_lf c2 then EmptyString :: split_blank s
    else cons_head c (split_blank (String c2 s)).
Proof. reflexivity. Qed.

Lemma split_blank_cons (s : string) : exists p ps, split_blank s = p :: ps.
Proof.
  destruct s as [|c [|c2 s]];
    [do 2 eexists; reflexivity | do 2 eexists; reflexivity |].
  rewrite split_blank_two. destruct (is_lf c && is_lf c2);
    [do 2 eexists; reflexivity|].
  unfold cons_head. destruct (split_blank (String c2 s));
    do 2 eexists; reflexivity.
Qed.

Lemma split_blank_step (c : ascii) (s : string) :
  (is_lf c = false \/ s = EmptyString
   \/ exists c2 s', s = String c2 s' /\ is_lf c2 = false) ->
  split_blank (String c s) = cons_head c (split_blank s).
Proof.
  intros H. destruct s as [|c2 s']; [reflexivity|].
  rewrite split_blank_two.
  destruct H as [->|[H|(c3 & s3 & [= -> ->] & ->)]];
    [reflexivity | discriminate |].
  now rewrite andb_false_r.
Qed.

Lemma split_blank_single (s r : string) : split_blank s = [r] -> r = s.
Proof.
  revert r. induction s as [|c s IH]; intros r H.
  - cbn in H. congruence.
  - destruct s as [|c2 s'].
    + cbn in H. congruence.
    + rewrite split_blank_two in H. destruct (is_lf c && is_lf c2).
      * destruct (split_blank_cons s') as (p & ps & Hs). rewrite Hs in H.
        discriminate.
      * destruct (split_blank_cons (String c2 s')) as (p & ps & Hs).
        rewrite Hs in H. cbn [cons_head] in H. injection H as <- ->.
        now rewrite (IH p Hs).
Qed.

Lemma append_cons (c : ascii) (a b : string) :
  String c a +:+ b = String c (a +:+ b).
Proof. reflexivity. Qed.

(** Splitting a text received in two pieces: the complete parts of the
    first piece stay as they are, and its last part is continued by the
    second piece. *)
Lemma split_blank_app (a b : string) :
  split_blank (a +:+ b)
  = removelast (split_blank a)
    ++ split_blank (List.last (split_blank a) EmptyString +:+ b).
Proof.
  remember (String.length a) as n eqn:Hn. revert a Hn.
  induction n as [n IH] using lt_wf_ind. intros a Hn.
  destruct a as [|c a]; [reflexivity|].
  assert (Hcons : forall a', (String.length a' < n)%nat ->
            split_blank (String c a') = cons_head c (split_blank a') ->
            split_blank (String c (a' +:+ b)) = cons_head c (split_blank (a' +:+ b)) ->
            split_blank (String c a' +:+ b)
            = removelast (split_blank (String c a'))
              ++ split_blank (List.last (split_blank (String c a')) EmptyString +:+ b)).
  { intros a' Hlen Ha Hab. rewrite append_cons, Hab, Ha.
    rewrite (IH _ Hlen a' eq_refl).
    destruct (split_blank_cons a') as (p & ps & Hs). rewrite Hs.
    destruct ps as [|p' ps].
    - cbn [cons_head removelast List.last app].
      apply split_blank_single in Hs. subst p.
      rewrite <- Hab. reflexivity.
    - cbn [cons_head]. 
      change (removelast (p :: p' :: ps)) with (p :: removelast (p' :: ps)).
      change (removelast (String c p :: p' :: ps))
        with (String c p :: removelast (p' :: ps)).
      change (List.last (String c p :: p' :: ps) EmptyString)
        with (List.last (p :: p' :: ps) EmptyString).
      reflexivity. }
  destruct (is_lf c) eqn:Hc.
  2:{ apply Hcons; [cbn in Hn; lia | |]; apply split_blank_step; auto. }
  destruct a as [|c2 a].
  { reflexivity. }
  destruct (is_lf c2) eqn:Hc2.
  - rewrite !append_cons, !split_blank_two, Hc, Hc2. cbn [andb].
    rewrite (IH (String.length a)) by (cbn in Hn; lia || reflexivity).
    destruct (split_blank_cons a) as (p & ps & Hs). rewrite Hs.
    reflexivity.
  - apply Hcons; [subst n; cbn; lia | |]; apply split_blank_step.
    + right; right. eauto.
    + right; right. rewrite append_cons. eauto.
Qed.

Lemma handle_lines_app (l1 l2 : list string) (c : Client D) :
  handle_lines parse (l1 ++ l2) c
  = match handle_lines parse l1 c with
    | inl c => handle_lines parse l2 c
    | inr failed => inr failed
    end.
Proof.
  revert c. induction l1 as [|line l1 IH]; intros c; [reflexivity|].
  cbn [app handle_lines]. destruct (handle_line parse line c); auto.
Qed.

Lemma stream_text_cons (value : string) (chunks : list string) :
  stream_text (value :: chunks) = value +:+ stream_text chunks.
Proof. reflexivity. Qed.

Lemma append_empty_r (a : string) : a +:+ EmptyString = a.
Proof.
  induction a as [|c a IH]; [reflexivity|]. rewrite append_cons. now rewrite IH.
Qed.

Lemma split_blank_last (s : string) :
  split_blank (List.last (split_blank s) EmptyString)
  = [List.last (split_blank s) EmptyString].
Proof.
  pose proof (split_blank_app s EmptyString) as H.
  rewrite append_empty_r in H.
  destruct (split_blank_cons s) as (p & ps & Hs).
  assert (Hne : split_blank s <> []) by (rewrite Hs; discriminate).
  rewrite (app_removelast_last EmptyString Hne) in H at 1.
  apply app_inv_head in H. now rewrite append_empty_r in H.
Qed.

(** The loop, with nothing complete left in the buffer, does what it
    would do if the rest of the stream came as one chunk. *)
Lemma read_chunks_whole (chunks : list string) (buffer : string) (c : Client D) :
  split_blank buffer = [buffer] ->
  read_chunks parse chunks buffer c
  = match handle_lines parse
            (removelast (split_blank (buffer +:+ stream_text chunks))) c with
    | inl c => finish c
    | inr failed => failed
    end.
Proof.
  revert buffer c. induction chunks as [|value chunks IH]; intros buffer c Hb.
  - cbn [read_chunks stream_text fold_right].
    rewrite append_empty_r, Hb. reflexivity.
  - cbn [read_chunks]. rewrite stream_text_cons, <- append_assoc.
    rewrite (split_blank_app (buffer +:+ value) (stream_text chunks)).
    destruct (split_blank_cons
                (List.last (split_blank (buffer +:+ value)) EmptyString
                 +:+ stream_text chunks)) as (p & ps & Hs).
    rewrite List.removelast_app by (rewrite Hs; discriminate).
    rewrite handle_lines_app.
    destruct (handle_lines parse (removelast (split_blank (buffer +:+ value))) c)
      as [c'|failed]; [|reflexivity].
    apply IH. apply split_blank_last.
Qed.

(** What the reader does depends on the text of the stream only, not on
    how the network cut it into chunks: two streams with the same text
    show the same statuses and end in the same way. *)
Theorem chunking_is_irrelevant (chunks chunks' : list string) :
  stream_text chunks = stream_text chunks' ->
  read_stream parse chunks = read_stream parse chunks'.
Proof.
  intros H. unfold read_stream.
  rewrite !read_chunks_whole by reflexivity. now rewrite H.
Qed.

End SseFacts.

Section WireFacts.

Import Js Server Sse Wire.

Variable json : Event -> string.
Variable parse : string -> option (Message ResultData).

Lemma all_chars_app (p : ascii -> bool) (a b : string) :
  all_chars p a = true -> all_chars p b = true -> all_chars p (a +:+ b) = true.
Proof.
  intros Ha Hb. induction a as [|c a IH]; [exact Hb|].
  rewrite append_cons. cbn [all_chars] in *.
  apply andb_true_iff in Ha as [Hc Ha]. now rewrite Hc, IH.
Qed.

(** A line followed by a blank line is the first part of the split. *)
Lemma split_blank_line (line rest : string) :
  all_chars (fun c => negb (is_lf c)) line = true ->
  split_blank (line +:+ blank_line +:+ rest) = line :: split_blank rest.
Proof.
  intros Hline. induction line as [|c line IH].
  - change (EmptyString +:+ blank_line +:+ rest)
      with (String "010" (String "010" rest)).
    now rewrite split_blank_two.
  - cbn [all_chars] in Hline. apply andb_true_iff in Hline as [Hc Hline].
    apply negb_true_iff in Hc.
    rewrite append_cons, split_blank_step by auto.
    now rewrite (IH Hline).
Qed.

Lemma written_cons (e : Event) (evs : list Event) :
  written json (e :: evs)
  = ("data: " +:+ json e) +:+ blank_line +:+ written json evs.
Proof.
  unfold written. cbn [map]. rewrite stream_text_cons. unfold block.
  now rewrite !append_assoc.
Qed.

(** The parts of what the server wrote are its events, one per part, and
    nothing is left over. *)
Lemma split_blank_written (evs : list Event) :
  Forall (carried json parse) evs ->
  split_blank (written json evs)
  = map (fun e => "data: " +:+ json e) evs ++ [EmptyString].
Proof.
  induction 1 as [|e evs [Hline _] _ IH]; [reflexivity|].
  rewrite written_cons, split_blank_line, IH; [reflexivity|].
  apply all_chars_app; [reflexivity | exact Hline].
Qed.

Lemma handle_line_carried (e : Event) (c : Client ResultData) :
  carried json parse e ->
  handle_line parse ("data: " +:+ json e) c
  = match e with
    | EvInfo message => inl (mkClient (shown c ++ [message]) (finalResult c))
    | EvError error => inr (Failed (shown c) (ErrorMessage error))
    | EvComplete data => inl (mkClient (shown c) (Some data))
    end.
Proof.
  intros [_ Hparse]. unfold handle_line.
  rewrite strip_prefix_app, Hparse. destruct e; reflexivity.
Qed.

Lemma handle_lines_infos (messages : list string) (c : Client ResultData) :
  Forall (carried json parse) (map EvInfo messages) ->
  handle_lines parse (map (fun e => "data: " +:+ json e) (map EvInfo messages)) c
  = inl (mkClient (shown c ++ messages) (finalResult c)).
Proof.
  revert c. induction messages as [|m messages IH]; intros c H.
  - cbn. rewrite app_nil_r. now destruct c.
  - cbn [map] in H. apply Forall_cons_1 in H as [Hm H].
    cbn [map handle_lines]. rewrite (handle_line_carried _ _ Hm).
    rewrite (IH _ H). cbn [shown finalResult]. now rewrite <- app_assoc.
Qed.

(** End to end: when the server's events are progress messages followed
    by one result or one error, as the handler writes them, the extension
    shows exactly these messages, in order, after its own first status,
    and then returns that result or fails with that error -- however the
    stream is cut into chunks. *)
Theorem client_reads_what_the_server_sent (messages : list string)
    (last : Event) (chunks : list string) :
  Forall (carried json parse) (map EvInfo messages ++ [last]) ->
  stream_text chunks = written json (map EvInfo messages ++ [last]) ->
  read_stream parse chunks
  = let statuses := "Connecting to transcription server..." :: messages in
    match last with
    | EvComplete data => Success statuses data
    | EvError error => Failed statuses (ErrorMessage error)
    | EvInfo message =>
        Failed (statuses ++ [message])
               (ErrorMessage "Stream ended without completion data")
    end.
Proof.
  intros Hc Htext. unfold read_stream.
  rewrite read_chunks_whole by reflexivity.
  change (EmptyString +:+ stream_text chunks) with (stream_text chunks).
  rewrite Htext, (split_blank_written _ Hc), removelast_last.
  rewrite map_app, handle_lines_app.
  apply Forall_app in Hc as [Hinfos Hlast].
  apply Forall_cons_1 in Hlast as [Hlast _].
  rewrite (handle_lines_infos _ _ Hinfos).
  cbn [map handle_lines]. rewrite (handle_line_carried _ _ Hlast).
  destruct last; reflexivity.
Qed.

End WireFacts.

Section WireExamples.

Import Js Server Sse Wire.

Lemma chunking_is_irrelevant_witness :
  read_stream WireSample.parse WireSample.chunks
  = read_stream WireSample.parse [WireSample.text].
Proof.
  apply chunking_is_irrelevant. vm_compute. reflexivity.
Defined.

Lemma client_reads_what_the_server_sent_witness :
  read_stream WireSample.parse WireSample.chunks
  = Success ["Connecting to transcription server...";
             "Fetching video info...";
             "Downloading audio from YouTube...";
             "Transcribing with OpenAI Whisper...";
             "Finalizing..."]
            MoreSamples.result.
Proof.
  apply (client_reads_what_the_server_sent WireSample.json WireSample.parse
           ["Fetching video info..."; "Downloading audio from YouTube...";
            "Transcribing with OpenAI Whisper..."; "Finalizing..."]
           (EvComplete MoreSamples.result) WireSample.chunks).
  - repeat constructor.
  - vm_compute. reflexivity.
Defined.

End WireExamples.
